(** * The watch layer of the revisioned key-value store

    A shallow embedding of [storage/watchable_store.go]: the registry of
    synced and unsynced watchers, the notifier that runs with every
    committed mutation, the periodic sync pass, and the facade that wraps
    the embedded store.

    Conventions of the embedding:
    - a [*watcher] is an address into the map [watchers] (the Go heap);
      address [0] is [nil].  The registry holds addresses, so the one
      assignment to a field of a watcher, [w.cur = rev] in [notify], is seen
      through every reference;
    - a channel is an address into [chans]; a send inside
      [select { case ch <- r: ... default: ... }] succeeds when the buffer
      has room and takes the [default] branch otherwise;
    - [range] over a Go map visits the entries in an order the language
      leaves open: the order is the parameter [GoRange];
    - [log.Panicf] and [panic] end the process: [Panic];  an operation that
      calls [s.mu.Lock()] while the mutex is held waits: [Blocked];
    - a call holds [s.mu] from start to end and runs without interleaving;
      the reader of a channel takes its responses between two calls
      ([recv]).  The mutex of the embedded store, which [syncWatchers] and
      [Rev] take under [s.mu], is not modelled;
    - [sent] is not a field of the source: it is the trace of the sends that
      succeeded, each with the watcher it was for;
    - [int64] values are in [Z]; the one addition of the file, [curRev + 1],
      wraps;
    - the metric gauges, the lessor, [stopc], the wait group and [Close] play
      no part in the registry and are left out. *)

From stdpp Require Import base option list gmap fin_sets strings.
From Stdlib Require Import ZArith Lia.

Local Open Scope Z_scope.

(** ** Values *)

Definition ptr := nat.
Definition chan := nat.
Definition nil : ptr := 0%nat.

(** [storagepb.KeyValue]; [Value] is a byte slice, [None] when it is [nil]. *)
Record KeyValue := {
  Key : string;
  CreateRevision : Z;
  ModRevision : Z;
  Version : Z;
  Value : option string;
  Lease : Z
}.

Inductive EventType := PUT | DELETE.

(** [storagepb.Event], field [Type] written [Typ]. *)
Record Event := { Typ : EventType; Kv : KeyValue }.

Record WatchResponse := {
  WatchID : Z;
  Events : list Event;
  Revision : Z
}.

Record watcher := {
  key : string;
  prefix : bool;
  cur : Z;
  id : Z;
  ch : chan
}.

#[global] Instance watcher_inhabited : Inhabited watcher :=
  populate {| key := ""; prefix := false; cur := 0; id := 0; ch := 0%nat |}.

#[global] Instance KeyValue_eq_dec : EqDecision KeyValue.
Proof. solve_decision. Defined.
#[global] Instance EventType_eq_dec : EqDecision EventType.
Proof. solve_decision. Defined.
#[global] Instance Event_eq_dec : EqDecision Event.
Proof. solve_decision. Defined.

(** A buffered channel of [WatchResponse]: capacity and queued responses. *)
Record channel := { cap : nat; buf : list WatchResponse }.

Definition chanBufLen : nat := 1024.

Definition MaxInt64 : Z := 2 ^ 63 - 1.

(** Two's complement wrap-around of [int64] arithmetic. *)
Definition int64 (z : Z) : Z := (z + 2 ^ 63) mod 2 ^ 64 - 2 ^ 63.

(** ** The embedded store

    The type [store] and its methods live outside this file.  The facade
    reads three of its fields directly. *)

Record revision := { main : Z; sub : Z }.

(** Modelled from the spec: a row of the backend's key bucket.  "The backend
    stores each mutation under its encoded revision; DELETE mutations are
    marked by a tombstone bit stored alongside the revision key".  The value
    bytes are kept as the [KeyValue] they unmarshal to, [None] when they do
    not decode. *)
Record row := { rkey : revision; tombstone : bool; rval : option KeyValue }.

(** Modelled from the spec: the fields of the embedded store the watch layer
    consumes, "currentRev.main (latest revision) and compactMainRev
    (compaction floor)", the key bucket in revision order, and the changes
    that [getChanges] hands out. *)
Record store := {
  currentRev : revision;
  compactMainRev : Z;
  b : list row;
  changes : list KeyValue
}.

(** Modelled from the spec: "[Rev() → currentRev]". *)
Definition Rev (st : store) : Z := main (currentRev st).

(** Modelled from the spec: "[getChanges() → sequence of KV] returning
    exactly the KVs mutated by the most recent committed op". *)
Definition getChanges (st : store) : list KeyValue * store :=
  (changes st,
   {| currentRev := currentRev st; compactMainRev := compactMainRev st;
      b := b st; changes := [] |}).

(** Modelled from the spec: "Range-scan the backend's revision bucket for
    revisions in [minRev, currentRev + 1) (half-open). This returns raw
    records ordered by revision"; [minRev] and [maxRev] are the main
    revisions that [revToBytes] encodes into the two bounds. *)
Definition UnsafeRange (rows : list row) (minRev maxRev : Z) : list row :=
  filter (λ r, minRev ≤ main (rkey r) ∧ main (rkey r) < maxRev) rows.

(** Modelled from the spec: "tombstone bit selects DELETE vs PUT". *)
Definition isTombstone (r : row) : bool := tombstone r.

(** ** The watchable store *)

Record watchableStore := {
  mu : bool;
  store_ : store;
  unsynced : gset ptr;
  synced : gmap string (gset ptr);
  (* the heap: watcher objects and channels by address *)
  watchers : gmap ptr watcher;
  chans : gmap chan channel;
  (* every response a send put on a channel, with the watcher it was for *)
  sent : list (ptr * WatchResponse)
}.

Definition set_mu (m : bool) (s : watchableStore) : watchableStore :=
  {| mu := m; store_ := store_ s; unsynced := unsynced s; synced := synced s;
     watchers := watchers s; chans := chans s; sent := sent s |}.

Definition set_store (st : store) (s : watchableStore) : watchableStore :=
  {| mu := mu s; store_ := st; unsynced := unsynced s; synced := synced s;
     watchers := watchers s; chans := chans s; sent := sent s |}.

Definition set_unsynced (u : gset ptr) (s : watchableStore) : watchableStore :=
  {| mu := mu s; store_ := store_ s; unsynced := u; synced := synced s;
     watchers := watchers s; chans := chans s; sent := sent s |}.

Definition set_synced (m : gmap string (gset ptr)) (s : watchableStore)
  : watchableStore :=
  {| mu := mu s; store_ := store_ s; unsynced := unsynced s; synced := m;
     watchers := watchers s; chans := chans s; sent := sent s |}.

Definition set_watchers (h : gmap ptr watcher) (s : watchableStore)
  : watchableStore :=
  {| mu := mu s; store_ := store_ s; unsynced := unsynced s;
     synced := synced s; watchers := h; chans := chans s; sent := sent s |}.

Definition set_chans (c : gmap chan channel) (s : watchableStore)
  : watchableStore :=
  {| mu := mu s; store_ := store_ s; unsynced := unsynced s;
     synced := synced s; watchers := watchers s; chans := c; sent := sent s |}.

Definition set_sent (l : list (ptr * WatchResponse)) (s : watchableStore)
  : watchableStore :=
  {| mu := mu s; store_ := store_ s; unsynced := unsynced s;
     synced := synced s; watchers := watchers s; chans := chans s; sent := l |}.

(** [*w] for a watcher address. *)
Definition deref (s : watchableStore) (w : ptr) : watcher := watchers s !!! w.

(** ** Results of an operation *)

Inductive outcome (A : Type) : Type :=
| Done (a : A)
| Panic (msg : string)
| Blocked.
Arguments Done {A} a.
Arguments Panic {A} msg.
Arguments Blocked {A}.

#[global] Instance outcome_ret : MRet outcome := λ A a, Done a.
#[global] Instance outcome_bind : MBind outcome := λ A B f m,
  match m with
  | Done a => f a
  | Panic msg => Panic msg
  | Blocked => Blocked
  end.

(** A loop whose body may end the process. *)
Fixpoint foldlM {A B} (f : A → B → outcome A) (a : A) (l : list B)
  : outcome A :=
  match l with
  | [] => Done a
  | x :: l' => a' ← f a x; foldlM f a' l'
  end.

(** ** Iteration order of [range] over a map *)

Class GoRange := {
  shuffle : ∀ A : Type, list A → list A;
  shuffle_perm : ∀ (A : Type) (l : list A), shuffle A l ≡ₚ l
}.
Arguments shuffle {_ _} _.

(** The order in which the entries are stored. *)
Definition stored_order : GoRange :=
  {| shuffle := λ _ l, l; shuffle_perm := λ _ l, reflexivity l |}.

Section WatchableStore.
Context `{GoRange}.

Definition range_set (X : gset ptr) : list ptr := shuffle (elements X).
Definition range_strings (X : gset string) : list string := shuffle (elements X).
Definition range_map {V} (m : gmap string V) : list (string * V) :=
  shuffle (map_to_list m).
Definition range_events (m : gmap ptr (list Event)) : list (ptr * list Event) :=
  shuffle (map_to_list m).

(** ** Registry helpers of the source *)

(** [unsafeAddWatcher]: the error, or the updated map. *)
Definition unsafeAddWatcher (synced : gmap string (gset ptr)) (k : string)
    (wa : ptr) : string + gmap string (gset ptr) :=
  if decide (wa = nil) then inl "nil watcher received"
  else match synced !! k with
       | Some v =>
           if decide (wa ∈ v) then inl "put the same watcher twice"
           else inr (<[k := {[wa]} ∪ v]> synced)
       | None => inr (<[k := {[wa]}]> synced)
       end.

(** The innermost loop of [newWatcherToEventMap]: the watchers of one bucket,
    reached through the prefix of length [i] of the event's key. *)
Definition addEventTo (h : gmap ptr watcher) (ev : Event) (i : nat)
    (watcherToEvents : gmap ptr (list Event)) (w : ptr)
  : gmap ptr (list Event) :=
  if negb (prefix (h !!! w))
     && negb (bool_decide (i = String.length (Key (Kv ev))))
  then watcherToEvents
  else <[w := default [] (watcherToEvents !! w) ++ [ev]]> watcherToEvents.

(** The loop over the prefixes [key[:i]], [0 <= i <= len(key)]. *)
Definition addEventAt (h : gmap ptr watcher) (sm : gmap string (gset ptr))
    (ev : Event) (watcherToEvents : gmap ptr (list Event)) (i : nat)
  : gmap ptr (list Event) :=
  let k := String.substring 0 i (Key (Kv ev)) in
  match sm !! k with
  | None => watcherToEvents
  | Some wm => foldl (addEventTo h ev i) watcherToEvents (range_set wm)
  end.

Definition addEvent (h : gmap ptr watcher) (sm : gmap string (gset ptr))
    (watcherToEvents : gmap ptr (list Event)) (ev : Event)
  : gmap ptr (list Event) :=
  foldl (addEventAt h sm ev) watcherToEvents
        (seq 0 (S (String.length (Key (Kv ev))))).

Definition newWatcherToEventMap (h : gmap ptr watcher)
    (sm : gmap string (gset ptr)) (evs : list Event)
  : gmap ptr (list Event) :=
  foldl (addEvent h sm) ∅ evs.

Definition matchPrefix (key : string) (prefixes : gset string) : bool :=
  existsb (λ p, String.prefix p key) (range_strings prefixes).

(** ** Channels *)

(** [select { case c <- r: ... default: ... }]: the store after the send, or
    [None] when the [default] branch runs. *)
Definition trySend (w : ptr) (c : chan) (r : WatchResponse)
    (s : watchableStore) : option watchableStore :=
  match chans s !! c with
  | Some q =>
      if decide (length (buf q) < cap q)%nat
      then Some (set_sent (sent s ++ [(w, r)])
                   (set_chans (<[c := {| cap := cap q; buf := buf q ++ [r] |}]>
                                 (chans s)) s))
      else None
  | None => None
  end.

(** ** The notifier *)

(** The body of the two loops of [notify], for the watcher [w] of the bucket
    [wm] stored under [k]. *)
Definition notify_watcher (rev : Z) (we : gmap ptr (list Event)) (k : string)
    (s : watchableStore) (w : ptr) : watchableStore :=
  match we !! w with
  | None => s
  | Some es =>
      match trySend w (ch (deref s w))
              {| WatchID := id (deref s w); Events := es;
                 Revision := Rev (store_ s) |} s with
      | Some s' => s'
      | None =>
          (* move slow watcher to unsynced *)
          let s1 := set_watchers
                      (<[w := {| key := key (deref s w);
                                 prefix := prefix (deref s w);
                                 cur := rev;
                                 id := id (deref s w);
                                 ch := ch (deref s w) |}]> (watchers s)) s in
          let s2 := set_unsynced ({[w]} ∪ unsynced s1) s1 in
          set_synced (alter (λ wm, wm ∖ {[w]}) k (synced s2)) s2
      end
  end.

Definition notify_bucket (rev : Z) (we : gmap ptr (list Event))
    (s : watchableStore) (kwm : string * gset ptr) : watchableStore :=
  foldl (notify_watcher rev we kwm.1) s (range_set kwm.2).

Definition notify (rev : Z) (evs : list Event) (s : watchableStore)
  : watchableStore :=
  let we := newWatcherToEventMap (watchers s) (synced s) evs in
  foldl (notify_bucket rev we) s (range_map (synced s)).

Definition handle (rev : Z) (evs : list Event) (s : watchableStore)
  : watchableStore :=
  notify rev evs s.

(** ** Registration and cancellation *)

Definition cancelFunc := watchableStore → outcome watchableStore.

(** The closure [cancel] that [watch] returns, over its variables [wa] and
    [k]. *)
Definition cancel (wa : ptr) (k : string) : cancelFunc := λ s,
  if mu s then Blocked
  else if decide (wa ∈ unsynced s)
  then Done (set_unsynced (unsynced s ∖ {[wa]}) s)
  else match synced s !! k with
       | Some v =>
           if decide (wa ∈ v)
           then let v' := v ∖ {[wa]} in
                if decide (size v' = 0)%nat
                then Done (set_synced (delete k (synced s)) s)
                else Done (set_synced (<[k := v']> (synced s)) s)
           else Done s
       | None => Done s
       end.

Definition watch (key : string) (prefix : bool) (startRev : Z) (id : Z)
    (ch : chan) (s : watchableStore)
  : outcome (ptr * cancelFunc * watchableStore) :=
  if mu s then Blocked
  else
    let wa := fresh ({[nil]} ∪ dom (watchers s)) in
    let s1 := set_watchers
                (<[wa := {| key := key; prefix := prefix; cur := startRev;
                            id := id; ch := ch |}]> (watchers s)) s in
    let k := key in
    if decide (startRev = 0)
    then match unsafeAddWatcher (synced s1) k wa with
         | inl err => Panic "error unsafeAddWatcher"
         | inr m => Done (wa, cancel wa k, set_synced m s1)
         end
    else Done (wa, cancel wa k, set_unsynced ({[wa]} ∪ unsynced s1) s1).

(** [NewWatchStream]: the stream is its channel. *)
Definition NewWatchStream (s : watchableStore) : chan * watchableStore :=
  let c := fresh ({[0%nat]} ∪ dom (chans s)) in
  (c, set_chans (<[c := {| cap := chanBufLen; buf := [] |}]> (chans s)) s).

(** ** The sync pass *)

(** The first loop of [syncWatchers], over [s.unsynced]: its state is
    [minRev], [keyToUnsynced], [prefixes] and the store. *)
Definition collect (curRev compactionRev : Z)
    (acc : Z * gmap string (gset ptr) * gset string * watchableStore)
    (w : ptr)
  : outcome (Z * gmap string (gset ptr) * gset string * watchableStore) :=
  let '(minRev, keyToUnsynced, prefixes, s) := acc in
  let k := key (deref s w) in
  if decide (cur (deref s w) > curRev)
  then Panic "watcher current revision should not exceed current revision"
  else if decide (cur (deref s w) < compactionRev)
  then Done (minRev, keyToUnsynced, prefixes,
             set_unsynced (unsynced s ∖ {[w]}) s)
  else
    let minRev := if decide (minRev >= cur (deref s w))
                  then cur (deref s w) else minRev in
    let keyToUnsynced := match keyToUnsynced !! k with
                         | Some _ => keyToUnsynced
                         | None => <[k := ∅]> keyToUnsynced
                         end in
    let keyToUnsynced := alter (λ wm, {[w]} ∪ wm) k keyToUnsynced in
    let prefixes := if prefix (deref s w) then {[k]} ∪ prefixes
                    else prefixes in
    Done (minRev, keyToUnsynced, prefixes, s).

(** The second loop, over the rows of the range scan. *)
Definition decodeRow (keyToUnsynced : gmap string (gset ptr))
    (prefixes : gset string) (evs : list Event) (r : row)
  : outcome (list Event) :=
  match rval r with
  | None => Panic "storage: cannot unmarshal event"
  | Some kv =>
      let k := Key kv in
      if bool_decide (keyToUnsynced !! k = None)
         && negb (matchPrefix k prefixes)
      then Done evs
      else Done (evs ++ [{| Typ := if isTombstone r then DELETE else PUT;
                            Kv := kv |}])
  end.

(** The third loop, over the watcher-to-events map. *)
Definition promote (s : watchableStore) (wes : ptr * list Event)
  : outcome watchableStore :=
  let '(w, es) := wes in
  match trySend w (ch (deref s w))
          {| WatchID := id (deref s w); Events := es;
             Revision := main (currentRev (store_ s)) |} s with
  | None => Done s
  | Some s1 =>
      let k := key (deref s1 w) in
      match unsafeAddWatcher (synced s1) k w with
      | inl err => Panic "error unsafeAddWatcher"
      | inr m => Done (set_unsynced (unsynced s1 ∖ {[w]}) (set_synced m s1))
      end
  end.

(** [syncWatchers] up to the call of [newWatcherToEventMap]: the first two
    loops and the fan-out of the scanned events. *)
Definition syncFanOut (s : watchableStore)
  : outcome (gmap ptr (list Event) * watchableStore) :=
  let minRev := MaxInt64 in
  let curRev := main (currentRev (store_ s)) in
  let compactionRev := compactMainRev (store_ s) in
  '(minRev, keyToUnsynced, prefixes, s1) ←
    foldlM (collect curRev compactionRev) (minRev, ∅, ∅, s)
           (range_set (unsynced s));
  let rows := UnsafeRange (b (store_ s1)) minRev (int64 (curRev + 1)) in
  evs ← foldlM (decodeRow keyToUnsynced prefixes) [] rows;
  Done (newWatcherToEventMap (watchers s1) keyToUnsynced evs, s1).

Definition syncWatchers (s : watchableStore) : outcome watchableStore :=
  if decide (size (unsynced s) = 0)%nat then Done s
  else
    '(we, s1) ← syncFanOut s;
    foldlM promote s1 (range_events we).

(** One turn of [syncWatchersLoop]: lock, [syncWatchers], unlock. *)
Definition syncWatchersLoop_turn (s : watchableStore)
  : outcome watchableStore :=
  if mu s then Blocked else syncWatchers s.

(** ** The facade

    Each mutating operation calls the method of the same name of the embedded
    store; that call is the first argument. *)

(** [s.mu.Unlock()]; the runtime ends the process when the mutex is free. *)
Definition Unlock (s : watchableStore) : outcome watchableStore :=
  if mu s then Done (set_mu false s)
  else Panic "sync: unlock of unlocked mutex".

Definition Put (store_Put : store → Z * store) (s : watchableStore)
  : outcome (Z * watchableStore) :=
  if mu s then Blocked
  else
    let '(rev, st1) := store_Put (store_ s) in
    let '(changes, st2) := getChanges st1 in
    match changes with
    | [change] =>
        let ev := {| Typ := PUT; Kv := change |} in
        Done (rev, handle rev [ev] (set_store st2 s))
    | _ => Panic "unexpected len(changes) != 1 after put"
    end.

(** In the loop of [DeleteRange] every event takes [&change], the address of
    the loop variable, which is one variable for the whole loop: when the loop
    is over all the events point to the change it held last. *)
Definition DeleteRange (store_DeleteRange : store → Z * Z * store)
    (s : watchableStore) : outcome (Z * Z * watchableStore) :=
  if mu s then Blocked
  else
    let '(n, rev, st1) := store_DeleteRange (store_ s) in
    let '(changes, st2) := getChanges st1 in
    if decide (Z.of_nat (length changes) ≠ n)
    then Panic "unexpected len(changes) != n after deleteRange"
    else if decide (n = 0) then Done (n, rev, set_store st2 s)
    else
      let evs := match last changes with
                 | Some change =>
                     map (λ _, {| Typ := DELETE; Kv := change |}) changes
                 | None => []
                 end in
      Done (n, rev, handle rev evs (set_store st2 s)).

Definition TxnBegin (store_TxnBegin : store → Z * store) (s : watchableStore)
  : outcome (Z * watchableStore) :=
  if mu s then Blocked
  else let '(txnID, st1) := store_TxnBegin (store_ s) in
       Done (txnID, set_store st1 (set_mu true s)).

(** The events [TxnEnd] builds from the changes. *)
Definition txnEvents (changes : list KeyValue) : list Event :=
  map (λ change, match Value change with
                 | None => {| Typ := DELETE; Kv := change |}
                 | Some _ => {| Typ := PUT; Kv := change |}
                 end) changes.

Definition TxnEnd (store_TxnEnd : Z → store → option string * store)
    (txnID : Z) (s : watchableStore)
  : outcome (option string * watchableStore) :=
  match store_TxnEnd txnID (store_ s) with
  | (Some err, st1) => Done (Some err, set_store st1 s)
  | (None, st1) =>
      let '(changes, st2) := getChanges st1 in
      if decide (length changes = 0)%nat
      then s' ← Unlock (set_store st2 s); Done (None, s')
      else
        let evs := txnEvents changes in
        s' ← Unlock (handle (Rev st2) evs (set_store st2 s));
        Done (None, s')
  end.

Definition newWatchableStore (st : store) : watchableStore :=
  {| mu := false; store_ := st; unsynced := ∅; synced := ∅;
     watchers := ∅; chans := ∅; sent := [] |}.

(** ** Runs *)

(** [make(chan WatchResponse, n)]. *)
Definition makeChan (n : nat) (s : watchableStore) : chan * watchableStore :=
  let c := fresh ({[0%nat]} ∪ dom (chans s)) in
  (c, set_chans (<[c := {| cap := n; buf := [] |}]> (chans s)) s).

(** [<-c]: the reader of a stream takes the oldest response. *)
Definition recv (c : chan) (s : watchableStore) : watchableStore :=
  match chans s !! c with
  | Some q => set_chans (<[c := {| cap := cap q; buf := tail (buf q) |}]>
                           (chans s)) s
  | None => s
  end.

Inductive op :=
| ONewWatchStream
| OMakeChan (n : nat)
| OWatch (key : string) (prefix : bool) (startRev id : Z) (ch : chan)
| OCancel (wa : ptr)
| OPut (store_Put : store → Z * store)
| ODeleteRange (store_DeleteRange : store → Z * Z * store)
| OTxnBegin (store_TxnBegin : store → Z * store)
| OTxnEnd (store_TxnEnd : Z → store → option string * store) (txnID : Z)
| OSync
| ORecv (c : chan)
| OStore (method : store → store).

(** One call from outside; [OCancel wa] calls the closure that [watch]
    returned together with [wa], and [OStore] is a method of the embedded
    store that the facade passes through. *)
Definition exec (o : op) (s : watchableStore) : outcome watchableStore :=
  match o with
  | ONewWatchStream => Done (NewWatchStream s).2
  | OMakeChan n => Done (makeChan n s).2
  | OWatch key prefix startRev id ch =>
      r ← watch key prefix startRev id ch s; Done r.2
  | OCancel wa =>
      match watchers s !! wa with
      | Some w => cancel wa (key w) s
      | None => Done s
      end
  | OPut f => r ← Put f s; Done r.2
  | ODeleteRange f => r ← DeleteRange f s; Done r.2
  | OTxnBegin f => r ← TxnBegin f s; Done r.2
  | OTxnEnd f txnID => r ← TxnEnd f txnID s; Done r.2
  | OSync => syncWatchersLoop_turn s
  | ORecv c => Done (recv c s)
  | OStore f => Done (set_store (f (store_ s)) s)
  end.

Definition run (ops : list op) (s : watchableStore) : outcome watchableStore :=
  foldlM (λ s o, exec o s) s ops.

Definition reachable (s : watchableStore) : Prop :=
  ∃ st ops, run ops (newWatchableStore st) = Done s.

End WatchableStore.

(** * Vocabulary of the properties *)

(** [matches w e]: the key of the watcher is the key of the event, or the
    watcher is a prefix watcher and its key is a byte prefix of the key of the
    event. *)
Definition matches (w : watcher) (e : Event) : Prop :=
  key w = Key (Kv e) ∨ (prefix w = true ∧ String.prefix (key w) (Key (Kv e)) = true).

#[global] Instance matches_dec w e : Decision (matches w e).
Proof. unfold matches. apply _. Defined.

(** The events recorded for a watcher in a watcher-to-events map; the empty
    list when the watcher is not a key of the map. *)
Definition evlist (m : gmap ptr (list Event)) (w : ptr) : list Event :=
  default [] (m !! w).

(** [newWatcherToEventMap] reaches the watcher [w] through the prefix of
    length [i] of the key of [ev]. *)
Definition visits (h : gmap ptr watcher) (sm : gmap string (gset ptr))
    (ev : Event) (w : ptr) (i : nat) : bool :=
  match sm !! String.substring 0 i (Key (Kv ev)) with
  | Some wm =>
      bool_decide (w ∈ wm)
      && (prefix (h !!! w) || bool_decide (i = String.length (Key (Kv ev))))
  | None => false
  end.

(** No key of the map holds an empty list. *)
Definition no_empty (m : gmap ptr (list Event)) : Prop :=
  ∀ w es, m !! w = Some es → es ≠ [].

(** How many times [newWatcherToEventMap] appends [ev] for [w]. *)
Definition hits (h : gmap ptr watcher) (sm : gmap string (gset ptr))
    (ev : Event) (w : ptr) : nat :=
  length (filter (λ i, visits h sm ev w i = true)
                 (seq 0 (S (String.length (Key (Kv ev)))))).

(** The watcher [w] is a member of the bucket of the map stored under [k]. *)
Definition member (sm : gmap string (gset ptr)) (k : string) (w : ptr) : Prop :=
  ∃ wm, sm !! k = Some wm ∧ w ∈ wm.

#[global] Instance member_dec sm k w : Decision (member sm k w).
Proof.
  unfold member. destruct (sm !! k) as [wm|].
  - destruct (decide (w ∈ wm)); [left; eauto|right; intros (? & [= <-] & ?); done].
  - right. intros (? & ? & _). done.
Defined.

(** The registry [sm] holds [w] under the key of [w] and nowhere else. *)
Definition registered (h : gmap ptr watcher) (sm : gmap string (gset ptr))
    (w : ptr) : Prop :=
  member sm (key (h !!! w)) w ∧ ∀ k, member sm k w → k = key (h !!! w).

(** The registry invariant: a synced watcher is an allocated watcher stored
    under its own key, an unsynced watcher is allocated and in no bucket of
    [synced], and [nil] is no watcher. *)
Record wf (s : watchableStore) : Prop := {
  wf_synced : ∀ k w, member (synced s) k w →
                ∃ wr, watchers s !! w = Some wr ∧ key wr = k;
  wf_unsynced : ∀ w, w ∈ unsynced s →
                  is_Some (watchers s !! w) ∧ ∀ k, ¬ member (synced s) k w;
  wf_nil : watchers s !! nil = None
}.

(** The responses that were sent for the watcher [w], oldest first. *)
Definition sent_to (s : watchableStore) (w : ptr) : list WatchResponse :=
  (filter (λ p, p.1 = w) (sent s)).*2.

(** Two stores hold the watcher [w] in the same condition: the same fields,
    the same membership of [unsynced] and of each bucket of [synced], the same
    responses sent. *)
Record same_view (s s' : watchableStore) (w : ptr) : Prop := {
  sv_watcher : watchers s' !! w = watchers s !! w;
  sv_unsynced : w ∈ unsynced s' ↔ w ∈ unsynced s;
  sv_synced : ∀ k, member (synced s') k w ↔ member (synced s) k w;
  sv_sent : sent_to s' w = sent_to s w
}.

(** The registry invariant, for one watcher. *)
Definition wf_at (s : watchableStore) (w : ptr) : Prop :=
  (∀ k, member (synced s) k w → ∃ wr, watchers s !! w = Some wr ∧ key wr = k)
  ∧ (w ∈ unsynced s →
     is_Some (watchers s !! w) ∧ ∀ k, ¬ member (synced s) k w)
  ∧ (w = nil → watchers s !! w = None).

(** The event that the second loop of [syncWatchers] decodes from a row. *)
Definition rowEvent (r : row) : option Event :=
  kv ← rval r; Some {| Typ := if isTombstone r then DELETE else PUT; Kv := kv |}.

(** The test of the second loop of [syncWatchers]: the key of the event is a
    key of [keyToUnsynced], or a prefix of [prefixes] matches it. *)
Definition relevant `{GoRange} (keyToUnsynced : gmap string (gset ptr))
    (prefixes : gset string) (e : Event) : Prop :=
  ¬ (keyToUnsynced !! Key (Kv e) = None
     ∧ matchPrefix (Key (Kv e)) prefixes = false).

(** The watcher is behind the compaction revision of the store. *)
Definition compacted (s : watchableStore) (w : ptr) : Prop :=
  cur (deref s w) < compactMainRev (store_ s).

#[global] Instance compacted_dec s w : Decision (compacted s w).
Proof. unfold compacted. apply _. Defined.

#[global] Instance relevant_dec `{GoRange} k2u prefixes e :
  Decision (relevant k2u prefixes e).
Proof. unfold relevant. apply _. Defined.

(** What the first loop of [syncWatchers] leaves behind when it started in
    [s]: the store [s1], which differs from [s] in [unsynced] alone and has
    lost the compacted watchers, the map [k2u] of the remaining watchers by
    key, and the keys of the prefix watchers among them. *)
Record collected (s s1 : watchableStore) (k2u : gmap string (gset ptr))
    (prefixes : gset string) : Prop := {
  col_frame : s1 = set_unsynced (unsynced s1) s;
  col_unsynced : ∀ w, w ∈ unsynced s1 ↔ w ∈ unsynced s ∧ ¬ compacted s w;
  col_member : ∀ k w, member k2u k w ↔ w ∈ unsynced s1 ∧ k = key (deref s w);
  col_prefixes : ∀ k, k ∈ prefixes ↔
                   ∃ w, member k2u k w ∧ prefix (deref s w) = true;
  col_cur : ∀ w, w ∈ unsynced s → cur (deref s w) ≤ main (currentRev (store_ s))
}.

(** The response the notifier builds for a watcher and its events. *)
Definition response (s : watchableStore) (w : ptr) (es : list Event) : WatchResponse :=
  {| WatchID := id (deref s w); Events := es; Revision := Rev (store_ s) |}.

(** The watcher after [w.cur = rev]. *)
Definition with_cur (rev : Z) (wr : watcher) : watcher :=
  {| key := key wr; prefix := prefix wr; cur := rev; id := id wr; ch := ch wr |}.

(** The two ways a turn of the loop of [notify] ends for a watcher with
    events. *)
Definition delivered (s s' : watchableStore) (w : ptr) (es : list Event)
  : Prop :=
  mu s' = mu s ∧ store_ s' = store_ s ∧ watchers s' = watchers s
  ∧ unsynced s' = unsynced s ∧ synced s' = synced s
  ∧ sent s' = sent s ++ [(w, response s w es)].

Definition demoted (s s' : watchableStore) (w : ptr) (k : string) (rev : Z)
  : Prop :=
  mu s' = mu s ∧ store_ s' = store_ s ∧ chans s' = chans s ∧ sent s' = sent s
  ∧ watchers s' = <[w := with_cur rev (deref s w)]> (watchers s)
  ∧ unsynced s' = {[w]} ∪ unsynced s
  ∧ synced s' = alter (λ wm, wm ∖ {[w]}) k (synced s).

(** The turns of the two loops of [notify], in the order they are taken. *)
Definition turns `{GoRange} (sm : gmap string (gset ptr))
  : list (string * ptr) :=
  range_map sm ≫= λ kwm, (λ w, (kwm.1, w)) <$> range_set kwm.2.

Definition notify_turn `{GoRange} (rev : Z) (we : gmap ptr (list Event))
    (s : watchableStore) (kw : string * ptr) : watchableStore :=
  notify_watcher rev we kw.1 s kw.2.

(** The watcher was sent the response [r] and is otherwise as it was. *)
Definition served (s s' : watchableStore) (w : ptr) (r : WatchResponse)
  : Prop :=
  sent_to s' w = sent_to s w ++ [r]
  ∧ watchers s' !! w = watchers s !! w
  ∧ (w ∈ unsynced s' ↔ w ∈ unsynced s)
  ∧ ∀ k', member (synced s') k' w ↔ member (synced s) k' w.

(** The watcher was sent nothing, its [cur] is [rev], it is in [unsynced]
    and it left the bucket stored under [k]. *)
Definition moved (s s' : watchableStore) (w : ptr) (k : string) (rev : Z)
  : Prop :=
  sent_to s' w = sent_to s w
  ∧ watchers s' !! w = Some (with_cur rev (deref s w))
  ∧ w ∈ unsynced s'
  ∧ ∀ k', member (synced s') k' w ↔ member (synced s) k' w ∧ k' ≠ k.

(** A turn of the third loop of [syncWatchers] whose send succeeds. *)
Definition promoted (s s' : watchableStore) (w : ptr) (es : list Event)
  : Prop :=
  mu s' = mu s ∧ store_ s' = store_ s ∧ watchers s' = watchers s
  ∧ sent s' = sent s ++ [(w, response s w es)]
  ∧ unsynced s' = unsynced s ∖ {[w]}
  ∧ w ≠ nil ∧ (¬ member (synced s) (key (deref s w)) w)
  ∧ ∀ k' w', member (synced s') k' w' ↔
             member (synced s) k' w' ∨ (k' = key (deref s w) ∧ w' = w).

(** The same, seen from the watcher: it was sent the response [r], left
    [unsynced] and joined the bucket stored under its key. *)
Definition raised (s s' : watchableStore) (w : ptr) (r : WatchResponse)
  : Prop :=
  sent_to s' w = sent_to s w ++ [r]
  ∧ watchers s' !! w = watchers s !! w
  ∧ (w ∉ unsynced s')
  ∧ ∀ k', member (synced s') k' w ↔
          member (synced s) k' w ∨ k' = key (deref s w).

(** The events of a mutation as the specification has them: the facade
    "retrieves the set of KV changes produced by that commit" and
    "synthesizes the matching PUT/DELETE events", one event for each change,
    carrying that change. *)
Definition spec_events (t : EventType) (changes : list KeyValue) : list Event :=
  map (λ change, {| Typ := t; Kv := change |}) changes.

(** The condition of a synced watcher [w] of the bucket [k] after a mutation
    with the events [E] and the revision [r].  With matching events it is in
    one of two conditions: it was sent one response with all its matching
    events and the revision [r] and stays where it was, or it was sent
    nothing, is in [unsynced] with [cur = r] and in no bucket of [synced].
    Without matching events it stays in its bucket. *)
Definition settled (s s' : watchableStore) (k : string) (w : ptr) (r : Z)
    (E : list Event) : Prop :=
  (filter (matches (deref s w)) E ≠ [] →
     (sent_to s' w =
        sent_to s w ++ [{| WatchID := id (deref s w);
                           Events := filter (matches (deref s w)) E;
                           Revision := r |}]
      ∧ member (synced s') k w
      ∧ (w ∉ unsynced s')
      ∧ deref s' w = deref s w)
     ∨ (sent_to s' w = sent_to s w
        ∧ w ∈ unsynced s'
        ∧ cur (deref s' w) = r
        ∧ ∀ k', ¬ member (synced s') k' w))
  ∧ (filter (matches (deref s w)) E = [] →
     member (synced s') k w
     ∧ (w ∉ unsynced s')
     ∧ sent_to s' w = sent_to s w).

(** ** Sample stores

    Concrete stores on which the statements below are evaluated. *)

(** A fresh embedded store at revision 1, nothing compacted. *)
Definition st0 : store :=
  {| currentRev := {| main := 1; sub := 0 |}; compactMainRev := -1;
     b := []; changes := [] |}.

Definition kv (k v : string) (rev : Z) : KeyValue :=
  {| Key := k; CreateRevision := rev; ModRevision := rev; Version := 1;
     Value := Some v; Lease := 0 |}.

(** Modelled from the spec: a [Put] of the embedded store as the watch layer
    sees it.  The revision is "a strictly monotone 64-bit integer assigned by
    the store to every committed mutation", the mutation is stored under it,
    [getChanges] returns the one KV, and the call returns the new revision. *)
Definition store_put (k v : string) (st : store) : Z * store :=
  let rev := main (currentRev st) + 1 in
  (rev,
   {| currentRev := {| main := rev; sub := 0 |};
      compactMainRev := compactMainRev st;
      b := b st ++ [{| rkey := {| main := rev; sub := 0 |}; tombstone := false;
                       rval := Some (kv k v rev) |}];
      changes := [kv k v rev] |}).

(** Modelled from the spec: a compaction of the embedded store, which raises
    "the floor below which history has been discarded". *)
Definition store_compact (rev : Z) (st : store) : store :=
  {| currentRev := currentRev st; compactMainRev := rev;
     b := filter (λ r, rev ≤ main (rkey r)) (b st); changes := changes st |}.

(** Modelled from the spec: a [DeleteRange] of the embedded store that found
    the keys [ks], as the watch layer sees it.  It returns their number and
    the new revision, and [getChanges] returns one tombstone KV, of empty
    value, for each key. *)
Definition store_delete (ks : list string) (st : store) : Z * Z * store :=
  let rev := main (currentRev st) + 1 in
  let tombs := (λ k, {| Key := k; CreateRevision := 0; ModRevision := rev;
                        Version := 0; Value := None; Lease := 0 |}) <$> ks in
  (Z.of_nat (length ks), rev,
   {| currentRev := {| main := rev; sub := 0 |};
      compactMainRev := compactMainRev st;
      b := b st ++ ((λ c, {| rkey := {| main := rev; sub := 0 |};
                             tombstone := true; rval := Some c |}) <$> tombs);
      changes := tombs |}).

(** The store that a run of calls leaves, in the stored order of [range]. *)
Definition after (ops : list op) : watchableStore :=
  match @run stored_order ops (newWatchableStore st0) with
  | Done s => s
  | _ => newWatchableStore st0
  end.

Definition is_done {A} (o : outcome A) : bool :=
  match o with Done _ => true | _ => false end.

(** Modelled from the spec: a [TxnEnd] that the embedded store accepts, as
    the watch layer sees it.  The transaction commits at "the transaction's
    single commit revision", the next one, and [getChanges] returns the
    changes [chs] of the transaction. *)
Definition store_txn_end (chs : list KeyValue) (txnID : Z) (st : store)
  : option string * store :=
  (None,
   {| currentRev := {| main := main (currentRev st) + 1; sub := 0 |};
      compactMainRev := compactMainRev st; b := b st; changes := chs |}).

(** A stream and a watcher on the key ["k"], registered from now on. *)
Definition ops_stream_watch : list op :=
  [ONewWatchStream; OWatch "k" false 0 7 1%nat].

(** A channel of capacity one and a watcher on the key ["k"], registered
    from now on. *)
Definition ops_watch : list op :=
  [OMakeChan 1; OWatch "k" false 0 7 1%nat].

(** Two writes at revisions 2 and 3, then a watcher on ["k"] from revision
    2, then one turn of the sync loop. *)
Definition ops_catch_up : list op :=
  [OMakeChan 1; OPut (store_put "k" "a"); OPut (store_put "k" "b");
   OWatch "k" false 2 7 1%nat; OSync].

(** Eleven writes, a compaction at revision 10, then a watcher on ["k"] from
    revision 5. *)
Definition ops_compacted : list op :=
  replicate 11 (OPut (store_put "k" "v"))
  ++ [OStore (store_compact 10); OMakeChan 1; OWatch "k" false 5 7 1%nat].

(** The store in which [Put] calls the notifier: the watcher of [ops_watch]
    is registered and the embedded store has committed a write to ["k"] at
    revision 2. *)
Definition s_hot : watchableStore :=
  after (ops_watch ++ [OStore (λ st, (store_put "k" "v" st).2)]).

Definition evs_hot : list Event := [{| Typ := PUT; Kv := kv "k" "v" 2 |}].

(** A watcher on ["k"] and an open transaction. *)
Definition s_txn : watchableStore :=
  after (ops_watch ++ [OTxnBegin (λ st, (1, st))]).

(** The changes of a transaction that wrote ["k"] and ["b"] at revision 2. *)
Definition chs_txn : list KeyValue := [kv "k" "1" 2; kv "b" "2" 2].

(** Two writes at revisions 2 and 3, then a watcher on ["k"] from revision
    2. *)
Definition ops_behind : list op :=
  [OMakeChan 1; OPut (store_put "k" "a"); OPut (store_put "k" "b");
   OWatch "k" false 2 7 1%nat].

(** Writes to ["k"] and ["b"] at revisions 2 and 3; then four watchers on
    one channel: [1] on the key ["k"] and [2] on the empty prefix, both
    registered from now on and so in [synced]; [3] on the key ["k"] from
    revision 2 and [4] on the empty prefix from revision 3, both in
    [unsynced]. *)
Definition ops_mix : list op :=
  [OMakeChan 8; OPut (store_put "k" "a"); OPut (store_put "b" "x");
   OWatch "k" false 0 1 1%nat; OWatch "" true 0 2 1%nat;
   OWatch "k" false 2 3 1%nat; OWatch "" true 3 4 1%nat].

Definition s_mix : watchableStore := after ops_mix.

(** The store in which [Put] calls the notifier after a write to ["b"] at
    revision 4 in [s_mix]. *)
Definition s_mix_hot : watchableStore :=
  after (ops_mix ++ [OStore (λ st, (store_put "b" "y" st).2)]).

(** A write to ["b"] at revision 4, which the watcher on ["k"] does not
    match. *)
Definition evs_b : list Event := [{| Typ := PUT; Kv := kv "b" "y" 4 |}].

(** The two events of the rows that a sync pass of [s_mix] scans. *)
Definition ev_k2 : Event := {| Typ := PUT; Kv := kv "k" "a" 2 |}.
Definition ev_b3 : Event := {| Typ := PUT; Kv := kv "b" "x" 3 |}.

(** The tombstone that [store_delete] reports for a key at a revision. *)
Definition tomb (k : string) (rev : Z) : KeyValue :=
  {| Key := k; CreateRevision := 0; ModRevision := rev; Version := 0;
     Value := None; Lease := 0 |}.

(** ** Vocabulary of the further properties *)

(** The calls of the facade that end in the notifier. *)
Definition notifies (o : op) : bool :=
  match o with
  | OPut _ | ODeleteRange _ | OTxnEnd _ _ => true
  | _ => false
  end.

(** The calls of the facade that start with [s.mu.Lock()], besides the
    closure [cancel]. *)
Definition locks (o : op) : bool :=
  match o with
  | OWatch _ _ _ _ _ | OPut _ | ODeleteRange _ | OTxnBegin _ | OSync => true
  | _ => false
  end.

(** No bucket of [synced] is empty. *)
Definition no_empty_bucket (s : watchableStore) : Prop :=
  ∀ k wm, synced s !! k = Some wm → wm ≠ ∅.

(** The watcher is in one of the two partitions. *)
Definition registered_in (s : watchableStore) (w : ptr) : Prop :=
  w ∈ unsynced s ∨ ∃ k, member (synced s) k w.

(** A send on the channel finds no room: the buffer is at capacity, or the
    channel is [nil]. *)
Definition full (s : watchableStore) (c : chan) : Prop :=
  match chans s !! c with
  | Some q => (cap q ≤ length (buf q))%nat
  | None => True
  end.

(** The store of [ops_watch] after one write to ["k"]: the channel of the
    watcher, of capacity one, holds the response and has no room left. *)
Definition s_full : watchableStore :=
  after (ops_watch ++ [OPut (store_put "k" "1")]).

(** A stream with a watcher on ["a"] and a watcher on ["b"]. *)
Definition ops_two : list op :=
  [ONewWatchStream; OWatch "a" false 0 1 1%nat; OWatch "b" false 0 2 1%nat].

(** * Properties *)

(** ** Prefixes of a key *)

Lemma String_prefix_refl k : String.prefix k k = true.
Proof.
  induction k as [|c k IH]; simpl; [done|].
  destruct (Ascii.ascii_dec c c); [done|congruence].
Qed.

Lemma String_prefix_length p k :
  String.prefix p k = true → (String.length p ≤ String.length k)%nat.
Proof.
  revert p. induction k as [|c k IH]; intros [|a p]; simpl; try done; try lia.
  destruct (Ascii.ascii_dec a c); [|done]. intros Hp%IH. lia.
Qed.

Lemma String_prefix_same_length p k :
  String.prefix p k = true → String.length p = String.length k → p = k.
Proof.
  revert p. induction k as [|c k IH]; intros [|a p]; simpl; try done.
  destruct (Ascii.ascii_dec a c) as [->|]; [|done].
  intros Hp Hl. f_equal. apply IH; [done|lia].
Qed.

(** [key[:i]] is [p] exactly when [p] is a prefix of [key] of length [i]. *)
Lemma substring_prefix (k p : string) (i : nat) :
  (i ≤ String.length k)%nat →
  String.substring 0 i k = p ↔ String.prefix p k = true ∧ i = String.length p.
Proof.
  revert p i. induction k as [|c k IH]; intros p i Hi; simpl in Hi.
  - assert (i = 0%nat) as -> by lia. simpl.
    destruct p; simpl; split; try done; intros []; done.
  - destruct i as [|i]; simpl.
    + destruct p as [|a p]; simpl; split; try done. intros []; done.
    + destruct p as [|a p]; simpl.
      * split; [done|]. intros []; done.
      * destruct (Ascii.ascii_dec a c) as [->|Hne].
        -- specialize (IH p i ltac:(lia)). split.
           ++ intros [= Hs]. apply IH in Hs as [? ?]. split; [done|lia].
           ++ intros [Hp Hl]. f_equal. apply IH. split; [done|lia].
        -- split; [intros [= ? ?]; congruence | intros []; done].
Qed.

Lemma matches_empty_prefix (w : watcher) (e : Event) :
  key w = "" → prefix w = true → matches w e.
Proof. intros Hk Hp. right. rewrite Hk. split; [done|]. by destruct (Key (Kv e)). Qed.

(** ** Folds *)

Lemma filter_replicate {A} (P : A → Prop) `{∀ x, Decision (P x)} (n : nat) (x : A) :
  filter P (replicate n x) = if decide (P x) then replicate n x else [].
Proof.
  induction n as [|n IH]; simpl; [by destruct (decide (P x))|].
  rewrite filter_cons, IH. by destruct (decide (P x)).
Qed.

Lemma foldl_bind {A B C} (f : A → C → A) (g : B → list C) (a : A) (l : list B) :
  foldl f a (l ≫= g) = foldl (λ a x, foldl f a (g x)) a l.
Proof.
  revert a. induction l as [|x l IH]; intros a; [done|].
  simpl. rewrite foldl_app. apply IH.
Qed.

Lemma bind_pointwise {A B} (f g : A → list B) (l : list A) :
  (∀ x, f x = g x) → l ≫= f = l ≫= g.
Proof.
  intros Hfg. induction l as [|x l IH]; [done|].
  cbn [mbind list_bind]. rewrite Hfg. f_equal. apply IH.
Qed.

Lemma foldl_pointwise {A B} (f g : A → B → A) (a : A) (l : list B) :
  (∀ a x, f a x = g a x) → foldl f a l = foldl g a l.
Proof.
  intros Hfg. revert a. induction l as [|x l IH]; intros a; [done|].
  simpl. rewrite Hfg. apply IH.
Qed.

(** An invariant of a loop that keeps going. *)
Lemma foldl_invariant {A B} (P : A → Prop) (f : A → B → A) (l : list B) (a : A) :
  P a → (∀ a x, x ∈ l → P a → P (f a x)) → P (foldl f a l).
Proof.
  revert a. induction l as [|x l IH]; intros a Ha Hf; [done|].
  simpl. apply IH.
  - apply Hf; [left|done].
  - intros a' y Hy. apply Hf. by right.
Qed.

(** An invariant of a loop that may end the process, over the elements seen
    so far. *)
Lemma foldlM_invariant_seen {A B} (P : list B → A → Prop)
    (f : A → B → outcome A) (l : list B) (a a' : A) :
  P [] a →
  (∀ l1 x a a', x ∈ l → P l1 a → f a x = Done a' → P (l1 ++ [x]) a') →
  foldlM f a l = Done a' → P l a'.
Proof.
  intros Ha Hf.
  enough (∀ l2 l1 a, (∀ x, x ∈ l2 → x ∈ l) → P l1 a →
            foldlM f a l2 = Done a' → P (l1 ++ l2) a') as Hgen
    by (apply (Hgen l [] a); done).
  induction l2 as [|x l2 IH]; intros l1 a0 Hsub Ha0; simpl.
  - intros [= <-]. by rewrite app_nil_r.
  - destruct (f a0 x) as [a1| |] eqn:Hfa; simpl; try done.
    intros Hrest. rewrite cons_middle, app_assoc. apply (IH _ a1).
    + intros y Hy. apply Hsub. by right.
    + eapply Hf; [apply Hsub; left|done|done].
    + done.
Qed.

(** An invariant of a loop that may end the process. *)
Lemma foldlM_invariant {A B} (P : A → Prop) (f : A → B → outcome A)
    (l : list B) (a a' : A) :
  P a → (∀ a x a', x ∈ l → P a → f a x = Done a' → P a') →
  foldlM f a l = Done a' → P a'.
Proof.
  revert a. induction l as [|x l IH]; intros a Ha Hf; simpl.
  - by intros [= <-].
  - destruct (f a x) as [a1| |] eqn:Hfa; simpl; try done.
    apply IH.
    + eapply Hf; [left|done|done].
    + intros b y b' Hy. apply Hf. by right.
Qed.

Section Properties.
Context `{GoRange}.

(** ** [range] *)

Lemma range_set_elem (X : gset ptr) (w : ptr) : w ∈ range_set X ↔ w ∈ X.
Proof. unfold range_set. rewrite shuffle_perm. apply elem_of_elements. Qed.

Lemma range_set_NoDup (X : gset ptr) : NoDup (range_set X).
Proof. unfold range_set. rewrite shuffle_perm. apply NoDup_elements. Qed.

Lemma range_strings_elem (X : gset string) (k : string) :
  k ∈ range_strings X ↔ k ∈ X.
Proof. unfold range_strings. rewrite shuffle_perm. apply elem_of_elements. Qed.

Lemma range_map_elem {V} (m : gmap string V) (k : string) (v : V) :
  (k, v) ∈ range_map m ↔ m !! k = Some v.
Proof. unfold range_map. rewrite shuffle_perm. apply elem_of_map_to_list. Qed.

Lemma range_map_NoDup {V} (m : gmap string V) : NoDup (range_map m).*1.
Proof. unfold range_map. rewrite shuffle_perm. apply NoDup_fst_map_to_list. Qed.

Lemma range_events_elem (m : gmap ptr (list Event)) (w : ptr) (es : list Event) :
  (w, es) ∈ range_events m ↔ m !! w = Some es.
Proof. unfold range_events. rewrite shuffle_perm. apply elem_of_map_to_list. Qed.

Lemma range_events_NoDup (m : gmap ptr (list Event)) : NoDup (range_events m).*1.
Proof. unfold range_events. rewrite shuffle_perm. apply NoDup_fst_map_to_list. Qed.

End Properties.

Section FanOut.
Context `{GoRange}.

Implicit Types (h : gmap ptr watcher) (sm : gmap string (gset ptr)).
Implicit Types (m : gmap ptr (list Event)) (w : ptr) (ev : Event).

Lemma evlist_lookup m w :
  no_empty m → m !! w = match evlist m w with [] => None | es => Some es end.
Proof.
  intros Hne. unfold evlist. destruct (m !! w) as [es|] eqn:Hm; simpl; [|done].
  apply Hne in Hm. by destruct es.
Qed.

Lemma addEventTo_evlist h ev i m w' w :
  evlist (addEventTo h ev i m w') w =
  evlist m w ++
    (if decide (w = w' ∧ (prefix (h !!! w')
                          || bool_decide (i = String.length (Key (Kv ev)))) = true)
     then [ev] else []).
Proof.
  unfold addEventTo, evlist.
  destruct (prefix (h !!! w') || bool_decide _) eqn:Hc.
  - replace (negb (prefix (h !!! w')) && negb (bool_decide (i = String.length (Key (Kv ev)))))
      with false by (rewrite <-negb_orb, Hc; done).
    destruct (decide (w = w')) as [->|Hne].
    + rewrite lookup_insert_eq, decide_True by done. done.
    + rewrite lookup_insert_ne by done.
      rewrite decide_False by (intros [? _]; done). by rewrite app_nil_r.
  - replace (negb (prefix (h !!! w')) && negb (bool_decide (i = String.length (Key (Kv ev)))))
      with true by (rewrite <-negb_orb, Hc; done).
    rewrite decide_False by (intros [_ ?]; done). by rewrite app_nil_r.
Qed.

Lemma addEventTo_no_empty h ev i m w' :
  no_empty m → no_empty (addEventTo h ev i m w').
Proof.
  intros Hne w es. unfold addEventTo.
  destruct (negb _ && negb _); [apply Hne|].
  destruct (decide (w = w')) as [->|Hw].
  - rewrite lookup_insert_eq. intros [= <-]. by destruct (default [] (m !! w')).
  - rewrite lookup_insert_ne by done. apply Hne.
Qed.

Lemma addEventTo_loop_evlist h ev i (l : list ptr) m w :
  NoDup l →
  evlist (foldl (addEventTo h ev i) m l) w =
  evlist m w ++
    (if decide (w ∈ l ∧ (prefix (h !!! w)
                         || bool_decide (i = String.length (Key (Kv ev)))) = true)
     then [ev] else []).
Proof.
  intros Hnd. revert m. induction Hnd as [|w' l Hw' Hnd IH]; intros m.
  - rewrite decide_False; [by rewrite app_nil_r|]. intros [[]%elem_of_nil _].
  - cbn [foldl]. rewrite IH, addEventTo_evlist, <-app_assoc. f_equal.
    destruct (decide (w = w')) as [->|Hne].
    + destruct (prefix (h !!! w') || _) eqn:Hc.
      * rewrite decide_True by done.
        rewrite decide_False by (intros [? _]; done).
        rewrite decide_True; [done|]. split; [left|done].
      * rewrite !decide_False; [done|intros [_ ?]; done ..].
    + rewrite (decide_False (P := w = w' ∧ _)) by (intros [? _]; done).
      cbn [app]. apply decide_ext. rewrite elem_of_cons. intuition congruence.
Qed.

Lemma addEventAt_evlist h sm ev m i w :
  evlist (addEventAt h sm ev m i) w =
  evlist m w ++ (if visits h sm ev w i then [ev] else []).
Proof.
  unfold addEventAt, visits.
  destruct (sm !! _) as [wm|]; [|by rewrite app_nil_r].
  rewrite addEventTo_loop_evlist by apply range_set_NoDup. f_equal.
  case_decide as Hd.
  - destruct Hd as [Hw%range_set_elem ->]. by rewrite bool_decide_eq_true_2.
  - destruct (bool_decide (w ∈ wm)) eqn:Hb; [|done]. simpl.
    apply bool_decide_eq_true in Hb.
    destruct (prefix (h !!! w) || _) eqn:Hc; [|done].
    destruct Hd. split; [by apply range_set_elem|done].
Qed.

Lemma addEventAt_loop_evlist h sm ev (l : list nat) m w :
  evlist (foldl (addEventAt h sm ev) m l) w =
  evlist m w ++ replicate (length (filter (λ i, visits h sm ev w i = true) l)) ev.
Proof.
  revert m. induction l as [|i l IH]; intros m; simpl.
  - by rewrite app_nil_r.
  - rewrite IH, addEventAt_evlist, <-app_assoc. f_equal.
    rewrite filter_cons. by destruct (visits h sm ev w i).
Qed.

Lemma addEvent_evlist h sm m ev w :
  evlist (addEvent h sm m ev) w = evlist m w ++ replicate (hits h sm ev w) ev.
Proof. apply addEventAt_loop_evlist. Qed.

Lemma addEvent_no_empty h sm m ev : no_empty m → no_empty (addEvent h sm m ev).
Proof.
  intros Hm. unfold addEvent. apply (foldl_invariant no_empty); [done|].
  intros m' i _ Hm'. unfold addEventAt. destruct (sm !! _); [|done].
  apply (foldl_invariant no_empty); [done|].
  intros m'' w' _. apply addEventTo_no_empty.
Qed.

Lemma addEvent_loop_evlist h sm (evs : list Event) m w :
  evlist (foldl (addEvent h sm) m evs) w =
  evlist m w ++ (evs ≫= λ ev, replicate (hits h sm ev w) ev).
Proof.
  revert m. induction evs as [|ev evs IH]; intros m; simpl.
  - by rewrite app_nil_r.
  - by rewrite IH, addEvent_evlist, <-app_assoc.
Qed.

Lemma newWatcherToEventMap_evlist h sm evs w :
  evlist (newWatcherToEventMap h sm evs) w =
  evs ≫= λ ev, replicate (hits h sm ev w) ev.
Proof. unfold newWatcherToEventMap. by rewrite addEvent_loop_evlist. Qed.

Lemma newWatcherToEventMap_no_empty h sm evs :
  no_empty (newWatcherToEventMap h sm evs).
Proof.
  unfold newWatcherToEventMap. apply (foldl_invariant no_empty).
  - intros w es. by rewrite lookup_empty.
  - intros m ev _. apply addEvent_no_empty.
Qed.

End FanOut.

Section Matching.
Context `{GoRange}.

Implicit Types (h : gmap ptr watcher) (sm : gmap string (gset ptr)).
Implicit Types (m : gmap ptr (list Event)) (w : ptr) (ev : Event).

Lemma visits_member h sm ev w i :
  visits h sm ev w i = true ↔
  member sm (String.substring 0 i (Key (Kv ev))) w
  ∧ (prefix (h !!! w) = true ∨ i = String.length (Key (Kv ev))).
Proof.
  unfold visits, member. destruct (sm !! _) as [wm|].
  - rewrite andb_true_iff, orb_true_iff, !bool_decide_eq_true. split.
    + intros [? ?]. eauto.
    + intros [(wm' & [= <-] & ?) ?]. done.
  - split; [done|]. intros [(? & ? & _) _]. done.
Qed.

Lemma visits_registered h sm ev w i :
  registered h sm w → (i ≤ String.length (Key (Kv ev)))%nat →
  visits h sm ev w i = true ↔
  i = String.length (key (h !!! w)) ∧ matches (h !!! w) ev.
Proof.
  intros [Hin Honly] Hi. rewrite visits_member. split.
  - intros [Hm Hc]. apply Honly in Hm.
    apply substring_prefix in Hm as [Hp Hl]; [|done]. split; [done|].
    destruct Hc as [Hc|Hc]; [by right|]. left.
    apply String_prefix_same_length; [done|congruence].
  - intros [-> [Hk|[Hp Hk]]].
    + rewrite Hk. split; [|by right].
      replace (String.substring 0 _ _) with (Key (Kv ev)); [by rewrite <-Hk|].
      symmetry. apply substring_prefix; [done|]. split; [apply String_prefix_refl|done].
    + split; [|by left].
      replace (String.substring 0 _ _) with (key (h !!! w)); [done|].
      symmetry. apply substring_prefix; [by apply String_prefix_length|done].
Qed.

Lemma NoDup_all_equal {A} (l : list A) (j : A) :
  NoDup l → (∀ x, x ∈ l → x = j) → l = [] ∨ l = [j].
Proof.
  intros Hnd Hall. destruct l as [|x [|y l]]; [by left| |].
  - right. f_equal. apply Hall. left.
  - exfalso. apply NoDup_cons in Hnd as [Hx _]. apply Hx.
    rewrite (Hall x), (Hall y); [left|right; left|left].
Qed.

Lemma hits_registered h sm ev w :
  registered h sm w →
  hits h sm ev w = if decide (matches (h !!! w) ev) then 1%nat else 0%nat.
Proof.
  intros Hreg. unfold hits.
  set (n := String.length (Key (Kv ev))).
  set (l := filter _ _).
  assert (∀ i, i ∈ l ↔ (i ≤ n)%nat ∧ i = String.length (key (h !!! w))
                       ∧ matches (h !!! w) ev) as Hl.
  { intros i. unfold l. rewrite list_elem_of_filter, elem_of_seq. split.
    - intros [Hv Hi]. split; [lia|]. apply visits_registered in Hv; [done|done|lia].
    - intros (Hi & Hv). split; [|lia]. apply visits_registered; done. }
  destruct (NoDup_all_equal l (String.length (key (h !!! w)))) as [Hnil|Hone].
  - apply NoDup_filter, NoDup_seq.
  - intros i Hi%Hl. tauto.
  - rewrite Hnil. case_decide as Hm; [|done]. exfalso.
    assert (String.length (key (h !!! w)) ∈ l) as Hin; [|rewrite Hnil in Hin; by apply elem_of_nil in Hin].
    apply Hl. split_and!; [|done|done].
    destruct Hm as [->|[_ Hp]]; [done|]. by apply String_prefix_length.
  - rewrite Hone. rewrite decide_True; [done|].
    assert (String.length (key (h !!! w)) ∈ l) as Hin%Hl by (rewrite Hone; left). tauto.
Qed.

Lemma hits_not_member h sm ev w : (∀ k, ¬ member sm k w) → hits h sm ev w = 0%nat.
Proof.
  intros Hno. unfold hits.
  destruct (filter _ _) as [|i l] eqn:Hf; [done|].
  assert (i ∈ filter (λ i, visits h sm ev w i = true)
               (seq 0 (S (String.length (Key (Kv ev)))))) as Hi by (rewrite Hf; left).
  apply list_elem_of_filter in Hi as [[Hm _]%visits_member _]. by apply Hno in Hm.
Qed.

Lemma bind_replicate_filter {A} (P : A → Prop) `{∀ x, Decision (P x)} (l : list A) :
  (l ≫= λ x, replicate (if decide (P x) then 1%nat else 0%nat) x) = filter P l.
Proof.
  induction l as [|x l IH]; [done|].
  cbn [mbind list_bind]. rewrite filter_cons. change (mbind ?f l) with (l ≫= f) in IH.
  destruct (decide (P x)); simpl; by rewrite <-IH.
Qed.

(** What [newWatcherToEventMap] records for a watcher of the registry: its
    matching events, in the order of the event list. *)
Lemma newWatcherToEventMap_registered h sm evs w :
  registered h sm w →
  evlist (newWatcherToEventMap h sm evs) w = filter (matches (h !!! w)) evs.
Proof.
  intros Hreg. rewrite newWatcherToEventMap_evlist, <-bind_replicate_filter.
  apply bind_pointwise. intros ev. by rewrite hits_registered.
Qed.

Lemma newWatcherToEventMap_not_member h sm evs w :
  (∀ k, ¬ member sm k w) → newWatcherToEventMap h sm evs !! w = None.
Proof.
  intros Hno. rewrite evlist_lookup by apply newWatcherToEventMap_no_empty.
  rewrite newWatcherToEventMap_evlist.
  rewrite (bind_pointwise _ (λ _, [])).
  - by induction evs.
  - intros ev. by rewrite hits_not_member.
Qed.

Lemma newWatcherToEventMap_lookup h sm evs w :
  registered h sm w →
  newWatcherToEventMap h sm evs !! w =
  match filter (matches (h !!! w)) evs with [] => None | es => Some es end.
Proof.
  intros Hreg. rewrite evlist_lookup by apply newWatcherToEventMap_no_empty.
  by rewrite newWatcherToEventMap_registered.
Qed.

Lemma wf_registered s k w :
  wf s → member (synced s) k w →
  registered (watchers s) (synced s) w ∧ key (deref s w) = k.
Proof.
  intros Hwf Hm. destruct (wf_synced s Hwf k w Hm) as (wr & Hwr & Hk).
  assert (deref s w = wr) as Hd by (by apply lookup_total_correct).
  unfold registered. fold (deref s w). rewrite Hd, Hk. split_and!; [done| |done].
  intros k' Hm'. destruct (wf_synced s Hwf k' w Hm') as (wr' & Hwr' & Hk'). congruence.
Qed.

End Matching.

(** ** The notifier, one watcher at a time *)

Section Notify.
Context `{GoRange}.

Implicit Types (s : watchableStore) (w : ptr) (k : string).
Implicit Types (we : gmap ptr (list Event)).

Lemma same_view_refl s w : same_view s s w.
Proof. by split. Qed.

Lemma same_view_trans s1 s2 s3 w :
  same_view s1 s2 w → same_view s2 s3 w → same_view s1 s3 w.
Proof.
  intros [Ha Hb Hc Hd] [Ha' Hb' Hc' Hd']. split.
  - congruence.
  - by rewrite Hb'.
  - intros k. by rewrite Hc'.
  - congruence.
Qed.

Lemma same_view_deref s s' w : same_view s s' w → deref s' w = deref s w.
Proof. intros [Hw _ _ _]. unfold deref. by rewrite !lookup_total_alt, Hw. Qed.

Lemma sent_to_app s w (l : list (ptr * WatchResponse)) :
  (filter (λ p, p.1 = w) (sent s ++ l)).*2 =
  sent_to s w ++ (filter (λ p, p.1 = w) l).*2.
Proof. unfold sent_to. by rewrite filter_app, fmap_app. Qed.

Lemma member_alter_difference (sm : gmap string (gset ptr)) k w k' w' :
  member (alter (λ wm, wm ∖ {[w]}) k sm) k' w' ↔
  member sm k' w' ∧ ¬ (k' = k ∧ w' = w).
Proof.
  unfold member. destruct (decide (k' = k)) as [->|Hk].
  - rewrite lookup_alter_eq. destruct (sm !! k) as [wm|]; simpl.
    + split.
      * intros (wm' & [= <-] & Hin). apply elem_of_difference in Hin as [? Hne].
        split; [eauto|]. intros [_ ->]. apply Hne. by apply elem_of_singleton.
      * intros [(wm' & [= <-] & Hin) Hne]. eexists. split; [done|].
        apply elem_of_difference. split; [done|].
        intros ->%elem_of_singleton. by apply Hne.
    + split; [intros (? & ? & _); done|intros [(? & ? & _) _]; done].
  - rewrite lookup_alter_ne by done. split; [|tauto].
    intros Hm. split; [done|]. intros [? _]. done.
Qed.

(** What a successful send changes. *)
Lemma trySend_Some w c r s s' :
  trySend w c r s = Some s' →
  ∃ q, chans s !! c = Some q ∧ (length (buf q) < cap q)%nat
       ∧ s' = set_sent (sent s ++ [(w, r)])
                (set_chans (<[c := {| cap := cap q; buf := buf q ++ [r] |}]>
                              (chans s)) s).
Proof.
  unfold trySend. destruct (chans s !! c) as [q|]; [|done].
  case_decide; [|done]. intros [= <-]. eauto.
Qed.

Lemma notify_watcher_cases rev we k s w :
  match we !! w with
  | None => notify_watcher rev we k s w = s
  | Some es => delivered s (notify_watcher rev we k s w) w es
               ∨ demoted s (notify_watcher rev we k s w) w k rev
  end.
Proof.
  unfold notify_watcher. destruct (we !! w) as [es|]; [|done].
  destruct (trySend _ _ _ s) as [s'|] eqn:Hsend.
  - left. apply trySend_Some in Hsend as (q & _ & _ & ->). by repeat split.
  - right. by repeat split.
Qed.

Lemma delivered_other s s' w es w' : delivered s s' w es → w' ≠ w → same_view s s' w'.
Proof.
  intros (_ & _ & Hw & Hu & Hs & Hsent) Hne. split.
  - by rewrite Hw.
  - by rewrite Hu.
  - intros k'. by rewrite Hs.
  - unfold sent_to at 1. rewrite Hsent, sent_to_app.
    rewrite filter_cons, decide_False by (simpl; congruence).
    by rewrite app_nil_r.
Qed.

Lemma demoted_other s s' w k rev w' : demoted s s' w k rev → w' ≠ w → same_view s s' w'.
Proof.
  intros (_ & _ & _ & Hsent & Hw & Hu & Hs) Hne. split.
  - rewrite Hw. by apply lookup_insert_ne.
  - rewrite Hu, elem_of_union, elem_of_singleton. split; [intros [?|?]; done|tauto].
  - intros k'. rewrite Hs, member_alter_difference. split; [tauto|].
    intros Hm. split; [done|]. intros [_ ?]. done.
  - unfold sent_to. by rewrite Hsent.
Qed.

(** A turn for one watcher leaves every other watcher as it was. *)
Lemma notify_watcher_other rev we k s w w' :
  w' ≠ w → same_view s (notify_watcher rev we k s w) w'.
Proof.
  intros Hne. pose proof (notify_watcher_cases rev we k s w) as Hc.
  destruct (we !! w) as [es|].
  - destruct Hc as [Hc|Hc]; [by eapply delivered_other|by eapply demoted_other].
  - rewrite Hc. apply same_view_refl.
Qed.

Lemma notify_watcher_store rev we k s w :
  store_ (notify_watcher rev we k s w) = store_ s
  ∧ mu (notify_watcher rev we k s w) = mu s.
Proof.
  pose proof (notify_watcher_cases rev we k s w) as Hc.
  destruct (we !! w) as [es|].
  - destruct Hc as [Hc|Hc]; unfold delivered, demoted in Hc; tauto.
  - by rewrite Hc.
Qed.

End Notify.

(** ** The notifier, the whole loop *)

Section NotifyLoop.
Context `{GoRange}.

Implicit Types (s : watchableStore) (w : ptr) (k : string).
Implicit Types (we : gmap ptr (list Event)).

Lemma notify_turns rev evs s :
  notify rev evs s =
  foldl (notify_turn rev (newWatcherToEventMap (watchers s) (synced s) evs)) s
        (turns (synced s)).
Proof.
  unfold notify, turns. rewrite foldl_bind. apply foldl_pointwise.
  intros s' [k wm]. unfold notify_bucket. by rewrite foldl_fmap.
Qed.

Lemma turns_elem sm k w : (k, w) ∈ turns sm ↔ member sm k w.
Proof.
  unfold turns, member. rewrite list_elem_of_bind. split.
  - intros ([k' wm] & Hin & Hm). apply list_elem_of_fmap in Hin as (w' & [= -> ->] & Hw).
    apply range_map_elem in Hm. apply range_set_elem in Hw. eauto.
  - intros (wm & Hm & Hw). exists (k, wm). split.
    + apply list_elem_of_fmap. exists w. split; [done|]. by apply range_set_elem.
    + by apply range_map_elem.
Qed.

Lemma turns_snd (l : list (string * gset ptr)) :
  (l ≫= λ kwm, (λ w, (kwm.1, w)) <$> range_set kwm.2).*2 =
  l ≫= λ kwm, range_set kwm.2.
Proof.
  induction l as [|[k wm] l IH]; [done|].
  cbn [mbind list_bind]. rewrite fmap_app. f_equal; [|apply IH].
  rewrite <-list_fmap_compose. simpl. apply list_fmap_id.
Qed.

(** In a registry that stores every watcher under one key, no watcher has
    two turns. *)
Lemma turns_NoDup sm :
  (∀ k k' w, member sm k w → member sm k' w → k = k') → NoDup (turns sm).*2.
Proof.
  intros Hone. unfold turns. rewrite turns_snd. apply NoDup_bind.
  - intros [k1 wm1] [k2 wm2] w Hm1 Hm2 Hw1 Hw2. simpl in *.
    apply range_map_elem in Hm1. apply range_map_elem in Hm2.
    apply range_set_elem in Hw1. apply range_set_elem in Hw2.
    assert (k1 = k2) as -> by (eapply Hone; eexists; eauto).
    congruence.
  - intros [k wm] _. apply range_set_NoDup.
  - eapply NoDup_fmap_1. apply range_map_NoDup.
Qed.

(** The loop, seen from one watcher: a watcher without a turn is left as it
    was; a watcher with a turn is as it was when its turn comes, and as its
    turn leaves it when the loop ends. *)
Lemma notify_loop_view rev we (l : list (string * ptr)) s :
  NoDup l.*2 →
  (∀ w, w ∉ l.*2 → same_view s (foldl (notify_turn rev we) s l) w)
  ∧ (∀ k w, (k, w) ∈ l →
       ∃ s1, same_view s s1 w ∧ store_ s1 = store_ s
             ∧ same_view (notify_watcher rev we k s1 w)
                         (foldl (notify_turn rev we) s l) w).
Proof.
  revert s. induction l as [|[k0 w0] l IH]; intros s Hnd.
  - split; [intros; apply same_view_refl|]. intros k w []%elem_of_nil.
  - cbn [fmap list_fmap] in Hnd. apply NoDup_cons in Hnd as [Hw0 Hnd].
    cbn [foldl]. unfold notify_turn at 2 4. cbn [fst snd].
    set (s0 := notify_watcher rev we k0 s w0).
    destruct (IH s0 Hnd) as [IHa IHb]. split.
    + intros w Hw. cbn [fmap list_fmap] in Hw.
      apply not_elem_of_cons in Hw as [Hne Hw].
      eapply same_view_trans; [by apply notify_watcher_other|by apply IHa].
    + intros k w [[= -> ->]|Hin]%elem_of_cons.
      * exists s. split_and!; [apply same_view_refl|done|by apply IHa].
      * assert (w ≠ w0) as Hne.
        { intros ->. apply Hw0. apply list_elem_of_fmap. by exists (k, w0). }
        destruct (IHb k w Hin) as (s1 & Hv & Hst & Hv').
        exists s1. split_and!; [|by rewrite Hst; apply notify_watcher_store|done].
        eapply same_view_trans; [by apply notify_watcher_other|done].
Qed.

(** Parts of the store that no turn changes. *)
Lemma notify_loop_store rev we (l : list (string * ptr)) s :
  store_ (foldl (notify_turn rev we) s l) = store_ s
  ∧ mu (foldl (notify_turn rev we) s l) = mu s.
Proof.
  apply (foldl_invariant (λ s', store_ s' = store_ s ∧ mu s' = mu s)); [done|].
  intros s' kw _ [<- <-]. apply notify_watcher_store.
Qed.

Lemma notify_store rev evs s :
  store_ (notify rev evs s) = store_ s ∧ mu (notify rev evs s) = mu s.
Proof. rewrite notify_turns. apply notify_loop_store. Qed.

(** The notifier removes no key of [synced], whatever it takes out of the
    buckets. *)
Lemma notify_dom rev evs s : dom (synced (notify rev evs s)) = dom (synced s).
Proof.
  rewrite notify_turns. set (we := newWatcherToEventMap _ _ _).
  apply (foldl_invariant (λ s', dom (synced s') = dom (synced s))); [done|].
  intros s1 [k w] _ <-. unfold notify_turn. simpl.
  pose proof (notify_watcher_cases rev we k s1 w) as Hc.
  destruct (we !! w) as [es|]; [|by rewrite Hc].
  destruct Hc as [(_ & _ & _ & _ & -> & _)|(_ & _ & _ & _ & _ & _ & ->)]; [done|].
  apply dom_alter_L.
Qed.

End NotifyLoop.

Section NotifyFate.
Context `{GoRange}.

Implicit Types (s : watchableStore) (w : ptr) (k : string).

Lemma served_view s1 s2 s3 s4 w r :
  same_view s1 s2 w → served s2 s3 w r → same_view s3 s4 w → served s1 s4 w r.
Proof.
  intros [Ha Hb Hc Hd] (Ha' & Hb' & Hc' & Hd') [Ha'' Hb'' Hc'' Hd''].
  split_and!.
  - congruence.
  - congruence.
  - by rewrite Hb'', Hc'.
  - intros k'. by rewrite Hc'', Hd'.
Qed.

Lemma moved_view s1 s2 s3 s4 w k rev :
  same_view s1 s2 w → moved s2 s3 w k rev → same_view s3 s4 w →
  moved s1 s4 w k rev.
Proof.
  intros Hv (Ha' & Hb' & Hc' & Hd') [Ha'' Hb'' Hc'' Hd''].
  pose proof (same_view_deref _ _ _ Hv) as Hderef.
  destruct Hv as [Ha Hb Hc Hd]. split_and!.
  - congruence.
  - rewrite Ha'', Hb'. by rewrite Hderef.
  - by apply Hb''.
  - intros k'. by rewrite Hc'', Hd', Hc.
Qed.

Lemma delivered_served s s' w es : delivered s s' w es → served s s' w (response s w es).
Proof.
  intros (_ & _ & Hw & Hu & Hs & Hsent). split_and!.
  - unfold sent_to at 1. rewrite Hsent, sent_to_app.
    by rewrite filter_cons, decide_True.
  - by rewrite Hw.
  - by rewrite Hu.
  - intros k'. by rewrite Hs.
Qed.

Lemma demoted_moved s s' w k rev : demoted s s' w k rev → moved s s' w k rev.
Proof.
  intros (_ & _ & _ & Hsent & Hw & Hu & Hs). split_and!.
  - unfold sent_to. by rewrite Hsent.
  - rewrite Hw. apply lookup_insert_eq.
  - rewrite Hu. apply elem_of_union_l. by apply elem_of_singleton.
  - intros k'. rewrite Hs, member_alter_difference. split.
    + intros [Hm Hne]. split; [done|]. intros ->. by apply Hne.
    + intros [Hm Hne]. split; [done|]. intros [? _]. done.
Qed.

(** The notifier, seen from one watcher. *)
Lemma notify_view rev evs s w :
  (∀ k k' w, member (synced s) k w → member (synced s) k' w → k = k') →
  (∀ k, member (synced s) k w →
     match newWatcherToEventMap (watchers s) (synced s) evs !! w with
     | None => same_view s (notify rev evs s) w
     | Some es => served s (notify rev evs s) w (response s w es)
                  ∨ moved s (notify rev evs s) w k rev
     end)
  ∧ ((∀ k, ¬ member (synced s) k w) → same_view s (notify rev evs s) w).
Proof.
  intros Hone. rewrite notify_turns.
  set (we := newWatcherToEventMap _ _ _).
  destruct (notify_loop_view rev we (turns (synced s)) s) as [Ha Hb];
    [by apply turns_NoDup|].
  split.
  - intros k Hm. apply turns_elem in Hm.
    destruct (Hb k w Hm) as (s1 & Hv1 & Hst & Hv2).
    pose proof (notify_watcher_cases rev we k s1 w) as Hc.
    destruct (we !! w) as [es|].
    + replace (response s w es) with (response s1 w es)
        by (unfold response; by rewrite (same_view_deref _ _ _ Hv1), Hst).
      destruct Hc as [Hc|Hc].
      * left. eapply served_view; [done|by apply delivered_served|done].
      * right. eapply moved_view; [done|by apply demoted_moved|done].
    + rewrite Hc in Hv2. by eapply same_view_trans.
  - intros Hno. apply Ha. intros (kw & -> & Hin)%list_elem_of_fmap.
    destruct kw as [k w']. apply turns_elem in Hin. by apply (Hno k).
Qed.

Lemma wf_one_key s k k' w :
  wf s → member (synced s) k w → member (synced s) k' w → k = k'.
Proof.
  intros Hwf Hm Hm'.
  destruct (wf_synced s Hwf k w Hm) as (wr & Hwr & <-).
  destruct (wf_synced s Hwf k' w Hm') as (wr' & Hwr' & <-). congruence.
Qed.

End NotifyFate.

(** ** The registry invariant *)

Section Invariant.
Context `{GoRange}.

Implicit Types (s : watchableStore) (w : ptr) (k : string).

Lemma wf_wf_at s : wf s ↔ ∀ w, wf_at s w.
Proof.
  split.
  - intros [Hs Hu Hn] w. split_and!; [by intros k; apply Hs|apply Hu|by intros ->].
  - intros Hat. split.
    + intros k w. apply (Hat w).
    + intros w. apply (Hat w).
    + by apply (Hat nil).
Qed.

Lemma same_view_wf_at s s' w : same_view s s' w → wf_at s w → wf_at s' w.
Proof.
  intros [Hw Hu Hs _] (Ha & Hb & Hc). split_and!.
  - intros k Hm%Hs. rewrite Hw. by apply Ha.
  - intros Hin%Hu. destruct (Hb Hin) as [? Hno]. rewrite Hw. split; [done|].
    intros k Hm%Hs. by apply (Hno k).
  - intros Hn. rewrite Hw. by apply Hc.
Qed.

Lemma served_wf_at s s' w r : served s s' w r → wf_at s w → wf_at s' w.
Proof.
  intros (_ & Hw & Hu & Hs) (Ha & Hb & Hc). split_and!.
  - intros k Hm%Hs. rewrite Hw. by apply Ha.
  - intros Hin%Hu. destruct (Hb Hin) as [? Hno]. rewrite Hw. split; [done|].
    intros k Hm%Hs. by apply (Hno k).
  - intros Hn. rewrite Hw. by apply Hc.
Qed.

Lemma moved_wf_at s s' w k rev :
  moved s s' w k rev → member (synced s) k w → wf_at s w → wf_at s' w.
Proof.
  intros (_ & Hw & Hu & Hs) Hm (Ha & Hb & Hc).
  assert (∀ k', ¬ member (synced s') k' w) as Hno.
  { intros k' [Hm' Hne]%Hs. apply Hne.
    destruct (Ha k Hm) as (wr & Hwr & <-).
    destruct (Ha k' Hm') as (wr' & Hwr' & <-). congruence. }
  split_and!.
  - intros k' Hm'. by apply Hno in Hm'.
  - intros _. rewrite Hw. split; [by eexists|done].
  - intros ->. destruct (Ha k Hm) as (wr & Hwr & _).
    rewrite Hc in Hwr; done.
Qed.

(** The notifier keeps the registry invariant. *)
Lemma notify_wf rev evs s : wf s → wf (notify rev evs s).
Proof.
  intros Hwf. apply wf_wf_at. intros w.
  pose proof (proj1 (wf_wf_at s) Hwf w) as Hat.
  destruct (notify_view rev evs s w) as [Hin Hout];
    [intros ???; by apply wf_one_key|].
  destruct (decide (member (synced s) (key (deref s w)) w)) as [Hm|Hno].
  - specialize (Hin _ Hm). destruct (newWatcherToEventMap _ _ _ !! w).
    + destruct Hin as [Hs|Hmv];
        [by eapply served_wf_at|by eapply moved_wf_at].
    + by eapply same_view_wf_at.
  - eapply same_view_wf_at; [|done]. apply Hout. intros k Hm. apply Hno.
    by destruct (wf_registered s k w Hwf Hm) as [_ ->].
Qed.

End Invariant.

Section InvariantOps.
Context `{GoRange}.

Implicit Types (s : watchableStore) (w : ptr) (k : string).

Lemma wf_same_registry s s' :
  synced s' = synced s → unsynced s' = unsynced s → watchers s' = watchers s →
  wf s → wf s'.
Proof.
  intros Hs Hu Hw [Ha Hb Hc]. split.
  - intros k w. rewrite Hs, Hw. apply Ha.
  - intros w. rewrite Hs, Hu, Hw. apply Hb.
  - by rewrite Hw.
Qed.

Lemma wf_shrink s s' :
  watchers s' = watchers s → unsynced s' ⊆ unsynced s →
  (∀ k w, member (synced s') k w → member (synced s) k w) →
  wf s → wf s'.
Proof.
  intros Hw Hu Hs [Ha Hb Hc]. split.
  - intros k w Hm%Hs. rewrite Hw. by apply Ha.
  - intros w Hin. destruct (Hb w) as [? Hno]; [by apply Hu|].
    rewrite Hw. split; [done|]. intros k Hm%Hs. by apply (Hno k).
  - by rewrite Hw.
Qed.

Lemma newWatchableStore_wf st : wf (newWatchableStore st).
Proof.
  split; simpl.
  - intros k w (wm & Hwm & _). by rewrite lookup_empty in Hwm.
  - intros w Hin. by apply not_elem_of_empty in Hin.
  - apply lookup_empty.
Qed.

Lemma member_insert (sm : gmap string (gset ptr)) k (v : gset ptr) k' w :
  member (<[k := v]> sm) k' w ↔
  (k' = k ∧ w ∈ v) ∨ (k' ≠ k ∧ member sm k' w).
Proof.
  unfold member. destruct (decide (k' = k)) as [->|Hne].
  - rewrite lookup_insert_eq. split.
    + intros (wm & [= <-] & ?). by left.
    + intros [[_ ?]|[? _]]; [eauto|done].
  - rewrite lookup_insert_ne by done. split.
    + intros ?. by right.
    + intros [[? _]|[_ ?]]; done.
Qed.

Lemma member_delete (sm : gmap string (gset ptr)) k k' w :
  member (delete k sm) k' w ↔ k' ≠ k ∧ member sm k' w.
Proof.
  unfold member. destruct (decide (k' = k)) as [->|Hne].
  - rewrite lookup_delete_eq. split; [intros (? & ? & _); done|intros [? _]; done].
  - rewrite lookup_delete_ne by done. tauto.
Qed.

(** [unsafeAddWatcher] without an error adds the watcher to the bucket
    stored under [k], where it was not before, and changes nothing else. *)
Lemma unsafeAddWatcher_inr (sm m : gmap string (gset ptr)) k wa :
  unsafeAddWatcher sm k wa = inr m →
  wa ≠ nil ∧ ¬ member sm k wa
  ∧ ∀ k' w, member m k' w ↔ member sm k' w ∨ (k' = k ∧ w = wa).
Proof.
  unfold unsafeAddWatcher. case_decide as Hnil; [done|].
  destruct (sm !! k) as [v|] eqn:Hk.
  - case_decide as Hin; [done|]. intros [= <-]. split_and!; [done| |].
    + intros (v' & Hv' & ?). congruence.
    + intros k' w. rewrite member_insert, elem_of_union, elem_of_singleton.
      unfold member. split.
      * intros [[-> [->|Hw]]|[Hne Hm]]; [by right|left; eauto|by left].
      * intros [(wm & Hwm & Hw)|[-> ->]]; [|left; tauto].
        destruct (decide (k' = k)) as [->|Hne]; [|right; eauto].
        left. split; [done|]. right. congruence.
  - intros [= <-]. split_and!; [done| |].
    + intros (v' & Hv' & ?). congruence.
    + intros k' w. rewrite member_insert, elem_of_singleton.
      unfold member. split.
      * intros [[-> ->]|[Hne Hm]]; [by right|by left].
      * intros [(wm & Hwm & Hw)|[-> ->]]; [|by left].
        right. split; [|eauto]. intros ->. congruence.
Qed.

(** The error of [unsafeAddWatcher]: a [nil] watcher, or a watcher that is
    in the bucket already. *)
Lemma unsafeAddWatcher_inl (sm : gmap string (gset ptr)) k wa err :
  unsafeAddWatcher sm k wa = inl err → wa = nil ∨ member sm k wa.
Proof.
  unfold unsafeAddWatcher. case_decide as Hnil; [by left|].
  destruct (sm !! k) as [v|] eqn:Hk; [|done].
  case_decide as Hin; [|done]. intros _. right. by exists v.
Qed.

Lemma watch_wf key prefix startRev id ch s wa c s' :
  wf s → watch key prefix startRev id ch s = Done (wa, c, s') → wf s'.
Proof.
  intros Hwf. unfold watch. destruct (mu s); [done|].
  set (wa0 := fresh _).
  assert (wa0 ≠ nil ∧ watchers s !! wa0 = None) as [Hnil Hfresh].
  { pose proof (is_fresh ({[nil]} ∪ dom (watchers s))) as Hf. fold wa0 in Hf.
    split.
    - intros Heq. apply Hf, elem_of_union_l. by apply elem_of_singleton.
    - apply not_elem_of_dom. intros Hin. by apply Hf, elem_of_union_r. }
  assert (∀ k, ¬ member (synced s) k wa0) as Hnew.
  { intros k Hm. destruct (wf_synced s Hwf k wa0 Hm) as (wr & Hwr & _). congruence. }
  assert (wa0 ∉ unsynced s) as Hnew'.
  { intros Hin. destruct (wf_unsynced s Hwf wa0 Hin) as [[wr Hwr] _]. congruence. }
  case_decide as Hrev.
  - destruct (unsafeAddWatcher _ _ _) as [err|m] eqn:Hadd; [done|].
    intros [= <- <- <-]. apply unsafeAddWatcher_inr in Hadd as (_ & _ & Hm).
    simpl in Hm. split; simpl.
    + intros k w [Hold| [-> ->]]%Hm.
      * destruct (wf_synced s Hwf k w Hold) as (wr & Hwr & Hk). exists wr.
        split; [|done]. rewrite lookup_insert_ne; [done|]. intros <-. congruence.
      * eexists. split; [apply lookup_insert_eq|done].
    + intros w Hin. destruct (wf_unsynced s Hwf w Hin) as [Hal Hno].
      assert (w ≠ wa0) as Hne by (intros ->; done).
      rewrite lookup_insert_ne by done. split; [done|].
      intros k [Hold|[_ ?]]%Hm; [by apply (Hno k)|done].
    + rewrite lookup_insert_ne by done. apply (wf_nil s Hwf).
  - intros [= <- <- <-]. split; simpl.
    + intros k w Hold.
      destruct (wf_synced s Hwf k w Hold) as (wr & Hwr & Hk). exists wr.
      split; [|done]. rewrite lookup_insert_ne; [done|]. intros <-. congruence.
    + intros w [->%elem_of_singleton|Hin]%elem_of_union.
      * rewrite lookup_insert_eq. split; [by eexists|done].
      * destruct (wf_unsynced s Hwf w Hin) as [Hal Hno].
        assert (w ≠ wa0) as Hne by (intros ->; done).
        rewrite lookup_insert_ne by done. done.
    + rewrite lookup_insert_ne by done. apply (wf_nil s Hwf).
Qed.

Lemma cancel_wf wa k s s' : wf s → cancel wa k s = Done s' → wf s'.
Proof.
  intros Hwf. unfold cancel. destruct (mu s); [done|].
  case_decide as Hu.
  - intros [= <-]. apply (wf_shrink s); simpl; [done| |done|done].
    by apply subseteq_difference_l.
  - destruct (synced s !! k) as [v|] eqn:Hk; [|by intros [= <-]].
    case_decide as Hin; [|by intros [= <-]].
    case_decide as Hsz; intros [= <-]; apply (wf_shrink s); simpl; try done.
    + intros k' w [_ ?]%member_delete. done.
    + intros k' w [[-> [Hw _]%elem_of_difference]|[_ ?]]%member_insert; [|done].
      by exists v.
Qed.

End InvariantOps.

(** ** The sync pass: the first two loops *)

Section SyncScan.
Context `{GoRange}.

Implicit Types (s : watchableStore) (w : ptr) (k : string).

Lemma member_add (m : gmap string (gset ptr)) k x k' w :
  member (alter (λ wm, {[x]} ∪ wm) k
            (match m !! k with Some _ => m | None => <[k := ∅]> m end)) k' w
  ↔ member m k' w ∨ (k' = k ∧ w = x).
Proof.
  unfold member. destruct (decide (k' = k)) as [->|Hne].
  - rewrite lookup_alter_eq. destruct (m !! k) as [v|] eqn:Hk.
    + rewrite Hk. simpl. split.
      * intros (wm & [= <-] & [->%elem_of_singleton|Hin]%elem_of_union);
          [by right|left; eauto].
      * intros [(wm & [= <-] & Hin)|[_ ->]]; eexists; (split; [done|]).
        -- by apply elem_of_union_r.
        -- by apply elem_of_union_l, elem_of_singleton.
    + rewrite lookup_insert_eq. simpl. split.
      * intros (wm & [= <-] & [->%elem_of_singleton|Hin]%elem_of_union);
          [by right|by apply not_elem_of_empty in Hin].
      * intros [(wm & ? & _)|[_ ->]]; [done|]. eexists. split; [done|].
        by apply elem_of_union_l, elem_of_singleton.
  - rewrite lookup_alter_ne by done.
    replace (match m !! k with Some _ => m | None => <[k:=∅]> m end !! k')
      with (m !! k').
    + split; [by left|]. intros [?|[? _]]; done.
    + destruct (m !! k); [done|]. by rewrite lookup_insert_ne.
Qed.

Lemma collect_loop s minRev0 minRev k2u prefixes s1 :
  foldlM (collect (main (currentRev (store_ s))) (compactMainRev (store_ s)))
         (minRev0, ∅, ∅, s) (range_set (unsynced s))
  = Done (minRev, k2u, prefixes, s1) →
  collected s s1 k2u prefixes.
Proof.
  set (curRev := main (currentRev (store_ s))).
  set (compRev := compactMainRev (store_ s)).
  intros Hloop.
  pose (Inv := λ (l1 : list ptr)
                 (acc : Z * gmap string (gset ptr) * gset string * watchableStore),
          let '(_, k2u, prefixes, s1) := acc in
          s1 = set_unsynced (unsynced s1) s
          ∧ (∀ w, w ∈ unsynced s1 ↔
                  w ∈ unsynced s ∧ ¬ (w ∈ l1 ∧ compacted s w))
          ∧ (∀ k w, member k2u k w ↔
                    w ∈ l1 ∧ ¬ compacted s w ∧ k = key (deref s w))
          ∧ (∀ k, k ∈ prefixes ↔ ∃ w, member k2u k w ∧ prefix (deref s w) = true)
          ∧ (∀ w, w ∈ l1 → cur (deref s w) ≤ curRev)).
  apply (foldlM_invariant_seen Inv) in Hloop.
  - unfold Inv in Hloop. destruct Hloop as (Hf & Hu & Hm & Hp & Hc).
    assert (∀ w, w ∈ unsynced s1 ↔ w ∈ unsynced s ∧ ¬ compacted s w) as Hu'.
    { intros w. rewrite Hu, range_set_elem. tauto. }
    split; [done|done| |done|].
    + intros k w. rewrite Hm, Hu', range_set_elem. tauto.
    + intros w Hw. apply Hc. by apply range_set_elem.
  - unfold Inv. split_and!; [by destruct s| | | |].
    + intros w. split; [|tauto]. intros ?. split; [done|].
      intros [[]%elem_of_nil _].
    + intros k w. split; [intros (? & ? & _); by rewrite lookup_empty in *|].
      intros [[]%elem_of_nil _].
    + intros k. split; [by intros ?%not_elem_of_empty|].
      intros (w & (? & ? & _) & _). by rewrite lookup_empty in *.
    + intros w []%elem_of_nil.
  - clear Hloop. intros l1 x [[[mr m] ps] sa] [[[mr' m'] ps'] sa'] _.
    unfold Inv. intros (Hf & Hu & Hm & Hp & Hc). unfold collect.
    assert (deref sa x = deref s x) as Hd by (by rewrite Hf).
    rewrite Hd. fold compRev.
    case_decide as Hpanic; [done|].
    case_decide as Hcomp.
    + intros [= <- <- <- <-]. split_and!; [by rewrite Hf| | |done|].
      * intros w. simpl. rewrite elem_of_difference, elem_of_singleton, Hu,
          elem_of_app, list_elem_of_singleton.
        split; [intros [[? ?] ?]; split; [done|]; intros [[?|?] ?]; tauto|].
        intros [? Hn]. split_and!; [done|tauto|]. intros ->. apply Hn. by split; [right|].
      * intros k w. rewrite Hm, elem_of_app, list_elem_of_singleton.
        split; [tauto|]. intros ([Hin| ->] & ? & ?); [done|]. done.
      * intros w [Hin| ->%list_elem_of_singleton]%elem_of_app; [by apply Hc|lia].
    + intros [= <- <- <- <-].
      assert (∀ k w, member (alter (λ wm, {[x]} ∪ wm) (key (deref s x))
                 (match m !! key (deref s x) with
                  | Some _ => m | None => <[key (deref s x) := ∅]> m end)) k w
               ↔ w ∈ l1 ++ [x] ∧ ¬ compacted s w ∧ k = key (deref s w)) as Hm'.
      { intros k w. rewrite member_add, Hm, elem_of_app, list_elem_of_singleton.
        split; [intros [?|[-> ->]]; tauto|].
        intros ([?| ->] & ? & ->); [left|right]; done. }
      split_and!; [done| |done| |].
      * intros w. rewrite Hu, elem_of_app, list_elem_of_singleton.
        split; [intros [? Hn]; split; [done|]; intros [[?| ->] ?]; tauto|].
        intros [? Hn]. split; [done|]. intros [? ?]. apply Hn. split; [by left|done].
      * intros k. destruct (prefix (deref s x)) eqn:Hpx.
        -- rewrite elem_of_union, elem_of_singleton, Hp. split.
           ++ intros [->|(w & Hw & Hpw)].
              ** exists x. split; [|done]. apply Hm'.
                 split_and!; [apply elem_of_app; right; by left|done|done].
              ** exists w. split; [|done]. apply member_add. by left.
           ++ intros (w & [Hw|[-> ->]]%member_add & Hpw); [right; eauto|by left].
        -- rewrite Hp. split.
           ++ intros (w & Hw & Hpw). exists w. split; [|done].
              apply member_add. by left.
           ++ intros (w & [Hw|[-> ->]]%member_add & Hpw); [eauto|congruence].
      * intros w [Hin| ->%list_elem_of_singleton]%elem_of_app; [by apply Hc|lia].
Qed.

Lemma decodeRow_Done k2u prefixes (evs0 evs1 : list Event) (r : row) :
  decodeRow k2u prefixes evs0 r = Done evs1 →
  is_Some (rval r)
  ∧ evs1 = evs0 ++ filter (relevant k2u prefixes) (omap rowEvent [r]).
Proof.
  unfold decodeRow. cbn [omap list_omap]. unfold rowEvent.
  destruct (rval r) as [kv|]; simpl; [|done].
  set (e := {| Typ := _; Kv := kv |}).
  rewrite filter_cons, filter_nil.
  destruct (decide (relevant k2u prefixes e)) as [Hr|Hr]; unfold relevant in Hr;
    simpl in Hr.
  - replace (bool_decide _ && negb _) with false; [by intros [= <-]|].
    symmetry. apply andb_false_iff.
    destruct (decide (k2u !! Key kv = None)) as [Hk|Hk].
    + right. apply negb_false_iff.
      destruct (matchPrefix (Key kv) prefixes); [done|]. by destruct Hr.
    + left. by apply bool_decide_eq_false.
  - apply dec_stable in Hr as [Hk Hp]. rewrite Hp.
    rewrite bool_decide_eq_true_2 by done. simpl. intros [= <-].
    by rewrite app_nil_r.
Qed.

(** The second loop keeps the relevant events of the rows, in order. *)
Lemma decodeRow_loop k2u prefixes (rows : list row) (evs0 evs : list Event) :
  foldlM (decodeRow k2u prefixes) evs0 rows = Done evs →
  Forall (λ r, is_Some (rval r)) rows
  ∧ evs = evs0 ++ filter (relevant k2u prefixes) (omap rowEvent rows).
Proof.
  revert evs0. induction rows as [|r rows IH]; intros evs0.
  - intros [= <-]. by rewrite app_nil_r.
  - cbn [foldlM]. destruct (decodeRow k2u prefixes evs0 r) as [evs1| |] eqn:Hd;
      simpl; try done.
    apply decodeRow_Done in Hd as [Hr ->]. intros [Hall ->]%IH.
    split; [by constructor|]. rewrite <-app_assoc. f_equal.
    rewrite <-filter_app. f_equal. simpl. by destruct (rowEvent r).
Qed.

Lemma matchPrefix_true key (prefixes : gset string) :
  matchPrefix key prefixes = true ↔
  ∃ p, p ∈ prefixes ∧ String.prefix p key = true.
Proof.
  unfold matchPrefix. rewrite existsb_exists. split.
  - intros (p & Hin%list_elem_of_In%range_strings_elem & Hp). eauto.
  - intros (p & Hin & Hp). exists p. split; [|done].
    by apply list_elem_of_In, range_strings_elem.
Qed.

(** The first two loops of a sync pass. *)
Lemma syncFanOut_Done s we s1 :
  syncFanOut s = Done (we, s1) →
  ∃ minRev k2u prefixes,
    collected s s1 k2u prefixes
    ∧ Forall (λ r, is_Some (rval r))
        (UnsafeRange (b (store_ s)) minRev
           (int64 (main (currentRev (store_ s)) + 1)))
    ∧ we = newWatcherToEventMap (watchers s) k2u
             (filter (relevant k2u prefixes)
                (omap rowEvent
                   (UnsafeRange (b (store_ s)) minRev
                      (int64 (main (currentRev (store_ s)) + 1))))).
Proof.
  unfold syncFanOut.
  destruct (foldlM (collect _ _) _ _) as [[[[minRev k2u] prefixes] s0]| |] eqn:Hc;
    simpl; try done.
  apply collect_loop in Hc.
  assert (store_ s0 = store_ s ∧ watchers s0 = watchers s) as [Hst Hw]
    by (by rewrite (col_frame _ _ _ _ Hc)).
  rewrite Hst, Hw.
  destruct (foldlM (decodeRow _ _) _ _) as [evs| |] eqn:Hd; simpl; try done.
  intros [= <- <-]. exists minRev, k2u, prefixes.
  apply decodeRow_loop in Hd as [Hall ->]. done.
Qed.

(** The first loop leaves in [minRev] the least [cur] of the watchers it
    keeps, or the value it started with. *)
Lemma collect_loop_min s minRev0 minRev k2u prefixes s1 :
  foldlM (collect (main (currentRev (store_ s))) (compactMainRev (store_ s)))
         (minRev0, ∅, ∅, s) (range_set (unsynced s))
  = Done (minRev, k2u, prefixes, s1) →
  (∀ w, w ∈ unsynced s → ¬ compacted s w → minRev ≤ cur (deref s w))
  ∧ (minRev = minRev0
     ∨ ∃ w, w ∈ unsynced s ∧ ¬ compacted s w ∧ minRev = cur (deref s w)).
Proof.
  intros Hloop.
  pose (Inv := λ (l1 : list ptr)
                 (acc : Z * gmap string (gset ptr) * gset string * watchableStore),
          watchers acc.2 = watchers s
          ∧ (∀ w, w ∈ l1 → ¬ compacted s w → acc.1.1.1 ≤ cur (deref s w))
          ∧ (acc.1.1.1 = minRev0
             ∨ ∃ w, w ∈ l1 ∧ ¬ compacted s w ∧ acc.1.1.1 = cur (deref s w))).
  apply (foldlM_invariant_seen Inv) in Hloop.
  - unfold Inv in Hloop. simpl in Hloop. destruct Hloop as (_ & Hle & Hmin). split.
    + intros w Hw. apply Hle. by apply range_set_elem.
    + destruct Hmin as [?|(w & Hw%range_set_elem & ? & ?)]; [by left|right; eauto].
  - unfold Inv. simpl. split_and!; [done| |by left]. intros w []%elem_of_nil.
  - clear Hloop. intros l1 x [[[mr m] ps] sa] [[[mr' m'] ps'] sa'] _.
    unfold Inv. simpl. intros (Hw & Hle & Hmin). unfold collect.
    assert (deref sa x = deref s x) as Hd by (unfold deref; by rewrite Hw).
    rewrite Hd. case_decide as Hpanic; [done|].
    case_decide as Hcomp.
    + intros [= <- <- <- <-]. simpl. split_and!; [done| |].
      * intros w [Hin| ->%list_elem_of_singleton]%elem_of_app; [by apply Hle|done].
      * destruct Hmin as [?|(w & Hin & ? & ?)]; [by left|right].
        exists w. split; [apply elem_of_app; by left|done].
    + intros [= <- <- <- <-]. split_and!; [done| |].
      * intros w [Hin| ->%list_elem_of_singleton]%elem_of_app Hnc.
        -- specialize (Hle w Hin Hnc). case_decide; lia.
        -- case_decide; lia.
      * case_decide as Hge.
        -- right. exists x. split; [apply elem_of_app; right; by left|done].
        -- destruct Hmin as [?|(w & Hin & ? & ?)]; [by left|right].
           exists w. split; [apply elem_of_app; by left|done].
Qed.

(** The first two loops of a sync pass, with the revision the scan starts
    at. *)
Lemma syncFanOut_Done_min s we s1 :
  syncFanOut s = Done (we, s1) →
  ∃ minRev k2u prefixes,
    collected s s1 k2u prefixes
    ∧ (∀ w, w ∈ unsynced s → ¬ compacted s w → minRev ≤ cur (deref s w))
    ∧ (minRev = MaxInt64
       ∨ ∃ w, w ∈ unsynced s ∧ ¬ compacted s w ∧ minRev = cur (deref s w))
    ∧ we = newWatcherToEventMap (watchers s) k2u
             (filter (relevant k2u prefixes)
                (omap rowEvent
                   (UnsafeRange (b (store_ s)) minRev
                      (int64 (main (currentRev (store_ s)) + 1))))).
Proof.
  unfold syncFanOut.
  destruct (foldlM (collect _ _) _ _) as [[[[minRev k2u] prefixes] s0]| |] eqn:Hc;
    simpl; try done.
  pose proof (collect_loop_min _ _ _ _ _ _ Hc) as [Hle Hmin].
  apply collect_loop in Hc.
  assert (store_ s0 = store_ s ∧ watchers s0 = watchers s) as [Hst Hw]
    by (by rewrite (col_frame _ _ _ _ Hc)).
  rewrite Hst, Hw.
  destruct (foldlM (decodeRow _ _) _ _) as [evs| |] eqn:Hd; simpl; try done.
  intros [= <- <-]. exists minRev, k2u, prefixes.
  apply decodeRow_loop in Hd as [_ ->]. done.
Qed.

End SyncScan.

(** ** The sync pass: the promotions *)

Section SyncPromote.
Context `{GoRange}.

Implicit Types (s : watchableStore) (w : ptr) (k : string).

Lemma promote_cases s w es s' :
  promote s (w, es) = Done s' → s' = s ∨ promoted s s' w es.
Proof.
  unfold promote. destruct (trySend _ _ _ s) as [s1|] eqn:Hsend.
  - apply trySend_Some in Hsend as (q & _ & _ & ->).
    destruct (unsafeAddWatcher _ _ _) as [err|m] eqn:Hadd; [done|].
    intros [= <-]. right.
    apply unsafeAddWatcher_inr in Hadd as (Hnil & Hnot & Hm).
    unfold promoted. split_and!; try done.
  - intros [= <-]. by left.
Qed.

Lemma promoted_other s s' w es w' : promoted s s' w es → w' ≠ w → same_view s s' w'.
Proof.
  intros (_ & _ & Hw & Hsent & Hu & _ & _ & Hs) Hne. split.
  - by rewrite Hw.
  - rewrite Hu, elem_of_difference, elem_of_singleton. tauto.
  - intros k'. rewrite Hs. split; [|tauto]. intros [?|[_ ?]]; done.
  - unfold sent_to at 1. rewrite Hsent, sent_to_app.
    rewrite filter_cons, decide_False by (simpl; congruence).
    by rewrite app_nil_r.
Qed.

Lemma promoted_raised s s' w es : promoted s s' w es → raised s s' w (response s w es).
Proof.
  intros (_ & _ & Hw & Hsent & Hu & _ & _ & Hs). split_and!.
  - unfold sent_to at 1. rewrite Hsent, sent_to_app.
    by rewrite filter_cons, decide_True.
  - by rewrite Hw.
  - rewrite Hu, elem_of_difference, elem_of_singleton. tauto.
  - intros k'. rewrite Hs. split; [intros [?|[? _]]; tauto|].
    intros [?|?]; tauto.
Qed.

Lemma promote_other s w es s' w' :
  promote s (w, es) = Done s' → w' ≠ w → same_view s s' w'.
Proof.
  intros [->|Hp]%promote_cases Hne; [apply same_view_refl|].
  by eapply promoted_other.
Qed.

Lemma promote_store s w es s' :
  promote s (w, es) = Done s' →
  store_ s' = store_ s ∧ mu s' = mu s ∧ watchers s' = watchers s.
Proof.
  intros [->|Hp]%promote_cases; [done|]. unfold promoted in Hp. tauto.
Qed.

Lemma promote_loop_store (l : list (ptr * list Event)) s s' :
  foldlM promote s l = Done s' →
  store_ s' = store_ s ∧ mu s' = mu s ∧ watchers s' = watchers s.
Proof.
  apply (foldlM_invariant
           (λ s', store_ s' = store_ s ∧ mu s' = mu s ∧ watchers s' = watchers s));
    [done|].
  intros s1 [w es] s2 _ (<- & <- & <-). apply promote_store.
Qed.

(** The third loop, seen from one watcher. *)
Lemma promote_loop_view (l : list (ptr * list Event)) s s' :
  NoDup l.*1 → foldlM promote s l = Done s' →
  (∀ w, w ∉ l.*1 → same_view s s' w)
  ∧ (∀ w es, (w, es) ∈ l →
       ∃ s1 s2, same_view s s1 w ∧ store_ s1 = store_ s
                ∧ promote s1 (w, es) = Done s2 ∧ same_view s2 s' w).
Proof.
  revert s. induction l as [|[w0 es0] l IH]; intros s Hnd.
  - intros [= <-]. split; [intros; apply same_view_refl|].
    intros w es []%elem_of_nil.
  - cbn [fmap list_fmap] in Hnd. apply NoDup_cons in Hnd as [Hw0 Hnd].
    cbn [foldlM]. destruct (promote s (w0, es0)) as [s0| |] eqn:Hp; simpl; try done.
    intros Hrest. destruct (IH s0 Hnd Hrest) as [IHa IHb]. split.
    + intros w Hw. cbn [fmap list_fmap] in Hw.
      apply not_elem_of_cons in Hw as [Hne Hw].
      eapply same_view_trans; [by eapply promote_other|by apply IHa].
    + intros w es [[= -> ->]|Hin]%elem_of_cons.
      * exists s, s0. split_and!; [apply same_view_refl|done|done|by apply IHa].
      * assert (w ≠ w0) as Hne.
        { intros ->. apply Hw0. apply list_elem_of_fmap. by exists (w0, es). }
        destruct (IHb w es Hin) as (s1 & s2 & Hv & Hst & Hp' & Hv').
        exists s1, s2. split_and!; [|by rewrite Hst; eapply promote_store|done|done].
        eapply same_view_trans; [by eapply promote_other|done].
Qed.

Lemma raised_view s1 s2 s3 s4 w r :
  same_view s1 s2 w → raised s2 s3 w r → same_view s3 s4 w → raised s1 s4 w r.
Proof.
  intros Hv (Ha' & Hb' & Hc' & Hd') [Ha'' Hb'' Hc'' Hd''].
  pose proof (same_view_deref _ _ _ Hv) as Hderef.
  destruct Hv as [Ha Hb Hc Hd]. split_and!.
  - congruence.
  - congruence.
  - by rewrite Hb''.
  - intros k'. by rewrite Hc'', Hd', Hc, Hderef.
Qed.

(** The promotions of a sync pass, seen from one watcher: a watcher with
    events is left as it was or raised, every other watcher is left as it
    was. *)
Lemma promote_loop_fate (we : gmap ptr (list Event)) s s' w :
  foldlM promote s (range_events we) = Done s' →
  match we !! w with
  | None => same_view s s' w
  | Some es => same_view s s' w ∨ raised s s' w (response s w es)
  end.
Proof.
  intros Hloop.
  destruct (promote_loop_view _ _ _ (range_events_NoDup we) Hloop) as [Ha Hb].
  destruct (we !! w) as [es|] eqn:Hwe.
  - apply range_events_elem in Hwe.
    destruct (Hb w es Hwe) as (s1 & s2 & Hv1 & Hst & Hp & Hv2).
    apply promote_cases in Hp as [->|Hp].
    + left. by eapply same_view_trans.
    + right. replace (response s w es) with (response s1 w es)
        by (unfold response; by rewrite (same_view_deref _ _ _ Hv1), Hst).
      eapply raised_view; [done|by apply promoted_raised|done].
  - apply Ha. intros ([w' es] & -> & Hin)%list_elem_of_fmap.
    apply range_events_elem in Hin. simpl in Hwe. congruence.
Qed.

Lemma raised_wf_at s s' w r :
  raised s s' w r → is_Some (watchers s !! w) → w ≠ nil → wf_at s w → wf_at s' w.
Proof.
  intros (_ & Hw & Hu & Hs) [wr Hwr] Hnil (Ha & Hb & Hc). split_and!.
  - intros k [Hm| ->]%Hs; rewrite Hw; [by apply Ha|].
    exists wr. split; [done|]. unfold deref. by rewrite (lookup_total_correct _ _ _ Hwr).
  - done.
  - done.
Qed.

End SyncPromote.

(** ** The registry invariant holds in every reachable store *)

Section Reachable.
Context `{GoRange}.

Implicit Types (s : watchableStore) (w : ptr) (k : string).

Lemma collected_wf s s1 k2u prefixes : collected s s1 k2u prefixes → wf s → wf s1.
Proof.
  intros Hc Hwf. apply (wf_shrink s); [by rewrite (col_frame _ _ _ _ Hc)| |
    by rewrite (col_frame _ _ _ _ Hc)|done].
  intros w Hw. by apply (col_unsynced _ _ _ _ Hc) in Hw as [? _].
Qed.

(** A sync pass, seen from one watcher that is neither [nil] nor
    unallocated. *)
Lemma syncWatchers_view s s' w :
  syncWatchers s = Done s' →
  (w ∉ unsynced s → same_view s s' w)
  ∧ (w ∈ unsynced s → compacted s w →
     sent_to s' w = sent_to s w ∧ watchers s' !! w = watchers s !! w
     ∧ (w ∉ unsynced s') ∧ ∀ k, member (synced s') k w ↔ member (synced s) k w)
  ∧ (w ∈ unsynced s → ¬ compacted s w →
     same_view s s' w ∨ ∃ es, es ≠ [] ∧ raised s s' w (response s w es)).
Proof.
  unfold syncWatchers. case_decide as Hsz.
  { intros [= <-]. apply size_empty_iff, leibniz_equiv in Hsz.
    split_and!; [intros; apply same_view_refl| |]; rewrite Hsz;
      by intros ?%not_elem_of_empty. }
  destruct (syncFanOut s) as [[we s1]| |] eqn:Hfan; simpl; try done.
  intros Hloop.
  apply syncFanOut_Done in Hfan as (minRev & k2u & prefixes & Hc & _ & Hwe).
  pose proof (promote_loop_fate we s1 s' w Hloop) as Hfate.
  assert (watchers s1 = watchers s ∧ synced s1 = synced s
          ∧ sent s1 = sent s ∧ store_ s1 = store_ s) as (Hw1 & Hs1 & Hsent1 & Hst1)
    by (by rewrite (col_frame _ _ _ _ Hc)).
  assert (w ∉ unsynced s1 → we !! w = None) as Hout.
  { intros Hw. rewrite Hwe. apply newWatcherToEventMap_not_member.
    intros k [? _]%(col_member _ _ _ _ Hc). done. }
  assert (w ∉ unsynced s1 → same_view s1 s' w) as Hsame.
  { intros Hw. by rewrite (Hout Hw) in Hfate. }
  split_and!.
  - intros Hw.
    assert (w ∉ unsynced s1) as Hw1' by (rewrite (col_unsynced _ _ _ _ Hc); tauto).
    destruct (Hsame Hw1') as [Ha Hb Hc' Hd]. split.
    + by rewrite Ha, Hw1.
    + rewrite Hb. tauto.
    + intros k. by rewrite Hc', Hs1.
    + rewrite Hd. unfold sent_to. by rewrite Hsent1.
  - intros Hw Hcomp.
    assert (w ∉ unsynced s1) as Hw1' by (rewrite (col_unsynced _ _ _ _ Hc); tauto).
    destruct (Hsame Hw1') as [Ha Hb Hc' Hd]. split_and!.
    + rewrite Hd. unfold sent_to. by rewrite Hsent1.
    + by rewrite Ha, Hw1.
    + by rewrite Hb.
    + intros k. by rewrite Hc', Hs1.
  - intros Hw Hcomp.
    assert (w ∈ unsynced s1) as Hw1' by (by apply (col_unsynced _ _ _ _ Hc)).
    assert (same_view s s1 w) as Hv.
    { split; [by rewrite Hw1|tauto|by intros k; rewrite Hs1|].
      unfold sent_to. by rewrite Hsent1. }
    destruct (we !! w) as [es|] eqn:Hes.
    + destruct Hfate as [Hv'|Hr]; [left; by eapply same_view_trans|].
      right. exists es. split.
      * pose proof (newWatcherToEventMap_no_empty (watchers s) k2u
                      (filter (relevant k2u prefixes)
                         (omap rowEvent (UnsafeRange (b (store_ s)) minRev
                            (int64 (main (currentRev (store_ s)) + 1)))))) as Hne.
        rewrite <-Hwe in Hne. by eapply Hne.
      * replace (response s w es) with (response s1 w es)
          by (unfold response; by rewrite (same_view_deref _ _ _ Hv), Hst1).
        eapply raised_view; [done|done|apply same_view_refl].
    + left. by eapply same_view_trans.
Qed.

Lemma syncWatchers_watchers s s' :
  syncWatchers s = Done s' →
  watchers s' = watchers s ∧ store_ s' = store_ s ∧ mu s' = mu s.
Proof.
  unfold syncWatchers. case_decide as Hsz; [by intros [= <-]|].
  destruct (syncFanOut s) as [[we s1]| |] eqn:Hfan; simpl; try done.
  intros (Hst & Hmu & Hw)%promote_loop_store.
  apply syncFanOut_Done in Hfan as (minRev & k2u & prefixes & Hc & _ & _).
  rewrite Hst, Hmu, Hw. by rewrite (col_frame _ _ _ _ Hc).
Qed.

(** A sync pass keeps the registry invariant. *)
Lemma syncWatchers_wf s s' : wf s → syncWatchers s = Done s' → wf s'.
Proof.
  intros Hwf Hsync. apply wf_wf_at. intros w.
  pose proof (proj1 (wf_wf_at s) Hwf w) as Hat.
  destruct (syncWatchers_view s s' w Hsync) as (Hout & Hcomp & Hlive).
  destruct (decide (w ∈ unsynced s)) as [Hin|Hnin];
    [|by eapply same_view_wf_at; [apply Hout|]].
  destruct (wf_unsynced s Hwf w Hin) as [Hal Hno].
  destruct (decide (compacted s w)) as [Hc|Hc].
  - destruct (Hcomp Hin Hc) as (_ & Hw & Hu & Hs).
    destruct Hat as (Ha & Hb & Hn). split_and!.
    + intros k Hm%Hs. by apply Hno in Hm.
    + done.
    + intros Heq. rewrite Hw. by apply Hn.
  - destruct (Hlive Hin Hc) as [Hv|(es & _ & Hr)]; [by eapply same_view_wf_at|].
    eapply raised_wf_at; [done|done| |done].
    intros ->. destruct Hal as [wr Hwr]. rewrite (wf_nil s Hwf) in Hwr. done.
Qed.

Lemma exec_wf o s s' : wf s → exec o s = Done s' → wf s'.
Proof.
  intros Hwf. destruct o; simpl.
  - intros [= <-]. by apply (wf_same_registry s).
  - intros [= <-]. by apply (wf_same_registry s).
  - destruct (watch _ _ _ _ _ s) as [[[wa c] s1]| |] eqn:Hw; simpl; try done.
    intros [= <-]. by eapply watch_wf.
  - destruct (watchers s !! wa) as [wr|]; [|by intros [= <-]].
    by apply cancel_wf.
  - unfold Put. destruct (mu s); [done|].
    destruct (store_Put (store_ s)) as [rev st1]. simpl.
    destruct (changes st1) as [|change [|? ?]]; simpl; try done.
    intros [= <-]. apply notify_wf. by apply (wf_same_registry s).
  - unfold DeleteRange. destruct (mu s); [done|].
    destruct (store_DeleteRange (store_ s)) as [[n rev] st1]. simpl.
    case_decide; [done|]. case_decide; simpl.
    + intros [= <-]. by apply (wf_same_registry s).
    + intros [= <-]. apply notify_wf. by apply (wf_same_registry s).
  - unfold TxnBegin. destruct (mu s); [done|].
    destruct (store_TxnBegin (store_ s)) as [txnID st1]. simpl.
    intros [= <-]. by apply (wf_same_registry s).
  - unfold TxnEnd. destruct (store_TxnEnd txnID (store_ s)) as [[err|] st1]; simpl.
    + intros [= <-]. by apply (wf_same_registry s).
    + case_decide; unfold Unlock.
      * simpl. destruct (mu s); simpl; [|done]. intros [= <-].
        by apply (wf_same_registry s).
      * destruct (mu (handle _ _ _)); simpl; [|done]. intros [= <-].
        eapply (wf_same_registry (notify _ _ _)); [done..|].
        apply notify_wf. by apply (wf_same_registry s).
  - unfold syncWatchersLoop_turn. destruct (mu s); [done|]. by apply syncWatchers_wf.
  - intros [= <-]. apply (wf_same_registry s); try done.
    all: unfold recv; by destruct (chans s !! c).
  - intros [= <-]. by apply (wf_same_registry s).
Qed.

Lemma run_wf ops s s' : wf s → run ops s = Done s' → wf s'.
Proof.
  intros Hwf. apply (foldlM_invariant wf); [done|].
  intros s1 o s2 _ Hwf1. by apply exec_wf.
Qed.

Lemma reachable_wf s : reachable s → wf s.
Proof. intros (st & ops & Hrun). eapply run_wf; [apply newWatchableStore_wf|done]. Qed.

End Reachable.

(** ** What the notifier sends *)

Section NotifySent.
Context `{GoRange}.

Implicit Types (s : watchableStore) (w : ptr) (k : string).

Lemma newWatcherToEventMap_sub h sm (evs es : list Event) w e :
  newWatcherToEventMap h sm evs !! w = Some es → e ∈ es → e ∈ evs.
Proof.
  intros Hes He.
  assert (e ∈ evlist (newWatcherToEventMap h sm evs) w) as Hin
    by (unfold evlist; by rewrite Hes).
  rewrite newWatcherToEventMap_evlist in Hin.
  apply list_elem_of_bind in Hin as (ev & Hrep & Hev).
  by apply elem_of_replicate in Hrep as [-> _].
Qed.

(** Every response the notifier sends carries the revision of the store and
    the events recorded for its watcher. *)
Lemma notify_sent rev evs s :
  ∃ new, sent (notify rev evs s) = sent s ++ new
         ∧ ∀ w r, (w, r) ∈ new →
             Revision r = Rev (store_ s)
             ∧ newWatcherToEventMap (watchers s) (synced s) evs !! w
               = Some (Events r).
Proof.
  rewrite notify_turns. set (we := newWatcherToEventMap _ _ _).
  apply (foldl_invariant
           (λ s', store_ s' = store_ s
                  ∧ ∃ new, sent s' = sent s ++ new
                           ∧ ∀ w r, (w, r) ∈ new →
                               Revision r = Rev (store_ s)
                               ∧ we !! w = Some (Events r))).
  - split; [done|]. exists []. split; [by rewrite app_nil_r|].
    intros w r []%elem_of_nil.
  - intros s1 [k w] _ (Hst & new & Hsent & Hnew). unfold notify_turn. simpl.
    pose proof (notify_watcher_cases rev we k s1 w) as Hc.
    destruct (we !! w) as [es|] eqn:Hes.
    + destruct Hc as [(_ & Hst' & _ & _ & _ & Hs')|(_ & Hst' & _ & Hs' & _)].
      * split; [congruence|]. exists (new ++ [(w, response s1 w es)]).
        split; [by rewrite Hs', Hsent, app_assoc|].
        intros w' r [Hin|[= -> ->]%list_elem_of_singleton]%elem_of_app;
          [by apply Hnew|].
        simpl. by rewrite Hst.
      * split; [congruence|]. exists new. split; [congruence|done].
    + rewrite Hc. split; [done|]. by exists new.
Qed.

End NotifySent.

(** ** The facade calls the notifier with the revision of the commit *)

Section Facade.
Context `{GoRange}.

(** [Put] hands the notifier the revision that the embedded store returned
    and one PUT event for the one change. *)
Lemma Put_Done (store_Put : store → Z * store) (s s' : watchableStore) (rev : Z) :
  Put store_Put s = Done (rev, s') →
  mu s = false
  ∧ ∃ st1 change,
      store_Put (store_ s) = (rev, st1) ∧ changes st1 = [change]
      ∧ s' = notify rev [{| Typ := PUT; Kv := change |}]
               (set_store (getChanges st1).2 s).
Proof.
  unfold Put. destruct (mu s); [done|].
  destruct (store_Put (store_ s)) as [rev' st1]. simpl.
  destruct (changes st1) as [|change [|? ?]] eqn:Hch; simpl; try done.
  intros [= <- <-]. split; [done|]. by exists st1, change.
Qed.

(** [DeleteRange] hands the notifier the revision that the embedded store
    returned and as many DELETE events as there are changes, each with the
    last change. *)
Lemma DeleteRange_Done (store_DeleteRange : store → Z * Z * store)
    (s s' : watchableStore) (n rev : Z) :
  DeleteRange store_DeleteRange s = Done (n, rev, s') → n ≠ 0 →
  mu s = false
  ∧ ∃ st1 change,
      store_DeleteRange (store_ s) = (n, rev, st1)
      ∧ Z.of_nat (length (changes st1)) = n
      ∧ last (changes st1) = Some change
      ∧ s' = notify rev
               (replicate (length (changes st1)) {| Typ := DELETE; Kv := change |})
               (set_store (getChanges st1).2 s).
Proof.
  unfold DeleteRange. destruct (mu s); [done|].
  destruct (store_DeleteRange (store_ s)) as [[n' rev'] st1]. simpl.
  case_decide as Hlen; [done|].
  case_decide as Hn; simpl; intros [= <- <- <-]; [done|]. intros _.
  split; [done|].
  destruct (last (changes st1)) as [change|] eqn:Hlast.
  - exists st1, change. split_and!; try done. unfold handle. f_equal.
    clear. induction (changes st1) as [|c l IH]; [done|]. simpl. by f_equal.
  - apply last_None in Hlast. rewrite Hlast in Hlen. simpl in Hlen. lia.
Qed.

End Facade.

(** * The claims *)

Section Claims.
Context `{GoRange}.

Implicit Types (s : watchableStore) (w : ptr) (k : string).

(** The notifier by itself: when it runs with the revision [rev] of the
    store and the events [evs] it is handed, a synced watcher with matching
    events ends in exactly one of two conditions: it was sent one response
    with all its matching events and the revision [rev], and stays in its
    bucket; or it was sent nothing, is in [unsynced] with [cur = rev] and in
    no bucket of [synced].  A synced watcher without matching events stays in
    its bucket. *)
Lemma notify_serves_or_demotes (rev : Z) (evs : list Event) s k w :
  wf s → Rev (store_ s) = rev → member (synced s) k w →
  (filter (matches (deref s w)) evs ≠ [] →
     (sent_to (notify rev evs s) w =
        sent_to s w ++ [{| WatchID := id (deref s w);
                           Events := filter (matches (deref s w)) evs;
                           Revision := rev |}]
      ∧ member (synced (notify rev evs s)) k w
      ∧ (w ∉ unsynced (notify rev evs s))
      ∧ deref (notify rev evs s) w = deref s w)
     ∨ (sent_to (notify rev evs s) w = sent_to s w
        ∧ w ∈ unsynced (notify rev evs s)
        ∧ cur (deref (notify rev evs s) w) = rev
        ∧ ∀ k', ¬ member (synced (notify rev evs s)) k' w))
  ∧ (filter (matches (deref s w)) evs = [] →
     member (synced (notify rev evs s)) k w
     ∧ (w ∉ unsynced (notify rev evs s))
     ∧ sent_to (notify rev evs s) w = sent_to s w).
Proof.
  intros Hwf Hrev Hm.
  destruct (wf_registered s k w Hwf Hm) as [Hreg Hk].
  destruct (notify_view rev evs s w) as [Hin _];
    [intros ???; by apply wf_one_key|].
  specialize (Hin k Hm).
  rewrite (newWatcherToEventMap_lookup _ _ _ _ Hreg) in Hin.
  fold (deref s w) in Hin.
  assert (w ∉ unsynced s) as Hnu.
  { intros Hu. destruct (wf_unsynced s Hwf w Hu) as [_ Hno]. by apply (Hno k). }
  split.
  - intros Hne. destruct (filter _ evs) as [|e es] eqn:Hes; [done|].
    destruct Hin as [(Hsent & Hw & Hu & Hs)|(Hsent & Hw & Hu & Hs)].
    + left. split_and!.
      * rewrite Hsent. unfold response. by rewrite Hrev.
      * by apply Hs.
      * by rewrite Hu.
      * unfold deref. by rewrite !lookup_total_alt, Hw.
    + right. split_and!; [done|done| |].
      * unfold deref at 1. by rewrite (lookup_total_correct _ _ _ Hw).
      * intros k' [Hm' Hne']%Hs. apply Hne'. by eapply wf_one_key.
  - intros Hnil. rewrite Hnil in Hin. destruct Hin as [_ Hu Hs Hsent].
    split_and!; [by apply Hs|by rewrite Hu|done].
Qed.

(** The notifier settles every synced watcher with respect to the events it
    is handed, in the store the facade hands it. *)
Lemma notify_settled (rev : Z) (evs : list Event) (st : store) s k w :
  wf s → Rev st = rev → member (synced s) k w →
  settled s (notify rev evs (set_store st s)) k w rev evs.
Proof.
  intros Hwf Hrev Hm.
  exact (notify_serves_or_demotes rev evs (set_store st s) k w
           (wf_same_registry s (set_store st s) eq_refl eq_refl eq_refl Hwf)
           Hrev Hm).
Qed.

(** A watcher that was sent nothing and is not in [unsynced] is not settled
    with respect to events that it matches. *)
Lemma not_settled s s' k w (r : Z) (E : list Event) :
  filter (matches (deref s w)) E ≠ [] →
  sent_to s' w = sent_to s w → w ∉ unsynced s' →
  ¬ settled s s' k w r E.
Proof.
  intros Hne Hsent Hnu [Hset _].
  destruct (Hset Hne) as [(Hs & _)|(_ & Hu & _)]; [|done].
  rewrite Hsent in Hs. apply (f_equal length) in Hs.
  rewrite length_app in Hs. simpl in Hs. lia.
Qed.

(** C1.  The three mutations, with the events of the changes that the
    commit produced and the revision of the commit.

    [Put] and a [TxnEnd] that the embedded store accepts settle every synced
    watcher: a watcher that matches an event of the changes was sent one
    response with all its matching events and the revision, or was demoted
    with [cur] set to the revision; a watcher that matches none stays in
    [synced].

    [DeleteRange] does not.  Each of the [n] events it builds takes the
    address of the loop variable, which holds the last change when the
    notifier runs, so the notifier settles the watchers with respect to [n]
    copies of the event of the last change.  A synced watcher that matches
    the event of some deleted key but not the one of the last change is sent
    nothing and stays in [synced]: it is not settled with respect to the
    events of the changes. *)
Theorem mutation_serves_or_demotes s :
  wf s →
  (∀ (store_Put : store → Z * store) rev s',
     Put store_Put s = Done (rev, s') →
     Rev (store_Put (store_ s)).2 = rev →
     ∃ change,
       changes (store_Put (store_ s)).2 = [change]
       ∧ ∀ k w, member (synced s) k w →
           settled s s' k w rev (spec_events PUT [change]))
  ∧ (∀ (store_TxnEnd : Z → store → option string * store) txnID s',
       TxnEnd store_TxnEnd txnID s = Done (None, s') →
       ∀ k w, member (synced s) k w →
         settled s s' k w (Rev (store_TxnEnd txnID (store_ s)).2)
           (txnEvents (changes (store_TxnEnd txnID (store_ s)).2)))
  ∧ (∀ (store_DeleteRange : store → Z * Z * store) n rev s',
       DeleteRange store_DeleteRange s = Done (n, rev, s') → n ≠ 0 →
       Rev (store_DeleteRange (store_ s)).2 = rev →
       ∃ change,
         last (changes (store_DeleteRange (store_ s)).2) = Some change
         ∧ ∀ k w, member (synced s) k w →
             settled s s' k w rev
               (replicate (Z.to_nat n) {| Typ := DELETE; Kv := change |})
             ∧ (filter (matches (deref s w))
                  (spec_events DELETE (changes (store_DeleteRange (store_ s)).2))
                ≠ [] →
                ¬ matches (deref s w) {| Typ := DELETE; Kv := change |} →
                sent_to s' w = sent_to s w
                ∧ (w ∉ unsynced s')
                ∧ member (synced s') k w
                ∧ ¬ settled s s' k w rev
                      (spec_events DELETE
                         (changes (store_DeleteRange (store_ s)).2)))).
Proof.
  intros Hwf. split_and!.
  - intros store_Put rev s' HPut Hrev.
    destruct (Put_Done _ _ _ _ HPut) as (_ & st1 & change & Hst & Hch & ->).
    rewrite Hst in Hrev. rewrite Hst. simpl in Hrev. simpl.
    exists change. split; [done|]. intros k w Hm.
    by apply notify_settled.
  - intros store_TxnEnd txnID s' Hend k w Hm. unfold TxnEnd in Hend.
    destruct (store_TxnEnd txnID (store_ s)) as [[err|] st1]; simpl in Hend;
      [done|]. simpl.
    assert (w ∉ unsynced s) as Hnu.
    { intros Hu. destruct (wf_unsynced s Hwf w Hu) as [_ Hno]. by apply (Hno k). }
    case_decide as Hlen; unfold Unlock in Hend.
    + simpl in Hend. destruct (mu s); simpl in Hend; [|done].
      injection Hend as <-.
      apply length_zero_iff_nil in Hlen. rewrite Hlen. split; [done|].
      intros _. by split_and!.
    + unfold handle in Hend.
      rewrite (proj2 (notify_store _ _ _)) in Hend. simpl in Hend.
      destruct (mu s); simpl in Hend; [|done]. injection Hend as <-.
      exact (notify_settled (Rev st1) (txnEvents (changes st1))
               (getChanges st1).2 s k w Hwf eq_refl Hm).
  - intros store_DeleteRange n rev s' Hdel Hn Hrev.
    destruct (DeleteRange_Done _ _ _ _ _ Hdel Hn)
      as (_ & st1 & change & Hst & Hlen & Hlast & ->).
    rewrite Hst in Hrev. rewrite Hst. simpl in Hrev. simpl.
    exists change. split; [done|]. intros k w Hm.
    assert (Z.to_nat n = length (changes st1)) as -> by lia.
    pose proof (notify_settled rev
                  (replicate (length (changes st1))
                     {| Typ := DELETE; Kv := change |})
                  (getChanges st1).2 s k w Hwf Hrev Hm) as Hset.
    split; [exact Hset|]. intros Hspec Hnm.
    destruct Hset as [_ Hstay]. rewrite filter_replicate in Hstay.
    rewrite decide_False in Hstay by done.
    destruct (Hstay eq_refl) as (Hmem & Hnu & Hsent).
    split_and!; [done|done|done|]. by apply not_settled.
Qed.

(** C3.  In every reachable store no watcher is at once in [unsynced] and in
    a bucket of [synced]. *)
Theorem partition_disjoint s w k :
  reachable s → ¬ (w ∈ unsynced s ∧ member (synced s) k w).
Proof.
  intros Hwf%reachable_wf [Hu Hm].
  destruct (wf_unsynced s Hwf w Hu) as [_ Hno]. by apply (Hno k).
Qed.

(** C9.  In a reachable store, when the closure [cancel] of a watcher has
    run, running it again changes nothing: the watcher is in neither
    partition and the second call returns the store it was given. *)
Theorem cancel_idempotent s wa (wr : watcher) s1 :
  reachable s → watchers s !! wa = Some wr →
  cancel wa (key wr) s = Done s1 →
  cancel wa (key wr) s1 = Done s1
  ∧ (wa ∉ unsynced s1) ∧ ∀ k, ¬ member (synced s1) k wa.
Proof.
  intros Hwf%reachable_wf Hwr. unfold cancel at 1.
  destruct (mu s) eqn:Hmu; [done|].
  assert (∀ k, member (synced s) k wa → k = key wr) as Hkey.
  { intros k Hm. destruct (wf_synced s Hwf k wa Hm) as (wr' & Hwr' & <-). congruence. }
  case_decide as Hu.
  - intros [= <-].
    assert (∀ k, ¬ member (synced s) k wa) as Hno
      by (intros k; by apply (wf_unsynced s Hwf wa Hu)).
    assert (wa ∉ unsynced s ∖ {[wa]}) as Hout
      by (rewrite elem_of_difference, elem_of_singleton; tauto).
    split_and!; [|done|done].
    unfold cancel. simpl. rewrite Hmu, decide_False by done.
    destruct (synced s !! key wr) as [v|] eqn:Hv; [|done].
    rewrite decide_False; [done|]. intros Hin. apply (Hno (key wr)). by exists v.
  - destruct (synced s !! key wr) as [v|] eqn:Hv.
    + case_decide as Hin.
      * case_decide as Hsz; intros [= <-].
        -- assert (∀ k, ¬ member (delete (key wr) (synced s)) k wa) as Hno.
           { intros k [Hne Hm]%member_delete. by apply Hne, Hkey. }
           split_and!; [|done|done].
           unfold cancel. simpl. rewrite Hmu, decide_False by done.
           by rewrite lookup_delete_eq.
        -- assert (∀ k, ¬ member (<[key wr := v ∖ {[wa]}]> (synced s)) k wa) as Hno.
           { intros k [[_ Hd]|[Hne Hm]]%member_insert; [|by apply Hne, Hkey].
             apply elem_of_difference in Hd as [_ Hd]. apply Hd.
             by apply elem_of_singleton. }
           split_and!; [|done|done].
           unfold cancel. simpl. rewrite Hmu, decide_False by done.
           rewrite lookup_insert_eq. rewrite decide_False; [done|].
           rewrite elem_of_difference, elem_of_singleton. tauto.
      * intros [= <-]. split_and!; [|done|].
        -- unfold cancel. by rewrite Hmu, decide_False, Hv, decide_False.
        -- intros k Hm. pose proof (Hkey k Hm) as ->.
           destruct Hm as (v' & Hv' & ?). congruence.
    + intros [= <-]. split_and!; [|done|].
      * unfold cancel. by rewrite Hmu, decide_False, Hv.
      * intros k Hm. pose proof (Hkey k Hm) as ->.
        destruct Hm as (v' & Hv' & ?). congruence.
Qed.

(** C10.  The notifier leaves every watcher without a matching event as it
    was: a synced watcher that matches no event keeps its fields, its
    bucket, and is sent nothing; a watcher that is in [unsynced] when the
    notifier starts is in [unsynced] when it ends, with the same fields, in
    no bucket, and is sent nothing.  The embedded store and the mutex are
    not touched. *)
Theorem notify_frame (rev : Z) (evs : list Event) s :
  wf s →
  (∀ k w, member (synced s) k w → filter (matches (deref s w)) evs = [] →
     same_view s (notify rev evs s) w)
  ∧ (∀ w, w ∈ unsynced s →
       same_view s (notify rev evs s) w ∧ w ∈ unsynced (notify rev evs s))
  ∧ store_ (notify rev evs s) = store_ s
  ∧ mu (notify rev evs s) = mu s.
Proof.
  intros Hwf. split_and!; [| |apply notify_store..].
  - intros k w Hm Hnil.
    destruct (wf_registered s k w Hwf Hm) as [Hreg Hk].
    destruct (notify_view rev evs s w) as [Hin _];
      [intros ???; by apply wf_one_key|].
    specialize (Hin k Hm).
    rewrite (newWatcherToEventMap_lookup _ _ _ _ Hreg) in Hin.
    fold (deref s w) in Hin. by rewrite Hnil in Hin.
  - intros w Hu.
    destruct (notify_view rev evs s w) as [_ Hout];
      [intros ???; by apply wf_one_key|].
    assert (same_view s (notify rev evs s) w) as Hv.
    { apply Hout. intros k. by apply (wf_unsynced s Hwf w Hu). }
    split; [done|]. by apply (sv_unsynced _ _ _ Hv).
Qed.

End Claims.

Section ClaimsFanOut.
Context `{GoRange}.

Implicit Types (s : watchableStore) (w : ptr) (k : string).

(** Every watcher that the first loop of a sync pass keeps is registered
    under its key in [keyToUnsynced]. *)
Lemma collected_registered s s1 k2u prefixes w :
  collected s s1 k2u prefixes → w ∈ unsynced s1 → registered (watchers s) k2u w.
Proof.
  intros Hc Hw. unfold registered. fold (deref s w). split.
  - by apply (col_member _ _ _ _ Hc).
  - intros k [_ ->]%(col_member _ _ _ _ Hc). done.
Qed.

(** The test of the second loop drops no event that a kept watcher
    matches. *)
Lemma collected_relevant s s1 k2u prefixes w e :
  collected s s1 k2u prefixes → w ∈ unsynced s1 → matches (deref s w) e →
  relevant k2u prefixes e.
Proof.
  intros Hc Hw Hmatch [Hk Hp].
  assert (member k2u (key (deref s w)) w) as Hm by (by apply (col_member _ _ _ _ Hc)).
  destruct Hmatch as [Heq|[Hpre Hsp]].
  - destruct Hm as (wm & Hwm & _). congruence.
  - assert (matchPrefix (Key (Kv e)) prefixes = true) as Htrue; [|congruence].
    apply matchPrefix_true. exists (key (deref s w)). split; [|done].
    apply (col_prefixes _ _ _ _ Hc). by exists w.
Qed.

(** A watcher is a key of a watcher-to-events map without empty lists
    exactly when the map records an event for it. *)
Lemma is_Some_evlist (m : gmap ptr (list Event)) w :
  no_empty m → is_Some (m !! w) ↔ ∃ e, e ∈ evlist m w.
Proof.
  intros Hne. unfold evlist. destruct (m !! w) as [es|] eqn:Hes; simpl.
  - split; [|by eexists]. intros _. specialize (Hne w es Hes).
    destruct es as [|e es]; [done|]. exists e. left.
  - split; [by intros [? ?]|]. by intros [e ?%elem_of_nil].
Qed.

(** C2.  The fan-out map delivers the event [e] to the watcher [w] exactly
    when [e] is one of the events and the key of [w] is the key of [e], or
    [w] is a prefix watcher and its key is a byte prefix of the key of [e];
    and [w] is a key of the map exactly when there is such an event.

    On the hot path the watchers are those of [synced] and the events those
    of the mutation.  In a sync pass the watchers are the unsynced watchers
    that are not behind the compaction revision, no other watcher is a key
    of the map, and the events are those of the rows scanned from [minRev],
    the least [cur] of these watchers, up to the current revision.  On both
    paths a prefix watcher on the empty string is delivered every event. *)
Theorem fan_out_matches s :
  wf s →
  (∀ evs k w e, member (synced s) k w →
     e ∈ evlist (newWatcherToEventMap (watchers s) (synced s) evs) w
     ↔ e ∈ evs ∧ matches (deref s w) e)
  ∧ (∀ evs k w, member (synced s) k w →
       is_Some (newWatcherToEventMap (watchers s) (synced s) evs !! w)
       ↔ ∃ e, e ∈ evs ∧ matches (deref s w) e)
  ∧ (∀ evs k w e, member (synced s) k w →
       key (deref s w) = "" → prefix (deref s w) = true → e ∈ evs →
       e ∈ evlist (newWatcherToEventMap (watchers s) (synced s) evs) w)
  ∧ (∀ we s1, syncFanOut s = Done (we, s1) →
       ∃ minRev,
         (∀ w, w ∈ unsynced s → ¬ compacted s w → minRev ≤ cur (deref s w))
         ∧ (minRev = MaxInt64
            ∨ ∃ w, w ∈ unsynced s ∧ ¬ compacted s w
                   ∧ minRev = cur (deref s w))
         ∧ (∀ w, is_Some (we !! w) → w ∈ unsynced s ∧ ¬ compacted s w)
         ∧ (∀ w e, w ∈ unsynced s → ¬ compacted s w →
              e ∈ evlist we w
              ↔ e ∈ omap rowEvent
                      (UnsafeRange (b (store_ s)) minRev
                         (int64 (main (currentRev (store_ s)) + 1)))
                ∧ matches (deref s w) e)
         ∧ (∀ w, w ∈ unsynced s → ¬ compacted s w →
              is_Some (we !! w)
              ↔ ∃ e, e ∈ omap rowEvent
                           (UnsafeRange (b (store_ s)) minRev
                              (int64 (main (currentRev (store_ s)) + 1)))
                     ∧ matches (deref s w) e)
         ∧ (∀ w e, w ∈ unsynced s → ¬ compacted s w →
              key (deref s w) = "" → prefix (deref s w) = true →
              e ∈ omap rowEvent
                    (UnsafeRange (b (store_ s)) minRev
                       (int64 (main (currentRev (store_ s)) + 1))) →
              e ∈ evlist we w)).
Proof.
  intros Hwf.
  assert (∀ evs k w e, member (synced s) k w →
     e ∈ evlist (newWatcherToEventMap (watchers s) (synced s) evs) w
     ↔ e ∈ evs ∧ matches (deref s w) e) as Hhot.
  { intros evs k w e Hm. destruct (wf_registered s k w Hwf Hm) as [Hreg _].
    rewrite newWatcherToEventMap_registered by done.
    rewrite list_elem_of_filter. fold (deref s w). tauto. }
  split_and!; [done| | |].
  - intros evs k w Hm.
    rewrite is_Some_evlist by apply newWatcherToEventMap_no_empty.
    split; intros (e & He); exists e; by apply (Hhot evs k w e Hm).
  - intros evs k w e Hm Hk Hp He. apply (Hhot evs k w e Hm). split; [done|].
    by apply matches_empty_prefix.
  - intros we s1 (minRev & k2u & prefixes & Hc & Hle & Hmin & ->)%syncFanOut_Done_min.
    exists minRev.
    assert (∀ w e, w ∈ unsynced s → ¬ compacted s w →
              e ∈ evlist (newWatcherToEventMap (watchers s) k2u
                            (filter (relevant k2u prefixes)
                               (omap rowEvent
                                  (UnsafeRange (b (store_ s)) minRev
                                     (int64 (main (currentRev (store_ s)) + 1))))))
                         w
              ↔ e ∈ omap rowEvent
                      (UnsafeRange (b (store_ s)) minRev
                         (int64 (main (currentRev (store_ s)) + 1)))
                ∧ matches (deref s w) e) as Hsync.
    { intros w e Hu Hnc.
      assert (w ∈ unsynced s1) as Hw by (by apply (col_unsynced _ _ _ _ Hc)).
      rewrite newWatcherToEventMap_registered by (by eapply collected_registered).
      fold (deref s w). rewrite !list_elem_of_filter. split; [tauto|].
      intros [? ?]. split_and!; [done| |done]. by eapply collected_relevant. }
    split_and!; [done|done| |done| |].
    + intros w Hsome. apply (col_unsynced _ _ _ _ Hc).
      destruct (decide (w ∈ unsynced s1)) as [|Hnw]; [done|].
      rewrite newWatcherToEventMap_not_member in Hsome; [by destruct Hsome|].
      intros k' [? _]%(col_member _ _ _ _ Hc). done.
    + intros w Hu Hnc.
      rewrite is_Some_evlist by apply newWatcherToEventMap_no_empty.
      split; intros (e & He); exists e; by apply (Hsync w e Hu Hnc).
    + intros w e Hu Hnc Hk Hp He. apply (Hsync w e Hu Hnc). split; [done|].
      by apply matches_empty_prefix.
Qed.

End ClaimsFanOut.

(** ** How a watcher enters [synced] *)

Section EnterSynced.
Context `{GoRange}.

Implicit Types (s : watchableStore) (w : ptr) (k : string).

Lemma notify_member rev evs s k w :
  wf s → member (synced (notify rev evs s)) k w → member (synced s) k w.
Proof.
  intros Hwf Hm.
  destruct (notify_view rev evs s w) as [Hin Hout];
    [intros ???; by apply wf_one_key|].
  destruct (decide (member (synced s) (key (deref s w)) w)) as [Hm0|Hno].
  - specialize (Hin _ Hm0). destruct (newWatcherToEventMap _ _ _ !! w).
    + destruct Hin as [(_ & _ & _ & Hs)|(_ & _ & _ & Hs)]; apply Hs in Hm; tauto.
    + by apply (sv_synced _ _ _ Hin).
  - assert (∀ k', ¬ member (synced s) k' w) as Hnone.
    { intros k' Hm'. apply Hno.
      by destruct (wf_registered s k' w Hwf Hm') as [_ ->]. }
    by apply (sv_synced _ _ _ (Hout Hnone)).
Qed.

Lemma cancel_member wa k0 s s' k w :
  cancel wa k0 s = Done s' → member (synced s') k w → member (synced s) k w.
Proof.
  unfold cancel. destruct (mu s); [done|].
  case_decide; [by intros [= <-]|].
  destruct (synced s !! k0) as [v|] eqn:Hv; [|by intros [= <-]].
  case_decide; [|by intros [= <-]].
  case_decide; intros [= <-]; simpl.
  - by intros [_ ?]%member_delete.
  - intros [[-> [Hw _]%elem_of_difference]|[_ ?]]%member_insert; [|done].
    by exists v.
Qed.

(** A watcher that [watch] puts into [synced] is the new watcher, registered
    with [startRev == 0]. *)
Lemma watch_member key prefix startRev id ch s wa c s' k w :
  watch key prefix startRev id ch s = Done (wa, c, s') →
  member (synced s') k w →
  member (synced s) k w
  ∨ (startRev = 0 ∧ w = wa ∧ k = key ∧ cur (deref s' wa) = 0).
Proof.
  unfold watch. destruct (mu s); [done|]. case_decide as Hrev.
  - destruct (unsafeAddWatcher _ _ _) as [err|m] eqn:Hadd; [done|].
    intros [= <- <- <-]. apply unsafeAddWatcher_inr in Hadd as (_ & _ & Hm).
    simpl. intros [Hold|[-> ->]]%Hm; [by left|]. right.
    split_and!; try done. unfold deref. simpl.
    by rewrite lookup_total_insert_eq.
  - intros [= <- <- <-]. simpl. by left.
Qed.

(** A sync pass that ends found no unsynced watcher ahead of the store. *)
Lemma syncWatchers_cur s s' w :
  syncWatchers s = Done s' → w ∈ unsynced s →
  cur (deref s w) ≤ Rev (store_ s).
Proof.
  unfold syncWatchers. case_decide as Hsz.
  { intros _ Hw. apply size_empty_iff, leibniz_equiv in Hsz.
    rewrite Hsz in Hw. by apply not_elem_of_empty in Hw. }
  destruct (syncFanOut s) as [[we s1]| |] eqn:Hfan; simpl; try done.
  intros _ Hw.
  apply syncFanOut_Done in Hfan as (minRev & k2u & prefixes & Hc & _ & _).
  by apply (col_cur _ _ _ _ Hc).
Qed.

End EnterSynced.

Section ClaimsCur.
Context `{GoRange}.

Implicit Types (s : watchableStore) (w : ptr) (k : string).

(** C4, as amended.  Membership of [synced] does not put [cur] above the
    current revision.  A call brings a watcher into [synced] in two ways
    only: [watch] with [startRev == 0] registers a new watcher, whose [cur]
    is [0]; a sync pass promotes a watcher of [unsynced], whose [cur] stays
    what it was and is at most the current revision of the store. *)
Theorem synced_entry_cur (o : op) s s' k w :
  wf s → exec o s = Done s' →
  (∀ k', ¬ member (synced s) k' w) → member (synced s') k w →
  ((∃ key prefix id ch, o = OWatch key prefix 0 id ch) ∧ cur (deref s' w) = 0)
  ∨ (o = OSync ∧ w ∈ unsynced s ∧ cur (deref s' w) = cur (deref s w)
     ∧ cur (deref s' w) ≤ Rev (store_ s')).
Proof.
  intros Hwf Hexec Hno Hm. destruct o; simpl in Hexec.
  - injection Hexec as <-. by apply Hno in Hm.
  - injection Hexec as <-. by apply Hno in Hm.
  - destruct (watch _ _ _ _ _ s) as [[[wa c] s1]| |] eqn:Hw; simpl in Hexec; try done.
    injection Hexec as <-.
    destruct (watch_member _ _ _ _ _ _ _ _ _ _ _ Hw Hm) as [Hold|(-> & -> & -> & Hcur)];
      [by apply Hno in Hold|].
    left. split; [by eauto|done].
  - destruct (watchers s !! wa) as [wr|]; [|injection Hexec as <-; by apply Hno in Hm].
    apply (cancel_member _ _ _ _ _ _ Hexec) in Hm. by apply Hno in Hm.
  - unfold Put in Hexec. destruct (mu s); [done|].
    destruct (store_Put (store_ s)) as [rev st1]. simpl in Hexec.
    destruct (changes st1) as [|change [|? ?]]; simpl in Hexec; try done.
    injection Hexec as <-. apply notify_member in Hm;
      [by apply Hno in Hm|by apply (wf_same_registry s)].
  - unfold DeleteRange in Hexec. destruct (mu s); [done|].
    destruct (store_DeleteRange (store_ s)) as [[n rev] st1]. simpl in Hexec.
    case_decide; [done|]. case_decide; simpl in Hexec; injection Hexec as <-.
    + by apply Hno in Hm.
    + apply notify_member in Hm;
        [by apply Hno in Hm|by apply (wf_same_registry s)].
  - unfold TxnBegin in Hexec. destruct (mu s); [done|].
    destruct (store_TxnBegin (store_ s)) as [txnID' st1]. simpl in Hexec.
    injection Hexec as <-. by apply Hno in Hm.
  - unfold TxnEnd in Hexec.
    destruct (store_TxnEnd txnID (store_ s)) as [[err|] st1]; simpl in Hexec.
    + injection Hexec as <-. by apply Hno in Hm.
    + case_decide; unfold Unlock in Hexec.
      * simpl in Hexec. destruct (mu s); simpl in Hexec; [|done].
        injection Hexec as <-. by apply Hno in Hm.
      * destruct (mu (handle _ _ _)); simpl in Hexec; [|done].
        injection Hexec as <-. simpl in Hm. apply notify_member in Hm;
          [by apply Hno in Hm|by apply (wf_same_registry s)].
  - unfold syncWatchersLoop_turn in Hexec. destruct (mu s); [done|]. right.
    destruct (syncWatchers_view s s' w Hexec) as (Hout & Hcomp & Hlive).
    destruct (syncWatchers_watchers s s' Hexec) as (Hw & Hst & _).
    destruct (decide (w ∈ unsynced s)) as [Hu|Hu].
    + split_and!; [done|done| |].
      * unfold deref. by rewrite Hw.
      * unfold deref. rewrite Hw, Hst. by eapply syncWatchers_cur.
    + apply (sv_synced _ _ _ (Hout Hu)) in Hm. by apply Hno in Hm.
  - injection Hexec as <-. exfalso. apply (Hno k).
    unfold recv in Hm. by destruct (chans s !! c).
  - injection Hexec as <-. by apply Hno in Hm.
Qed.

End ClaimsCur.

Section ClaimsSync.
Context `{GoRange}.

Implicit Types (s : watchableStore) (w : ptr) (k : string).

(** One turn of the first loop of a sync pass. *)
Lemma collect_cases (curRev compRev : Z) (x : ptr)
    (acc : Z * gmap string (gset ptr) * gset string * watchableStore) :
  (cur (deref acc.2 x) > curRev
   ∧ collect curRev compRev acc x
     = Panic "watcher current revision should not exceed current revision")
  ∨ (¬ cur (deref acc.2 x) > curRev
     ∧ ∃ acc', collect curRev compRev acc x = Done acc'
               ∧ watchers acc'.2 = watchers acc.2).
Proof.
  destruct acc as [[[mr m] ps] sa]. simpl. unfold collect.
  case_decide as Hp; [by left|]. right. split; [done|].
  case_decide; eexists; (split; [done|done]).
Qed.

(** The first loop of a sync pass ends the process when it meets a watcher
    whose [cur] is above the current revision. *)
Lemma collect_loop_panic (curRev compRev : Z) s wa (l : list ptr)
    (acc : Z * gmap string (gset ptr) * gset string * watchableStore) :
  watchers acc.2 = watchers s → wa ∈ l → cur (deref s wa) > curRev →
  foldlM (collect curRev compRev) acc l
  = Panic "watcher current revision should not exceed current revision".
Proof.
  intros Hw Hin Hcur. revert acc Hw.
  induction l as [|x l IH]; intros acc Hw; [by apply elem_of_nil in Hin|].
  cbn [foldlM].
  destruct (collect_cases curRev compRev x acc) as [[_ ->]|(Hok & acc' & -> & Hw')];
    [done|].
  simpl. apply elem_of_cons in Hin as [->|Hin].
  - exfalso. apply Hok. unfold deref in *. by rewrite Hw.
  - apply IH; [done|congruence].
Qed.

(** C6, what the code does.  A watcher registered with [startRev] equal to
    the current revision plus one goes to [unsynced] with that [cur], and the
    next turn of the sync loop ends the process; a watcher registered with
    [startRev == 0] in a store without unsynced watchers goes to [synced] and
    the next turn of the sync loop returns. *)
Theorem watch_next_revision_panics key prefix id ch s :
  mu s = false → 0 ≤ Rev (store_ s) →
  (∀ wa c s', watch key prefix (Rev (store_ s) + 1) id ch s = Done (wa, c, s') →
     wa ∈ unsynced s'
     ∧ syncWatchersLoop_turn s'
       = Panic "watcher current revision should not exceed current revision")
  ∧ (∀ wa c s', unsynced s = ∅ →
       watch key prefix 0 id ch s = Done (wa, c, s') →
       member (synced s') key wa ∧ syncWatchersLoop_turn s' = Done s').
Proof.
  intros Hmu Hrev. split.
  - intros wa c s'. unfold watch. rewrite Hmu.
    rewrite decide_False by lia. intros [= <- <- <-].
    set (wa := fresh _).
    set (s' := set_unsynced _ _).
    assert (wa ∈ unsynced s') as Hin
      by (simpl; by apply elem_of_union_l, elem_of_singleton).
    split; [done|].
    assert (size (unsynced s') ≠ 0%nat) as Hsz.
    { intros Hsz%size_empty_iff. rewrite Hsz in Hin.
      by apply not_elem_of_empty in Hin. }
    assert (mu s' = false) as Hmu' by done.
    unfold syncWatchersLoop_turn. rewrite Hmu'.
    unfold syncWatchers. rewrite decide_False by done.
    unfold syncFanOut.
    rewrite (collect_loop_panic _ _ s' wa); [done|done|by apply range_set_elem|].
    unfold deref, s'. simpl. rewrite lookup_total_insert_eq. simpl.
    unfold Rev in *. lia.
  - intros wa c s' Hu. unfold watch. rewrite Hmu, decide_True by done.
    destruct (unsafeAddWatcher _ _ _) as [err|m] eqn:Hadd; [done|].
    intros [= <- <- <-]. apply unsafeAddWatcher_inr in Hadd as (_ & _ & Hm).
    split; [apply Hm; by right|].
    unfold syncWatchersLoop_turn, syncWatchers. simpl. rewrite Hmu, Hu.
    by rewrite decide_True.
Qed.

(** C7, what the code does.  A sync pass that returns removes from
    [unsynced] every watcher whose [cur] is below the compaction revision,
    puts it in no bucket and sends nothing for it; a watcher whose [cur] is
    not below the compaction revision is not dropped: it stays in [unsynced]
    or is promoted to [synced]. *)
Theorem syncWatchers_drops_compacted s s' w :
  syncWatchers s = Done s' → w ∈ unsynced s →
  (compacted s w →
     (w ∉ unsynced s')
     ∧ sent_to s' w = sent_to s w
     ∧ ∀ k, member (synced s') k w ↔ member (synced s) k w)
  ∧ (¬ compacted s w →
     w ∈ unsynced s' ∨ member (synced s') (key (deref s w)) w).
Proof.
  intros Hsync Hu.
  destruct (syncWatchers_view s s' w Hsync) as (_ & Hcomp & Hlive). split.
  - intros Hc. destruct (Hcomp Hu Hc) as (Hsent & _ & Hout & Hs). done.
  - intros Hc. destruct (Hlive Hu Hc) as [Hv|(es & _ & _ & _ & _ & Hs)].
    + left. by apply (sv_unsynced _ _ _ Hv).
    + right. apply Hs. by right.
Qed.

(** C8.  While the mutex is held by a transaction, a [TxnEnd] that the
    embedded store accepts with no changes releases the mutex and does
    nothing else; with changes it calls the notifier once, with the current
    revision of the store and one event for each change, in order, and then
    releases the mutex: every response sent carries that revision and events
    of the batch, so that the events carry it too when the store stamped
    the changes with it. *)
Theorem TxnEnd_notifies_once
    (store_TxnEnd : Z → store → option string * store) (txnID : Z) s st1 :
  mu s = true → store_TxnEnd txnID (store_ s) = (None, st1) →
  (changes st1 = [] →
     TxnEnd store_TxnEnd txnID s
     = Done (None, set_mu false (set_store (getChanges st1).2 s)))
  ∧ (changes st1 ≠ [] →
     TxnEnd store_TxnEnd txnID s
     = Done (None, set_mu false
                     (notify (Rev st1) (txnEvents (changes st1))
                        (set_store (getChanges st1).2 s)))
     ∧ Kv <$> txnEvents (changes st1) = changes st1
     ∧ ∃ new,
         sent (notify (Rev st1) (txnEvents (changes st1))
                 (set_store (getChanges st1).2 s)) = sent s ++ new
         ∧ ∀ w r, (w, r) ∈ new →
             Revision r = Rev st1
             ∧ (∀ e, e ∈ Events r → Kv e ∈ changes st1)
             ∧ ((∀ c, c ∈ changes st1 → ModRevision c = Rev st1) →
                ∀ e, e ∈ Events r → ModRevision (Kv e) = Rev st1)).
Proof.
  intros Hmu Hend.
  assert (Kv <$> txnEvents (changes st1) = changes st1) as Hkv.
  { unfold txnEvents. rewrite <-list_fmap_compose.
    induction (changes st1) as [|c l IH]; [done|].
    cbn [fmap list_fmap]. f_equal; [|done]. simpl. by destruct (Value c). }
  split.
  - intros Hnil. unfold TxnEnd. rewrite Hend. simpl. rewrite Hnil. simpl.
    unfold Unlock. simpl. by rewrite Hmu.
  - intros Hne. split_and!; [|done|].
    + unfold TxnEnd. rewrite Hend. simpl.
      rewrite decide_False by (by destruct (changes st1)).
      unfold Unlock, handle.
      rewrite (proj2 (notify_store _ _ _)). simpl. by rewrite Hmu.
    + destruct (notify_sent (Rev st1) (txnEvents (changes st1))
                  (set_store (getChanges st1).2 s)) as (new & Hsent & Hnew).
      exists new. split; [done|]. intros w r Hin.
      destruct (Hnew w r Hin) as [Hrev Hes].
      assert (∀ e, e ∈ Events r → Kv e ∈ changes st1) as Hsub.
      { intros e He. rewrite <-Hkv. apply list_elem_of_fmap_2.
        by eapply newWatcherToEventMap_sub. }
      split_and!; [done|done|]. intros Hstamp e He. by apply Hstamp, Hsub.
Qed.

End ClaimsSync.

(** * Further properties of the code *)

(** ** The helpers of the registry *)

Section MoreHelpers.
Context `{GoRange}.

Implicit Types (s : watchableStore) (w : ptr) (k : string).

Lemma String_prefix_append (p key : string) :
  String.prefix p key = true ↔ ∃ r, key = String.append p r.
Proof.
  revert key. induction p as [|a p IH]; intros key.
  - split; [|by destruct key]. intros _. by exists key.
  - destruct key as [|c key]; simpl.
    + split; [done|]. intros (r & Hr). done.
    + destruct (Ascii.ascii_dec a c) as [->|Hne].
      * rewrite IH. split; intros (r & Hr); exists r; [by rewrite Hr|by injection Hr].
      * split; [done|]. intros (r & [= ? ?]). done.
Qed.

(** X1.  [unsafeAddWatcher] returns an error exactly for the [nil] watcher
    and for a watcher that is in the bucket of [k] already; otherwise it
    returns the map with the watcher added to the bucket of [k]: [k] becomes
    a key, the other buckets are the ones of before. *)
Theorem unsafeAddWatcher_spec (sm : gmap string (gset ptr)) k wa :
  match unsafeAddWatcher sm k wa with
  | inl _ => wa = nil ∨ member sm k wa
  | inr m =>
      wa ≠ nil ∧ (¬ member sm k wa)
      ∧ m !! k = Some ({[wa]} ∪ default ∅ (sm !! k))
      ∧ ∀ k', k' ≠ k → m !! k' = sm !! k'
  end.
Proof.
  destruct (unsafeAddWatcher sm k wa) as [err|m] eqn:Hadd.
  - by eapply unsafeAddWatcher_inl.
  - pose proof (unsafeAddWatcher_inr _ _ _ _ Hadd) as (Hnil & Hnot & _).
    split_and!; [done|done| |].
    + unfold unsafeAddWatcher in Hadd. rewrite decide_False in Hadd by done.
      destruct (sm !! k) as [v|]; simpl.
      * case_decide; [done|]. injection Hadd as <-. apply lookup_insert_eq.
      * injection Hadd as <-. rewrite lookup_insert_eq. f_equal.
        by rewrite (right_id_L ∅ (∪)).
    + intros k' Hne. unfold unsafeAddWatcher in Hadd.
      rewrite decide_False in Hadd by done.
      destruct (sm !! k) as [v|].
      * case_decide; [done|]. injection Hadd as <-. by rewrite lookup_insert_ne.
      * injection Hadd as <-. by rewrite lookup_insert_ne.
Qed.

(** X2.  [matchPrefix] answers whether the key starts with one of the
    prefixes, whatever the order in which [range] visits them: it is [true]
    exactly when the key is some prefix of the set followed by a rest. *)
Theorem matchPrefix_spec (key : string) (prefixes : gset string) :
  matchPrefix key prefixes = true
  ↔ ∃ p r, p ∈ prefixes ∧ key = String.append p r.
Proof.
  rewrite matchPrefix_true. split.
  - intros (p & Hin & (r & Hr)%String_prefix_append). eauto.
  - intros (p & r & Hin & Hr). exists p. split; [done|].
    apply String_prefix_append. eauto.
Qed.

(** A watcher with events in the fan-out map is in a bucket of the
    registry. *)
Lemma newWatcherToEventMap_key_member h sm (evs es : list Event) w :
  newWatcherToEventMap h sm evs !! w = Some es → ∃ k, member sm k w.
Proof.
  intros Hes.
  pose proof (newWatcherToEventMap_no_empty h sm evs w es Hes) as Hne.
  assert (evlist (newWatcherToEventMap h sm evs) w = es) as Hev
    by (unfold evlist; by rewrite Hes).
  rewrite newWatcherToEventMap_evlist in Hev.
  destruct es as [|e es]; [done|].
  assert (e ∈ evs ≫= λ ev, replicate (hits h sm ev w) ev) as Hin
    by (rewrite Hev; left).
  apply list_elem_of_bind in Hin as (ev & Hrep & _).
  apply elem_of_replicate in Hrep as [_ Hhits]. unfold hits in Hhits.
  destruct (filter _ _) as [|i l] eqn:Hf; [done|].
  assert (i ∈ filter (λ i, visits h sm ev w i = true)
               (seq 0 (S (String.length (Key (Kv ev)))))) as Hi
    by (rewrite Hf; left).
  apply list_elem_of_filter in Hi as [[Hm _]%visits_member _]. eauto.
Qed.

(** X4.  A key of the fan-out map is a watcher of some bucket of the
    registry, and its list is never empty and holds events of the batch
    only; for a watcher that the registry holds under its own key, the list
    is the matching events of the batch, each once, in the order of the
    batch. *)
Theorem newWatcherToEventMap_keys h sm (evs es : list Event) w :
  newWatcherToEventMap h sm evs !! w = Some es →
  es ≠ [] ∧ (∃ k, member sm k w) ∧ (∀ e, e ∈ es → e ∈ evs)
  ∧ (registered h sm w → es = filter (matches (h !!! w)) evs).
Proof.
  intros Hes. split_and!.
  - by eapply newWatcherToEventMap_no_empty.
  - by eapply newWatcherToEventMap_key_member.
  - intros e. by eapply newWatcherToEventMap_sub.
  - intros Hreg. rewrite <-(newWatcherToEventMap_registered h sm evs w Hreg).
    unfold evlist. by rewrite Hes.
Qed.

End MoreHelpers.

(** X3.  The fan-out map does not depend on the order in which [range]
    visits the buckets: two orders give the same map. *)
Theorem newWatcherToEventMap_order (O1 O2 : GoRange) h sm (evs : list Event) :
  @newWatcherToEventMap O1 h sm evs = @newWatcherToEventMap O2 h sm evs.
Proof.
  apply map_eq. intros w.
  rewrite (@evlist_lookup _ w (@newWatcherToEventMap_no_empty O1 h sm evs)).
  rewrite (@evlist_lookup _ w (@newWatcherToEventMap_no_empty O2 h sm evs)).
  by rewrite !newWatcherToEventMap_evlist.
Qed.

(** ** Registration and cancellation *)

Lemma gset_add_remove (X : gset ptr) (a : ptr) : a ∉ X → ({[a]} ∪ X) ∖ {[a]} = X.
Proof.
  intros Ha. apply set_eq. intros x.
  rewrite elem_of_difference, elem_of_union, elem_of_singleton. split.
  - intros [[?|?] ?]; done.
  - intros Hx. split; [by right|]. intros ->. done.
Qed.

Section MoreWatch.
Context `{GoRange}.

Implicit Types (s : watchableStore) (w : ptr) (k : string).

(** X5.  In a store that keeps the registry invariant and whose mutex is
    free, [watch] does not panic: it returns a watcher at an address that is
    not [nil] and was not in use, with the fields it was given and
    [cur = startRev]; the watcher is in the bucket of its key when
    [startRev == 0] and in [unsynced] otherwise, and every other watcher is
    as it was. *)
Theorem watch_registers key prefix startRev id ch s :
  wf s → mu s = false →
  ∃ wa c s',
    watch key prefix startRev id ch s = Done (wa, c, s')
    ∧ wa ≠ nil ∧ watchers s !! wa = None
    ∧ watchers s' !! wa
      = Some {| key := key; prefix := prefix; cur := startRev; id := id; ch := ch |}
    ∧ (startRev = 0 →
       member (synced s') key wa ∧ unsynced s' = unsynced s)
    ∧ (startRev ≠ 0 →
       wa ∈ unsynced s' ∧ synced s' = synced s)
    ∧ ∀ w, w ≠ wa → same_view s s' w.
Proof.
  intros Hwf Hmu. unfold watch. rewrite Hmu.
  set (wa := fresh _).
  assert (wa ≠ nil ∧ watchers s !! wa = None) as [Hnil Hfresh].
  { pose proof (is_fresh ({[nil]} ∪ dom (watchers s))) as Hf. fold wa in Hf.
    split.
    - intros Heq. apply Hf, elem_of_union_l. by apply elem_of_singleton.
    - apply not_elem_of_dom. intros Hin. by apply Hf, elem_of_union_r. }
  assert (∀ k, ¬ member (synced s) k wa) as Hnew.
  { intros k Hm. destruct (wf_synced s Hwf k wa Hm) as (wr & Hwr & _). congruence. }
  case_decide as Hrev.
  - destruct (unsafeAddWatcher _ _ _) as [err|m] eqn:Hadd.
    { apply unsafeAddWatcher_inl in Hadd as [?|Hm]; [done|]. by apply Hnew in Hm. }
    apply unsafeAddWatcher_inr in Hadd as (_ & _ & Hm). simpl in Hm.
    eexists wa, _, _. split_and!; [done|done|done| | | |].
    + simpl. apply lookup_insert_eq.
    + intros _. split; [|done]. apply Hm. by right.
    + done.
    + intros w Hne. split; simpl.
      * by rewrite lookup_insert_ne.
      * done.
      * intros k. rewrite Hm. split; [|by left]. intros [?|[_ ?]]; done.
      * done.
  - eexists wa, _, _. split_and!; [done|done|done| | | |].
    + simpl. apply lookup_insert_eq.
    + done.
    + intros _. split; [|done]. simpl. by apply elem_of_union_l, elem_of_singleton.
    + intros w Hne. split; simpl.
      * by rewrite lookup_insert_ne.
      * rewrite elem_of_union, elem_of_singleton. split; [intros [?|?]; done|tauto].
      * done.
      * done.
Qed.

(** X6.  Registering a watcher and running the closure that [watch]
    returned leaves both partitions as they were, provided the bucket of the
    key was not an empty bucket before (the closure would remove it). *)
Theorem watch_cancel_round_trip key prefix startRev id ch s wa c s' :
  wf s → synced s !! key ≠ Some ∅ →
  watch key prefix startRev id ch s = Done (wa, c, s') →
  ∃ s'', c s' = Done s''
         ∧ synced s'' = synced s ∧ unsynced s'' = unsynced s.
Proof.
  intros Hwf Hne. unfold watch. destruct (mu s) eqn:Hmu; [done|].
  set (wa0 := fresh _).
  assert (wa0 ≠ nil ∧ watchers s !! wa0 = None) as [Hnil Hfresh].
  { pose proof (is_fresh ({[nil]} ∪ dom (watchers s))) as Hf. fold wa0 in Hf.
    split.
    - intros Heq. apply Hf, elem_of_union_l. by apply elem_of_singleton.
    - apply not_elem_of_dom. intros Hin. by apply Hf, elem_of_union_r. }
  assert (∀ k, ¬ member (synced s) k wa0) as Hnew.
  { intros k Hm. destruct (wf_synced s Hwf k wa0 Hm) as (wr & Hwr & _). congruence. }
  assert (wa0 ∉ unsynced s) as Hnew'.
  { intros Hin. destruct (wf_unsynced s Hwf wa0 Hin) as [[wr Hwr] _]. congruence. }
  case_decide as Hrev.
  - unfold unsafeAddWatcher. rewrite decide_False by done. simpl.
    destruct (synced s !! key) as [v|] eqn:Hv.
    + assert (wa0 ∉ v) as Hnv by (intros Hin; apply (Hnew key); by exists v).
      rewrite decide_False by done. intros [= <- <- <-].
      unfold cancel. simpl. rewrite Hmu, decide_False by done.
      rewrite lookup_insert_eq, decide_True
        by (by apply elem_of_union_l, elem_of_singleton).
      assert (({[wa0]} ∪ v) ∖ {[wa0]} = v) as -> by (by apply gset_add_remove).
      rewrite decide_False.
      2:{ intros Hsz%size_empty_iff%leibniz_equiv. by subst v. }
      eexists. split; [done|]. simpl. split; [|done].
      rewrite insert_insert_eq. by apply insert_id.
    + intros [= <- <- <-].
      unfold cancel. simpl. rewrite Hmu, decide_False by done.
      rewrite lookup_insert_eq, decide_True by (by apply elem_of_singleton).
      assert (({[wa0]} : gset ptr) ∖ {[wa0]} = ∅) as -> by apply difference_diag_L.
      rewrite decide_True by apply size_empty.
      eexists. split; [done|]. simpl. split; [|done].
      rewrite delete_insert_eq. by apply delete_id.
  - intros [= <- <- <-]. unfold cancel. simpl. rewrite Hmu.
    rewrite decide_True by (by apply elem_of_union_l, elem_of_singleton).
    eexists. split; [done|]. simpl. split; [done|]. by apply gset_add_remove.
Qed.

(** X7.  The closure [cancel] touches the two partitions only, and in them
    its own watcher only: the heap, the channels, the responses sent, the
    embedded store and the mutex are the ones of before, and every other
    watcher is as it was. *)
Theorem cancel_frame wa k s s' :
  cancel wa k s = Done s' →
  watchers s' = watchers s ∧ chans s' = chans s ∧ sent s' = sent s
  ∧ store_ s' = store_ s ∧ mu s' = mu s
  ∧ ∀ w, w ≠ wa → same_view s s' w.
Proof.
  unfold cancel. destruct (mu s) eqn:Hmu; [done|].
  case_decide as Hu.
  - intros [= <-]. split_and!; try done. intros w Hne. split; simpl; try done.
    rewrite elem_of_difference, elem_of_singleton. tauto.
  - destruct (synced s !! k) as [v|] eqn:Hv.
    2:{ intros [= <-]. split_and!; try done; intros; apply same_view_refl. }
    case_decide as Hin.
    2:{ intros [= <-]. split_and!; try done; intros; apply same_view_refl. }
    assert (∀ w k', w ≠ wa →
              member (<[k := v ∖ {[wa]}]> (synced s)) k' w ↔ member (synced s) k' w)
      as Hins.
    { intros w k' Hne. rewrite member_insert, elem_of_difference, elem_of_singleton.
      unfold member. split.
      - intros [[-> [? _]]|[_ ?]]; [by exists v|done].
      - intros (wm & Hwm & Hw). destruct (decide (k' = k)) as [->|Hk].
        + left. split; [done|]. split; [congruence|done].
        + right. split; [done|]. by exists wm. }
    case_decide as Hsz; intros [= <-]; (split_and!; try done);
      intros w Hne; (split; simpl; try done); intros k'.
    + rewrite member_delete. split; [tauto|]. intros Hm. split; [|done].
      intros ->. destruct Hm as (wm & Hwm & Hw).
      apply size_empty_iff, leibniz_equiv in Hsz.
      assert (w ∈ v ∖ {[wa]}) as Hin'
        by (rewrite elem_of_difference, elem_of_singleton; split; [congruence|done]).
      rewrite Hsz in Hin'. by apply not_elem_of_empty in Hin'.
    + by apply Hins.
Qed.

End MoreWatch.

(** ** The notifier and the channels *)

Section MoreNotify.
Context `{GoRange}.

Implicit Types (s : watchableStore) (w : ptr) (k : string) (c : chan).

Lemma trySend_full w c r s : full s c → trySend w c r s = None.
Proof.
  unfold full, trySend. destruct (chans s !! c) as [q|]; [|done].
  intros Hfull. rewrite decide_False; [done|lia].
Qed.

Lemma trySend_room w c r s q :
  chans s !! c = Some q → (length (buf q) < cap q)%nat →
  is_Some (trySend w c r s).
Proof. unfold trySend. intros -> Hroom. by rewrite decide_True. Qed.

(** A turn of the notifier leaves a full channel full. *)
Lemma notify_watcher_full rev we k s w c :
  full s c → full (notify_watcher rev we k s w) c.
Proof.
  intros Hfull. unfold notify_watcher. destruct (we !! w) as [es|]; [|done].
  destruct (trySend _ _ _ s) as [s'|] eqn:Hsend; [|done].
  apply trySend_Some in Hsend as (q & Hq & Hroom & ->).
  unfold full in *. simpl.
  destruct (decide (c = ch (deref s w))) as [->|Hne].
  - rewrite Hq in Hfull. lia.
  - by rewrite lookup_insert_ne.
Qed.

(** The loop of the notifier seen from one watcher, with a property of the
    store that the turns of the other watchers keep. *)
Lemma notify_loop_view_inv rev we (Q : watchableStore → Prop)
    (l : list (string * ptr)) s k w :
  NoDup l.*2 → (k, w) ∈ l → Q s →
  (∀ s' k' w', (k', w') ∈ l → w' ≠ w → Q s' →
     Q (notify_watcher rev we k' s' w')) →
  ∃ s1, Q s1 ∧ same_view s s1 w ∧ store_ s1 = store_ s
        ∧ same_view (notify_watcher rev we k s1 w)
                    (foldl (notify_turn rev we) s l) w.
Proof.
  revert s. induction l as [|[k0 w0] l IH]; intros s Hnd Hin HQ Hstep.
  - by apply elem_of_nil in Hin.
  - cbn [fmap list_fmap] in Hnd. apply NoDup_cons in Hnd as [Hw0 Hnd].
    cbn [foldl]. unfold notify_turn at 2. cbn [fst snd].
    apply elem_of_cons in Hin as [[= -> ->]|Hin].
    + exists s. split_and!; [done|apply same_view_refl|done|].
      by apply (notify_loop_view rev we l).
    + assert (w ≠ w0) as Hne.
      { intros ->. apply Hw0. apply list_elem_of_fmap. by exists (k, w0). }
      destruct (IH (notify_watcher rev we k0 s w0)) as (s1 & HQ1 & Hv & Hst & Hv');
        [done|done| | |].
      * apply Hstep; [left|done|done].
      * intros s' k' w' Hin'. apply Hstep. by right.
      * exists s1. split_and!; [done| |by rewrite Hst; apply notify_watcher_store|done].
        eapply same_view_trans; [by apply notify_watcher_other|done].
Qed.

(** X8.  A synced watcher with matching events whose channel has no room
    when the notifier starts is demoted: it ends in [unsynced] with
    [cur = rev], in no bucket, and nothing is sent for it. *)
Theorem notify_full_channel (rev : Z) (evs : list Event) s k w :
  wf s → member (synced s) k w →
  filter (matches (deref s w)) evs ≠ [] → full s (ch (deref s w)) →
  w ∈ unsynced (notify rev evs s)
  ∧ cur (deref (notify rev evs s) w) = rev
  ∧ (∀ k', ¬ member (synced (notify rev evs s)) k' w)
  ∧ sent_to (notify rev evs s) w = sent_to s w.
Proof.
  intros Hwf Hm Hne Hfull.
  destruct (wf_registered s k w Hwf Hm) as [Hreg Hk].
  pose proof (newWatcherToEventMap_lookup _ _ evs _ Hreg) as Hwe.
  fold (deref s w) in Hwe.
  destruct (filter _ evs) as [|e es] eqn:Hes; [done|].
  rewrite notify_turns. set (we := newWatcherToEventMap _ _ _) in *.
  destruct (notify_loop_view_inv rev we (λ s', full s' (ch (deref s w)))
              (turns (synced s)) s k w) as (s1 & Hfull1 & Hv & Hst & Hv').
  { apply turns_NoDup. intros ???. by apply wf_one_key. }
  { by apply turns_elem. }
  { done. }
  { intros s' k' w' _ _. apply notify_watcher_full. }
  assert (demoted s1 (notify_watcher rev we k s1 w) w k rev) as Hdem.
  { unfold notify_watcher. rewrite Hwe.
    rewrite trySend_full by (by rewrite (same_view_deref _ _ _ Hv)).
    by repeat split. }
  pose proof (moved_view _ _ _ _ _ _ _ Hv (demoted_moved _ _ _ _ _ Hdem) Hv')
    as (Hsent & Hw & Hu & Hs).
  split_and!; [done| |  |done].
  - unfold deref at 1. by rewrite (lookup_total_correct _ _ _ Hw).
  - intros k' [Hm' Hne']%Hs. apply Hne'. by eapply wf_one_key.
Qed.

(** X9.  A synced watcher with matching events whose channel has room when
    the notifier starts, and shares it with no other synced watcher that has
    matching events, is served: it is sent one response with its matching
    events and stays in its bucket. *)
Theorem notify_free_channel (rev : Z) (evs : list Event) s k w q :
  wf s → member (synced s) k w →
  filter (matches (deref s w)) evs ≠ [] →
  chans s !! ch (deref s w) = Some q → (length (buf q) < cap q)%nat →
  (∀ k' w', member (synced s) k' w' → w' ≠ w →
     ch (deref s w') = ch (deref s w) →
     filter (matches (deref s w')) evs = []) →
  sent_to (notify rev evs s) w
  = sent_to s w ++ [{| WatchID := id (deref s w);
                       Events := filter (matches (deref s w)) evs;
                       Revision := Rev (store_ s) |}]
  ∧ member (synced (notify rev evs s)) k w
  ∧ w ∉ unsynced (notify rev evs s).
Proof.
  intros Hwf Hm Hne Hq Hroom Halone.
  destruct (wf_registered s k w Hwf Hm) as [Hreg Hk].
  pose proof (newWatcherToEventMap_lookup _ _ evs _ Hreg) as Hwe.
  fold (deref s w) in Hwe.
  destruct (filter _ evs) as [|e es] eqn:Hes; [done|].
  assert (w ∉ unsynced s) as Hnu.
  { intros Hu. destruct (wf_unsynced s Hwf w Hu) as [_ Hno]. by apply (Hno k). }
  rewrite notify_turns. set (we := newWatcherToEventMap _ _ _) in *.
  set (c := ch (deref s w)) in *.
  destruct (notify_loop_view_inv rev we
              (λ s', chans s' !! c = chans s !! c
                     ∧ ∀ w', ch (deref s' w') = ch (deref s w'))
              (turns (synced s)) s k w) as (s1 & [Hc1 Hch1] & Hv & Hst & Hv').
  { apply turns_NoDup. intros ???. by apply wf_one_key. }
  { by apply turns_elem. }
  { done. }
  { intros s' k' w' Hin%turns_elem Hw' [Hc Hch].
    destruct (decide (ch (deref s w') = c)) as [Heq|Hother].
    - destruct (wf_registered s k' w' Hwf Hin) as [Hreg' _].
      pose proof (newWatcherToEventMap_lookup _ _ evs _ Hreg') as Hwe'.
      fold (deref s w') in Hwe'. rewrite (Halone k' w' Hin Hw' Heq) in Hwe'.
      unfold notify_watcher. fold we in Hwe'. by rewrite Hwe'.
    - unfold notify_watcher. destruct (we !! w') as [es'|]; [|done].
      destruct (trySend _ _ _ s') as [s2|] eqn:Hsend.
      + apply trySend_Some in Hsend as (q' & _ & _ & ->). simpl. split.
        * rewrite lookup_insert_ne; [done|]. rewrite Hch. congruence.
        * done.
      + simpl. split; [done|]. intros w''. unfold deref at 1. simpl.
        destruct (decide (w'' = w')) as [->|Hne''].
        * rewrite lookup_total_insert_eq. simpl. apply Hch.
        * rewrite lookup_total_insert_ne by done. apply Hch. }
  assert (delivered s1 (notify_watcher rev we k s1 w) w (e :: es)) as Hdel.
  { unfold notify_watcher. rewrite Hwe.
    destruct (trySend_room w (ch (deref s1 w))
                {| WatchID := id (deref s1 w); Events := e :: es;
                   Revision := Rev (store_ s1) |} s1 q) as [s2 Hs2].
    - rewrite Hch1. fold c. by rewrite Hc1.
    - done.
    - rewrite Hs2. apply trySend_Some in Hs2 as (q' & _ & _ & ->).
      by repeat split. }
  pose proof (served_view _ _ _ _ _ _ Hv (delivered_served _ _ _ _ Hdel) Hv')
    as (Hsent & Hw & Hu & Hs).
  split_and!.
  - rewrite Hsent. unfold response.
    by rewrite (same_view_deref _ _ _ Hv), Hst.
  - by apply Hs.
  - by rewrite Hu.
Qed.

(** X10.  The notifier loses no watcher and no key: a watcher is in one of
    the two partitions after the call exactly when it was before, the keys of
    [synced] are the ones of before, no bucket gains a watcher, and
    [unsynced] loses none. *)
Theorem notify_keeps_watchers (rev : Z) (evs : list Event) s w :
  wf s →
  (registered_in (notify rev evs s) w ↔ registered_in s w)
  ∧ dom (synced (notify rev evs s)) = dom (synced s)
  ∧ (∀ k, member (synced (notify rev evs s)) k w → member (synced s) k w)
  ∧ (w ∈ unsynced s → w ∈ unsynced (notify rev evs s)).
Proof.
  intros Hwf.
  destruct (notify_view rev evs s w) as [Hin Hout];
    [intros ???; by apply wf_one_key|].
  split_and!; [|apply notify_dom|intros k; by apply notify_member|].
  - unfold registered_in.
    destruct (decide (member (synced s) (key (deref s w)) w)) as [Hm|Hno].
    + specialize (Hin _ Hm). destruct (newWatcherToEventMap _ _ _ !! w).
      * destruct Hin as [(_ & _ & Hu & Hs)|(_ & _ & Hu & Hs)].
        -- rewrite Hu. split; (intros [?|(k & Hk)]; [by left|right; exists k; by apply Hs]).
        -- split; [intros _; right; eauto|intros _; by left].
      * destruct Hin as [_ Hu Hs _]. rewrite Hu.
        split; (intros [?|(k & Hk)]; [by left|right; exists k; by apply Hs]).
    + assert (∀ k', ¬ member (synced s) k' w) as Hnone.
      { intros k' Hm'. apply Hno.
        by destruct (wf_registered s k' w Hwf Hm') as [_ ->]. }
      destruct (Hout Hnone) as [_ Hu Hs _]. rewrite Hu.
      split; (intros [?|(k & Hk)]; [by left|right; exists k; by apply Hs]).
  - intros Hu. apply (sv_unsynced s (notify rev evs s) w); [|done].
    apply Hout. intros k'. by apply (wf_unsynced s Hwf w Hu).
Qed.

End MoreNotify.

(** ** The sync pass *)

Section MoreSync.
Context `{GoRange}.

Implicit Types (s : watchableStore) (w : ptr) (k : string).

(** The first loop of a sync pass goes through when no watcher is ahead of
    the store. *)
Lemma collect_loop_done (curRev compRev : Z) s (l : list ptr)
    (acc : Z * gmap string (gset ptr) * gset string * watchableStore) :
  watchers acc.2 = watchers s →
  (∀ x, x ∈ l → cur (deref s x) ≤ curRev) →
  ∃ acc', foldlM (collect curRev compRev) acc l = Done acc'.
Proof.
  revert acc. induction l as [|x l IH]; intros acc Hw Hall; [by eexists|].
  cbn [foldlM].
  destruct (collect_cases curRev compRev x acc) as [[Hp _]|(_ & acc' & -> & Hw')].
  - exfalso. unfold deref in Hp. rewrite Hw in Hp.
    specialize (Hall x ltac:(left)). unfold deref in Hall. lia.
  - simpl. apply IH; [congruence|]. intros y Hy. apply Hall. by right.
Qed.

(** The second loop goes through when every row decodes. *)
Lemma decodeRow_loop_done k2u prefixes (rows : list row) (evs0 : list Event) :
  Forall (λ r, is_Some (rval r)) rows →
  ∃ evs, foldlM (decodeRow k2u prefixes) evs0 rows = Done evs.
Proof.
  intros Hall. revert evs0.
  induction Hall as [|r rows [kv Hr] _ IH]; intros evs0; [by eexists|].
  assert (∃ evs1, decodeRow k2u prefixes evs0 r = Done evs1) as [evs1 Hd].
  { unfold decodeRow. rewrite Hr. destruct (_ && _); by eexists. }
  cbn [foldlM]. rewrite Hd. simpl. apply IH.
Qed.

(** A turn of the third loop for a watcher of [unsynced] keeps the registry
    invariant. *)
Lemma promote_wf s w es s' :
  wf s → w ∈ unsynced s → promote s (w, es) = Done s' → wf s'.
Proof.
  intros Hwf Hu [->|Hp]%promote_cases; [done|].
  destruct (wf_unsynced s Hwf w Hu) as [Hal _].
  apply wf_wf_at. intros w'. pose proof (proj1 (wf_wf_at s) Hwf w') as Hat.
  destruct (decide (w' = w)) as [->|Hne].
  - eapply raised_wf_at; [by apply promoted_raised|done| |done].
    intros ->. destruct Hal as [wr Hwr]. by rewrite (wf_nil s Hwf) in Hwr.
  - eapply same_view_wf_at; [by eapply promoted_other|done].
Qed.

(** The third loop goes through over watchers of [unsynced]: the error of
    [unsafeAddWatcher] does not arise. *)
Lemma promote_loop_done (l : list (ptr * list Event)) s :
  wf s → NoDup l.*1 → (∀ w es, (w, es) ∈ l → w ∈ unsynced s) →
  ∃ s', foldlM promote s l = Done s'.
Proof.
  revert s. induction l as [|[w0 es0] l IH]; intros s Hwf Hnd Hin; [by eexists|].
  cbn [fmap list_fmap] in Hnd. apply NoDup_cons in Hnd as [Hw0 Hnd].
  assert (w0 ∈ unsynced s) as Hu by (apply (Hin w0 es0); left).
  assert (∃ s0, promote s (w0, es0) = Done s0) as [s0 Hp].
  { unfold promote. destruct (trySend _ _ _ s) as [s1|] eqn:Hsend; [|by eexists].
    apply trySend_Some in Hsend as (q & _ & _ & ->).
    destruct (unsafeAddWatcher _ _ _) as [err|m] eqn:Hadd; [|by eexists].
    exfalso. apply unsafeAddWatcher_inl in Hadd as [->|Hm].
    - destruct (wf_unsynced s Hwf nil Hu) as [[wr Hwr] _].
      by rewrite (wf_nil s Hwf) in Hwr.
    - by apply (wf_unsynced s Hwf w0 Hu) in Hm. }
  cbn [foldlM]. rewrite Hp. simpl. apply IH; [by eapply promote_wf|done|].
  intros w es Hwes.
  assert (w ≠ w0) as Hne.
  { intros ->. apply Hw0. apply list_elem_of_fmap. by exists (w0, es). }
  apply (sv_unsynced _ _ _ (promote_other _ _ _ _ _ Hp Hne)).
  apply (Hin w es). by right.
Qed.

(** X11.  In a store that keeps the registry invariant, a sync pass returns
    when no unsynced watcher has [cur] above the current revision and every
    row of the backend decodes: the panic of [unsafeAddWatcher] cannot
    happen. *)
Theorem syncWatchers_no_panic s :
  wf s →
  (∀ w, w ∈ unsynced s → cur (deref s w) ≤ Rev (store_ s)) →
  Forall (λ r, is_Some (rval r)) (b (store_ s)) →
  ∃ s', syncWatchers s = Done s'.
Proof.
  intros Hwf Hcur Hrows. unfold syncWatchers. case_decide; [by eexists|].
  unfold syncFanOut.
  destruct (collect_loop_done (main (currentRev (store_ s)))
              (compactMainRev (store_ s)) s (range_set (unsynced s))
              (MaxInt64, ∅, ∅, s)) as [[[[minRev k2u] prefixes] s1] Hc]; [done| |].
  { intros x Hx%range_set_elem. by apply Hcur. }
  rewrite Hc. simpl. pose proof (collect_loop _ _ _ _ _ _ Hc) as Hcol.
  assert (store_ s1 = store_ s ∧ watchers s1 = watchers s) as [Hst Hw]
    by (by rewrite (col_frame _ _ _ _ Hcol)).
  destruct (decodeRow_loop_done k2u prefixes
              (UnsafeRange (b (store_ s1)) minRev
                 (int64 (main (currentRev (store_ s)) + 1))) []) as [evs Hd].
  { rewrite Hst. apply Forall_forall. intros r [_ Hr]%list_elem_of_filter.
    by eapply Forall_forall in Hrows. }
  rewrite Hd. simpl. apply promote_loop_done.
  - by eapply collected_wf.
  - apply range_events_NoDup.
  - intros w es Hwes%range_events_elem.
    apply newWatcherToEventMap_key_member in Hwes as (k & Hm).
    by apply (col_member _ _ _ _ Hcol) in Hm as [? _].
Qed.

(** The first loop leaves no empty bucket in [keyToUnsynced]. *)
Lemma collect_loop_buckets (curRev compRev : Z) (l : list ptr)
    (acc acc' : Z * gmap string (gset ptr) * gset string * watchableStore) :
  (∀ k wm, acc.1.1.2 !! k = Some wm → wm ≠ ∅) →
  foldlM (collect curRev compRev) acc l = Done acc' →
  ∀ k wm, acc'.1.1.2 !! k = Some wm → wm ≠ ∅.
Proof.
  intros Hacc.
  apply (foldlM_invariant (λ a, ∀ k wm, a.1.1.2 !! k = Some wm → wm ≠ ∅)); [done|].
  clear. intros [[[mr m] ps] sa] x [[[mr' m'] ps'] sa'] _ Hm. simpl in *.
  unfold collect. case_decide; [done|]. case_decide.
  - intros [= <- <- <- <-]. done.
  - intros [= <- <- <- <-] k wm.
    destruct (decide (k = key (deref sa x))) as [->|Hne].
    + rewrite lookup_alter_eq.
      destruct (m !! key (deref sa x)) as [v|] eqn:Hv.
      * rewrite Hv. simpl. intros [= <-] Hempty.
        assert (x ∈ ({[x]} ∪ v : gset ptr)) as Hx
          by (by apply elem_of_union_l, elem_of_singleton).
        rewrite Hempty in Hx. by apply not_elem_of_empty in Hx.
      * rewrite lookup_insert_eq. simpl. intros [= <-] Hempty.
        assert (x ∈ ({[x]} ∪ ∅ : gset ptr)) as Hx
          by (by apply elem_of_union_l, elem_of_singleton).
        rewrite Hempty in Hx. by apply not_elem_of_empty in Hx.
    + rewrite lookup_alter_ne by done.
      destruct (m !! key (deref sa x)); [apply Hm|].
      rewrite lookup_insert_ne by done. apply Hm.
Qed.

(** X12.  The test of the second loop of a sync pass keeps an event exactly
    when some unsynced watcher that the first loop kept (its [cur] is not
    below the compaction revision) matches it, by equal key or by prefix. *)
Theorem sync_relevant_exact s minRev0 minRev k2u prefixes s1 (e : Event) :
  foldlM (collect (main (currentRev (store_ s))) (compactMainRev (store_ s)))
         (minRev0, ∅, ∅, s) (range_set (unsynced s))
  = Done (minRev, k2u, prefixes, s1) →
  relevant k2u prefixes e
  ↔ ∃ w, w ∈ unsynced s ∧ ¬ compacted s w ∧ matches (deref s w) e.
Proof.
  intros Hloop. pose proof (collect_loop _ _ _ _ _ _ Hloop) as Hc.
  assert (∀ k wm, k2u !! k = Some wm → wm ≠ ∅) as Hb.
  { pose proof (collect_loop_buckets (main (currentRev (store_ s)))
                  (compactMainRev (store_ s)) (range_set (unsynced s))
                  (minRev0, ∅, ∅, s) (minRev, k2u, prefixes, s1)) as Hb.
    simpl in Hb. apply Hb; [|exact Hloop].
    intros k wm Hk. by rewrite lookup_empty in Hk. }
  split.
  - intros Hrel.
    destruct (k2u !! Key (Kv e)) as [wm|] eqn:Hk.
    + destruct (set_choose_L wm (Hb _ _ Hk)) as [w Hw].
      assert (member k2u (Key (Kv e)) w) as Hm by (by exists wm).
      apply (col_member _ _ _ _ Hc) in Hm as [Hu Hkey].
      apply (col_unsynced _ _ _ _ Hc) in Hu as [Hu Hnc].
      exists w. split_and!; [done|done|]. by left.
    + destruct (matchPrefix (Key (Kv e)) prefixes) eqn:Hp;
        [|by destruct Hrel].
      apply matchPrefix_true in Hp as (p & Hin & Hpre).
      apply (col_prefixes _ _ _ _ Hc) in Hin as (w & Hm & Hpw).
      apply (col_member _ _ _ _ Hc) in Hm as [Hu ->].
      apply (col_unsynced _ _ _ _ Hc) in Hu as [Hu Hnc].
      exists w. split_and!; [done|done|]. by right.
  - intros (w & Hu & Hnc & Hmatch). eapply collected_relevant; [done| |done].
    by apply (col_unsynced _ _ _ _ Hc).
Qed.

End MoreSync.

(** ** What a sync pass sends, and to whom *)

Section MoreSyncPass.
Context `{GoRange}.

Implicit Types (s : watchableStore) (w : ptr) (k : string).

Lemma filter_filter_implied {A} (P Q : A → Prop)
    `{∀ x, Decision (P x)} `{∀ x, Decision (Q x)} (l : list A) :
  (∀ x, x ∈ l → P x → Q x) → filter P (filter Q l) = filter P l.
Proof.
  induction l as [|x l IH]; intros HPQ; [done|].
  rewrite !(filter_cons _ x l).
  assert (filter P (filter Q l) = filter P l) as IH'
    by (apply IH; intros y Hy; apply HPQ; by right).
  destruct (decide (Q x)) as [HQ|HQ].
  - rewrite filter_cons. destruct (decide (P x)); by rewrite IH'.
  - rewrite IH'. destruct (decide (P x)) as [HP|HP]; [|done].
    exfalso. apply HQ, HPQ; [left|done].
Qed.

(** X13.  A sync pass scans the backend once, from the least [cur] among
    the unsynced watchers that are not behind the compaction revision up to
    the current revision.  Each such watcher is left as it was or promoted
    with one response, which holds the events of the scanned rows that match
    the watcher, in the order of the rows: all of them, also those whose
    revision is below the [cur] of the watcher. *)
Theorem syncWatchers_serves s s' :
  syncWatchers s = Done s' →
  ∃ minRev,
    (∀ w, w ∈ unsynced s → ¬ compacted s w → minRev ≤ cur (deref s w))
    ∧ (minRev = MaxInt64
       ∨ ∃ w, w ∈ unsynced s ∧ ¬ compacted s w ∧ minRev = cur (deref s w))
    ∧ ∀ w, w ∈ unsynced s → ¬ compacted s w →
        same_view s s' w
        ∨ (filter (matches (deref s w))
             (omap rowEvent
                (UnsafeRange (b (store_ s)) minRev
                   (int64 (main (currentRev (store_ s)) + 1)))) ≠ []
           ∧ raised s s' w
               (response s w
                  (filter (matches (deref s w))
                     (omap rowEvent
                        (UnsafeRange (b (store_ s)) minRev
                           (int64 (main (currentRev (store_ s)) + 1))))))).
Proof.
  unfold syncWatchers. case_decide as Hsz.
  { intros [= <-]. apply size_empty_iff, leibniz_equiv in Hsz.
    exists MaxInt64. rewrite Hsz.
    split_and!; [|by left|]; by intros w ?%not_elem_of_empty. }
  destruct (syncFanOut s) as [[we s1]| |] eqn:Hfan; simpl; try done.
  intros Hloop.
  apply syncFanOut_Done_min in Hfan
    as (minRev & k2u & prefixes & Hc & Hle & Hmin & Hwe).
  exists minRev. split_and!; [done|done|]. intros w Hu Hnc.
  pose proof (promote_loop_fate we s1 s' w Hloop) as Hfate.
  assert (watchers s1 = watchers s ∧ synced s1 = synced s
          ∧ sent s1 = sent s ∧ store_ s1 = store_ s) as (Hw1 & Hs1 & Hsent1 & Hst1)
    by (by rewrite (col_frame _ _ _ _ Hc)).
  assert (w ∈ unsynced s1) as Hu1 by (by apply (col_unsynced _ _ _ _ Hc)).
  assert (same_view s s1 w) as Hv.
  { split; [by rewrite Hw1|tauto|by intros k; rewrite Hs1|].
    unfold sent_to. by rewrite Hsent1. }
  rewrite Hwe in Hfate.
  rewrite (newWatcherToEventMap_lookup _ _ _ _
             (collected_registered _ _ _ _ _ Hc Hu1)) in Hfate.
  fold (deref s w) in Hfate.
  rewrite filter_filter_implied in Hfate
    by (intros e _ Hmatch; by eapply collected_relevant).
  destruct (filter (matches (deref s w)) _) as [|e es] eqn:Hes.
  - left. by eapply same_view_trans.
  - destruct Hfate as [Hv'|Hr]; [left; by eapply same_view_trans|].
    right. split; [done|].
    replace (response s w (e :: es)) with (response s1 w (e :: es))
      by (unfold response; by rewrite (same_view_deref _ _ _ Hv), Hst1).
    eapply raised_view; [done|done|apply same_view_refl].
Qed.

(** X14.  A sync pass changes no field of a watcher, nor the embedded store
    or the mutex, and leaves every watcher outside [unsynced] as it was; the
    watchers it drops from the registry are exactly the unsynced watchers
    behind the compaction revision. *)
Theorem syncWatchers_frame s s' :
  wf s → syncWatchers s = Done s' →
  watchers s' = watchers s ∧ store_ s' = store_ s ∧ mu s' = mu s
  ∧ (∀ w, w ∉ unsynced s → same_view s s' w)
  ∧ (∀ w, registered_in s' w
          ↔ registered_in s w ∧ ¬ (w ∈ unsynced s ∧ compacted s w)).
Proof.
  intros Hwf Hsync.
  destruct (syncWatchers_watchers s s' Hsync) as (Hw & Hst & Hmu).
  split_and!; [done|done|done| |].
  - intros w. by apply (syncWatchers_view s s' w Hsync).
  - intros w. destruct (syncWatchers_view s s' w Hsync) as (Hout & Hcomp & Hlive).
    unfold registered_in.
    destruct (decide (w ∈ unsynced s)) as [Hu|Hu].
    + destruct (wf_unsynced s Hwf w Hu) as [_ Hno].
      destruct (decide (compacted s w)) as [Hc|Hc].
      * destruct (Hcomp Hu Hc) as (_ & _ & Hu' & Hs). split.
        -- intros [?|(k & Hk%Hs)]; [done|]. by apply Hno in Hk.
        -- intros [_ Hn]. destruct Hn. done.
      * split; [intros _; split; [by left|tauto]|]. intros _.
        destruct (Hlive Hu Hc) as [Hv|(es & _ & _ & _ & _ & Hs)].
        -- left. by apply (sv_unsynced _ _ _ Hv).
        -- right. exists (key (deref s w)). apply Hs. by right.
    + destruct (Hout Hu) as [_ Hu' Hs _]. rewrite Hu'. split.
      * intros [?|(k & Hk%Hs)]; [done|]. split; [right; eauto|tauto].
      * intros [[?|(k & Hk)] _]; [done|]. right. exists k. by apply Hs.
Qed.

End MoreSyncPass.

(** ** Invariants of the calls *)

Section MoreInvariants.
Context `{GoRange}.

Implicit Types (s : watchableStore) (w : ptr) (k : string).

(** X15.  In every reachable store the registry holds addresses of
    allocated watchers only, never [nil], and a watcher of [synced] sits in
    the bucket stored under its own key. *)
Theorem reachable_registry s :
  reachable s →
  (∀ k w, member (synced s) k w →
     w ≠ nil ∧ ∃ wr, watchers s !! w = Some wr ∧ key wr = k)
  ∧ (∀ w, w ∈ unsynced s → w ≠ nil ∧ is_Some (watchers s !! w)).
Proof.
  intros Hwf%reachable_wf. split.
  - intros k w Hm. destruct (wf_synced s Hwf k w Hm) as (wr & Hwr & Hk).
    split; [|by eauto]. intros ->. by rewrite (wf_nil s Hwf) in Hwr.
  - intros w Hu. destruct (wf_unsynced s Hwf w Hu) as [[wr Hwr] _].
    split; [|by eauto]. intros ->. by rewrite (wf_nil s Hwf) in Hwr.
Qed.

Lemma with_cur_same (wr : watcher) : with_cur (cur wr) wr = wr.
Proof. by destruct wr. Qed.

(** The notifier changes nothing of an allocated watcher but [cur]. *)
Lemma notify_watchers rev evs s w (wr : watcher) :
  watchers s !! w = Some wr →
  ∃ c, watchers (notify rev evs s) !! w = Some (with_cur c wr).
Proof.
  intros Hwr. rewrite notify_turns. set (we := newWatcherToEventMap _ _ _).
  apply (foldl_invariant
           (λ s', ∃ c, watchers s' !! w = Some (with_cur c wr))).
  - exists (cur wr). by rewrite with_cur_same.
  - intros s1 [k0 w0] _ (c & Hc). unfold notify_turn. simpl.
    pose proof (notify_watcher_cases rev we k0 s1 w0) as Hcases.
    destruct (we !! w0) as [es|]; [|rewrite Hcases; eauto].
    destruct Hcases as [(_ & _ & -> & _)|(_ & _ & _ & _ & -> & _)]; [eauto|].
    destruct (decide (w = w0)) as [<-|Hne].
    + exists rev. rewrite lookup_insert_eq. unfold deref.
      by rewrite (lookup_total_correct _ _ _ Hc).
    + exists c. by rewrite lookup_insert_ne.
Qed.

(** X16.  No call frees a watcher or changes its [key], [prefix], [id] or
    [ch]; only the calls that end in the notifier change its [cur]. *)
Theorem exec_keeps_fields (o : op) s s' w (wr : watcher) :
  exec o s = Done s' → watchers s !! w = Some wr →
  ∃ wr', watchers s' !! w = Some wr'
         ∧ key wr' = key wr ∧ prefix wr' = prefix wr
         ∧ id wr' = id wr ∧ ch wr' = ch wr
         ∧ (notifies o = false → wr' = wr).
Proof.
  intros Hexec Hwr.
  assert (∀ s0, watchers s0 = watchers s →
            ∃ wr', watchers s0 !! w = Some wr'
                   ∧ key wr' = key wr ∧ prefix wr' = prefix wr
                   ∧ id wr' = id wr ∧ ch wr' = ch wr ∧ wr' = wr) as Hsame.
  { intros s0 ->. exists wr. by split_and!. }
  assert (∀ s0 rev evs, watchers s0 = watchers s →
            ∃ wr', watchers (notify rev evs s0) !! w = Some wr'
                   ∧ key wr' = key wr ∧ prefix wr' = prefix wr
                   ∧ id wr' = id wr ∧ ch wr' = ch wr) as Hnot.
  { intros s0 rev evs Hw0. destruct (notify_watchers rev evs s0 w wr) as [c Hc];
      [by rewrite Hw0|].
    exists (with_cur c wr). by split_and!. }
  destruct o; simpl in Hexec.
  - injection Hexec as <-. destruct (Hsame (NewWatchStream s).2) as (wr' & ?); [done|].
    exists wr'. tauto.
  - injection Hexec as <-. destruct (Hsame (makeChan n s).2) as (wr' & ?); [done|].
    exists wr'. tauto.
  - unfold watch in Hexec. destruct (mu s); [done|].
    set (wa := fresh _) in Hexec.
    assert (w ≠ wa) as Hne.
    { intros ->. pose proof (is_fresh ({[nil]} ∪ dom (watchers s))) as Hf.
      apply Hf, elem_of_union_r, elem_of_dom. by eexists. }
    case_decide.
    + destruct (unsafeAddWatcher _ _ _) as [err|m]; [done|]. simpl in Hexec.
      injection Hexec as <-. exists wr. simpl.
      rewrite lookup_insert_ne by done. by split_and!.
    + simpl in Hexec. injection Hexec as <-. exists wr. simpl.
      rewrite lookup_insert_ne by done. by split_and!.
  - destruct (watchers s !! wa) as [wr0|].
    + unfold cancel in Hexec. destruct (mu s); [done|].
      destruct (Hsame s' ) as (wr' & ?); [|exists wr'; tauto].
      case_decide; [by injection Hexec as <-|].
      destruct (synced s !! key wr0); [|by injection Hexec as <-].
      case_decide; [|by injection Hexec as <-].
      case_decide; by injection Hexec as <-.
    + injection Hexec as <-. exists wr. by split_and!.
  - unfold Put in Hexec. destruct (mu s); [done|].
    destruct (store_Put (store_ s)) as [rev st1]. simpl in Hexec.
    destruct (changes st1) as [|change [|? ?]]; simpl in Hexec; try done.
    injection Hexec as <-. unfold handle.
    destruct (Hnot (set_store ({| currentRev := currentRev st1;
                                  compactMainRev := compactMainRev st1;
                                  b := b st1; changes := [] |}) s)
                rev [{| Typ := PUT; Kv := change |}]) as (wr' & ?); [done|].
    exists wr'. simpl. intuition discriminate.
  - unfold DeleteRange in Hexec. destruct (mu s); [done|].
    destruct (store_DeleteRange (store_ s)) as [[n rev] st1]. simpl in Hexec.
    case_decide; [done|]. case_decide; simpl in Hexec; injection Hexec as <-.
    + exists wr. by split_and!.
    + unfold handle. match goal with |- context [notify ?r ?e ?s0] =>
        destruct (Hnot s0 r e) as (wr' & ?); [done|] end.
      exists wr'. simpl. intuition discriminate.
  - unfold TxnBegin in Hexec. destruct (mu s); [done|].
    destruct (store_TxnBegin (store_ s)) as [txnID' st1]. simpl in Hexec.
    injection Hexec as <-. exists wr. by split_and!.
  - unfold TxnEnd in Hexec.
    destruct (store_TxnEnd txnID (store_ s)) as [[err|] st1]; simpl in Hexec.
    + injection Hexec as <-. exists wr. by split_and!.
    + case_decide; unfold Unlock in Hexec.
      * simpl in Hexec. destruct (mu s); simpl in Hexec; [|done].
        injection Hexec as <-. exists wr. by split_and!.
      * destruct (mu (handle _ _ _)); simpl in Hexec; [|done].
        injection Hexec as <-. unfold handle. simpl.
        match goal with |- context [notify ?r ?e ?s0] =>
          destruct (Hnot s0 r e) as (wr' & ?); [done|] end.
        exists wr'. simpl. intuition discriminate.
  - unfold syncWatchersLoop_turn in Hexec. destruct (mu s); [done|].
    destruct (syncWatchers_watchers s s' Hexec) as (Hw & _).
    destruct (Hsame s' Hw) as (wr' & ?). exists wr'. tauto.
  - injection Hexec as <-. destruct (Hsame (recv c s)) as (wr' & ?).
    + unfold recv. by destruct (chans s !! c).
    + exists wr'. tauto.
  - injection Hexec as <-. exists wr. by split_and!.
Qed.

Lemma unsafeAddWatcher_no_empty (sm m : gmap string (gset ptr)) k wa :
  unsafeAddWatcher sm k wa = inr m →
  (∀ k' wm, sm !! k' = Some wm → wm ≠ ∅) →
  ∀ k' wm, m !! k' = Some wm → wm ≠ ∅.
Proof.
  intros Hadd Hsm k' wm.
  assert (member m k wa) as (v & Hv & Hin).
  { apply (unsafeAddWatcher_inr _ _ _ _ Hadd). by right. }
  destruct (decide (k' = k)) as [->|Hne].
  - rewrite Hv. intros [= <-] Hempty. rewrite Hempty in Hin.
    by apply not_elem_of_empty in Hin.
  - unfold unsafeAddWatcher in Hadd. case_decide; [done|].
    destruct (sm !! k) as [v0|].
    + case_decide; [done|]. injection Hadd as <-.
      rewrite lookup_insert_ne by done. apply Hsm.
    + injection Hadd as <-. rewrite lookup_insert_ne by done. apply Hsm.
Qed.

(** X17.  The calls that do not end in the notifier leave no empty bucket
    in [synced]: when no bucket is empty before such a call none is after
    it.  ([watch] and a sync pass fill the bucket they create, the closure
    [cancel] removes the bucket it empties.) *)
Theorem exec_no_empty_bucket (o : op) s s' :
  notifies o = false → exec o s = Done s' →
  no_empty_bucket s → no_empty_bucket s'.
Proof.
  intros Hnot Hexec Hne. destruct o; simpl in Hexec; try done.
  - by injection Hexec as <-.
  - by injection Hexec as <-.
  - unfold watch in Hexec. destruct (mu s); [done|]. case_decide.
    + destruct (unsafeAddWatcher _ _ _) as [err|m] eqn:Hadd; [done|].
      simpl in Hexec. injection Hexec as <-.
      intros k' wm. simpl. by eapply unsafeAddWatcher_no_empty.
    + simpl in Hexec. by injection Hexec as <-.
  - destruct (watchers s !! wa) as [wr0|]; [|by injection Hexec as <-].
    unfold cancel in Hexec. destruct (mu s); [done|].
    case_decide; [by injection Hexec as <-|].
    destruct (synced s !! key wr0) as [v|] eqn:Hv; [|by injection Hexec as <-].
    case_decide; [|by injection Hexec as <-].
    case_decide as Hsz; injection Hexec as <-; intros k' wm; simpl.
    + destruct (decide (k' = key wr0)) as [->|Hk].
      * by rewrite lookup_delete_eq.
      * rewrite lookup_delete_ne by done. apply Hne.
    + destruct (decide (k' = key wr0)) as [->|Hk].
      * rewrite lookup_insert_eq. intros [= <-] Hempty. apply Hsz.
        rewrite Hempty. apply size_empty.
      * rewrite lookup_insert_ne by done. apply Hne.
  - unfold TxnBegin in Hexec. destruct (mu s); [done|].
    destruct (store_TxnBegin (store_ s)) as [txnID' st1]. simpl in Hexec.
    by injection Hexec as <-.
  - unfold syncWatchersLoop_turn in Hexec. destruct (mu s); [done|].
    unfold syncWatchers in Hexec. case_decide; [by injection Hexec as <-|].
    destruct (syncFanOut s) as [[we s1]| |] eqn:Hfan; simpl in Hexec; try done.
    apply syncFanOut_Done in Hfan as (minRev & k2u & prefixes & Hc & _ & _).
    revert Hexec. apply (foldlM_invariant no_empty_bucket).
    + unfold no_empty_bucket. by rewrite (col_frame _ _ _ _ Hc).
    + intros s2 [w es] s3 _ Hne2. unfold promote.
      destruct (trySend _ _ _ s2) as [s4|] eqn:Hsend; [|by intros [= <-]].
      apply trySend_Some in Hsend as (q & _ & _ & ->).
      destruct (unsafeAddWatcher _ _ _) as [err|m] eqn:Hadd; [done|].
      intros [= <-] k' wm. simpl. by eapply unsafeAddWatcher_no_empty.
  - injection Hexec as <-. unfold no_empty_bucket, recv.
    by destruct (chans s !! c).
  - by injection Hexec as <-.
Qed.

End MoreInvariants.

(** ** The facade over the embedded store *)

Section MoreFacade.
Context `{GoRange}.

Implicit Types (s : watchableStore) (w : ptr) (k : string).

(** X18.  A [DeleteRange] that deleted [n > 0] keys decides for every synced
    watcher by the change the loop variable held last, whatever the other
    deleted keys are: a watcher that does not match the last change sees
    nothing of the call, and a watcher that matches it is sent one response
    with [n] events, each carrying that last change, or is demoted. *)
Theorem DeleteRange_last_change (store_DeleteRange : store → Z * Z * store)
    s s' (n rev : Z) :
  wf s → DeleteRange store_DeleteRange s = Done (n, rev, s') → n ≠ 0 →
  ∃ change,
    last (changes (store_DeleteRange (store_ s)).2) = Some change
    ∧ ∀ k w, member (synced s) k w →
        if decide (matches (deref s w) {| Typ := DELETE; Kv := change |})
        then (∃ r, sent_to s' w = sent_to s w ++ [r]
                   ∧ WatchID r = id (deref s w)
                   ∧ Events r = replicate (Z.to_nat n)
                                  {| Typ := DELETE; Kv := change |}
                   ∧ ∀ k', member (synced s') k' w ↔ member (synced s) k' w)
             ∨ (sent_to s' w = sent_to s w ∧ w ∈ unsynced s'
                ∧ cur (deref s' w) = rev
                ∧ ∀ k', ¬ member (synced s') k' w)
        else same_view s s' w.
Proof.
  intros Hwf Hdel Hn.
  destruct (DeleteRange_Done _ _ _ _ _ Hdel Hn)
    as (_ & st1 & change & Hst & Hlen & Hlast & ->).
  exists change. rewrite Hst. split; [done|]. intros k w Hm.
  set (s0 := set_store (getChanges st1).2 s).
  set (ev := {| Typ := DELETE; Kv := change |}).
  assert (wf s0) as Hwf0 by (by apply (wf_same_registry s)).
  assert (member (synced s0) k w) as Hm0 by done.
  destruct (notify_view rev (replicate (length (changes st1)) ev) s0 w) as [Hin _].
  { intros k1 k2 w0 H1 H2.
    destruct (wf_registered s0 k1 w0 Hwf0 H1) as [_ <-].
    by destruct (wf_registered s0 k2 w0 Hwf0 H2) as [_ <-]. }
  specialize (Hin k Hm0).
  destruct (wf_registered s0 k w Hwf0 Hm0) as [Hreg Hk].
  rewrite (newWatcherToEventMap_lookup _ _ _ _ Hreg) in Hin.
  fold (deref s0 w) in Hin. rewrite filter_replicate in Hin.
  change (deref s0 w) with (deref s w) in *.
  destruct (decide (matches (deref s w) ev)) as [Hmatch|Hmatch].
  - assert (replicate (length (changes st1)) ev
            = ev :: replicate (pred (length (changes st1))) ev) as Hrep.
    { destruct (length (changes st1)); [simpl in Hlen; lia|done]. }
    rewrite Hrep in Hin. rewrite <- Hrep in Hin.
    destruct Hin as [(Hsent & _ & _ & Hs)|(Hsent & Hw & Hu & Hs)].
    + left. eexists. split; [exact Hsent|]. simpl.
      rewrite <- Hlen, Nat2Z.id. done.
    + right. split_and!; [done|done| |].
      * unfold deref at 1. by rewrite (lookup_total_correct _ _ _ Hw).
      * intros k' [Hk' Hne]%Hs.
        destruct (wf_registered s0 k' w Hwf0 Hk') as [_ Hk2].
        apply Hne. exact (eq_trans (eq_sym Hk2) Hk).
  - destruct Hin as [Ha Hb Hc Hd]. by split.
Qed.

(** X19.  Between [TxnBegin] and [TxnEnd] the store holds the mutex: the
    calls that lock it, and the closure [cancel], do not return.  A [TxnEnd]
    that the embedded store rejects returns the error and keeps the mutex; one
    that it accepts returns and releases it. *)
Theorem TxnBegin_holds_mutex (store_TxnBegin : store → Z * store) s s1 (txnID : Z) :
  TxnBegin store_TxnBegin s = Done (txnID, s1) →
  mu s = false ∧ mu s1 = true
  ∧ (∀ o, locks o = true → exec o s1 = Blocked)
  ∧ (∀ wa k, cancel wa k s1 = Blocked)
  ∧ ∀ store_TxnEnd id,
      ∃ s2, TxnEnd store_TxnEnd id s1 = Done ((store_TxnEnd id (store_ s1)).1, s2)
            ∧ (mu s2 = true ↔ is_Some (store_TxnEnd id (store_ s1)).1).
Proof.
  unfold TxnBegin. destruct (mu s) eqn:Hmu; [done|].
  destruct (store_TxnBegin (store_ s)) as [txnID' st1]. intros [= <- <-].
  split_and!; [done|done| | |].
  - intros [] Ho; done.
  - done.
  - intros g i. unfold TxnEnd.
    destruct (g i _) as [[err|] st2]; simpl.
    + eexists. split; [done|]. simpl. split; eauto.
    + case_decide; unfold Unlock, handle.
      * simpl. eexists. split; [done|]. simpl. split; [done|by intros [? ?]].
      * destruct (notify_store (Rev (getChanges st2).2) (txnEvents (changes st2))
                    (set_store (getChanges st2).2
                       (set_store st1 (set_mu true s)))) as [_ Hm].
        simpl in Hm. simpl. rewrite Hm. simpl. eexists. split; [done|].
        simpl. split; [done|by intros [? ?]].
Qed.

End MoreFacade.

(** * The claims on sample stores *)

Lemma after_run ops :
  is_done (@run stored_order ops (newWatchableStore st0)) = true →
  @run stored_order ops (newWatchableStore st0) = Done (after ops).
Proof. unfold after. by destruct (run ops _). Qed.

Lemma after_reachable ops :
  is_done (@run stored_order ops (newWatchableStore st0)) = true →
  @reachable stored_order (after ops).
Proof. intros Hd. exists st0, ops. by apply after_run. Qed.

Lemma after_wf ops :
  is_done (@run stored_order ops (newWatchableStore st0)) = true →
  wf (after ops).
Proof. intros Hd. by apply (@reachable_wf stored_order), after_reachable. Qed.

Lemma member_decide (sm : gmap string (gset ptr)) k w :
  bool_decide (member sm k w) = true → member sm k w.
Proof. apply bool_decide_eq_true_1. Qed.

Lemma elem_of_decide (X : gset ptr) w : bool_decide (w ∈ X) = true → w ∈ X.
Proof. apply bool_decide_eq_true_1. Qed.

(** ** The scenarios of the specification on the model *)

(** Exact match, from now: one response for the write to ["k"], none for the
    write to ["b"]. *)
Example scenario_exact_match :
  sent (after (ops_stream_watch
               ++ [OPut (store_put "k" "1"); OPut (store_put "b" "x")]))
  = [(1%nat, {| WatchID := 7;
                Events := [{| Typ := PUT; Kv := kv "k" "1" 2 |}];
                Revision := 2 |})].
Proof. vm_compute. reflexivity. Qed.

(** Prefix match: the watcher on ["foo/"] is sent the writes to ["foo/1"]
    and ["foo/2"], not the write to ["bar"]. *)
Example scenario_prefix_match :
  sent (after [ONewWatchStream; OWatch "foo/" true 0 2 1%nat;
               OPut (store_put "foo/1" "a"); OPut (store_put "bar" "b");
               OPut (store_put "foo/2" "c")])
  = [(1%nat, {| WatchID := 2;
                Events := [{| Typ := PUT; Kv := kv "foo/1" "a" 2 |}];
                Revision := 2 |});
     (1%nat, {| WatchID := 2;
                Events := [{| Typ := PUT; Kv := kv "foo/2" "c" 4 |}];
                Revision := 4 |})].
Proof. vm_compute. reflexivity. Qed.

(** Slow consumer: with a channel of capacity one the second write demotes
    the watcher with [cur] the revision of that write; once the reader has
    taken the first response, a sync pass sends the two missed events and
    promotes the watcher. *)
Example scenario_slow_consumer :
  unsynced (after (ops_watch ++ [OPut (store_put "k" "1");
                                 OPut (store_put "k" "2")])) = {[1%nat]}
  ∧ cur (deref (after (ops_watch ++ [OPut (store_put "k" "1");
                                     OPut (store_put "k" "2")])) 1%nat) = 3
  ∧ sent (after (ops_watch ++ [OPut (store_put "k" "1");
                               OPut (store_put "k" "2");
                               OPut (store_put "k" "3");
                               ORecv 1%nat; OSync]))
    = [(1%nat, {| WatchID := 7;
                  Events := [{| Typ := PUT; Kv := kv "k" "1" 2 |}];
                  Revision := 2 |});
       (1%nat, {| WatchID := 7;
                  Events := [{| Typ := PUT; Kv := kv "k" "2" 3 |};
                             {| Typ := PUT; Kv := kv "k" "3" 4 |}];
                  Revision := 4 |})]
  ∧ unsynced (after (ops_watch ++ [OPut (store_put "k" "1");
                                   OPut (store_put "k" "2");
                                   OPut (store_put "k" "3");
                                   ORecv 1%nat; OSync])) = ∅.
Proof. split_and!; vm_compute; reflexivity. Qed.

(** [DeleteRange] over the two keys ["a"] and ["b"], with a watcher on each:
    both events of the batch carry the change of ["b"], so the watcher on
    ["b"] is sent two events and the watcher on ["a"] none. *)
Example DeleteRange_sample :
  sent (after [ONewWatchStream; OWatch "a" false 0 1 1%nat;
               OWatch "b" false 0 2 1%nat;
               ODeleteRange (store_delete ["a"; "b"])])
  = [(2%nat,
      {| WatchID := 2;
         Events :=
           [{| Typ := DELETE;
               Kv := {| Key := "b"; CreateRevision := 0; ModRevision := 2;
                        Version := 0; Value := None; Lease := 0 |} |};
            {| Typ := DELETE;
               Kv := {| Key := "b"; CreateRevision := 0; ModRevision := 2;
                        Version := 0; Value := None; Lease := 0 |} |}];
         Revision := 2 |})].
Proof. vm_compute. reflexivity. Qed.

(** C5, what the code does.  A stream and one watcher on ["k"]; 1024 writes
    to ["k"] fill the channel of the stream, and the next write finds it
    full: the notifier moves the watcher to [unsynced] and leaves the key
    ["k"] in [synced] with an empty bucket.  The closure [cancel] does
    remove the key of the bucket it empties. *)
Theorem notify_keeps_empty_bucket :
  @reachable stored_order
    (after (ops_stream_watch ++ replicate 1025 (OPut (store_put "k" "v"))))
  ∧ synced (after (ops_stream_watch ++ replicate 1025 (OPut (store_put "k" "v"))))
      !! "k" = Some ∅
  ∧ unsynced (after (ops_stream_watch ++ replicate 1025 (OPut (store_put "k" "v"))))
    = {[1%nat]}
  ∧ synced (after (ops_stream_watch ++ [OCancel 1%nat])) !! "k" = None.
Proof.
  split_and!.
  - apply after_reachable. vm_compute. reflexivity.
  - vm_compute. reflexivity.
  - vm_compute. reflexivity.
  - vm_compute. reflexivity.
Qed.

#[local] Existing Instance stored_order.

Lemma mutation_serves_or_demotes_witness :
  wf (after ops_two)
  ∧ DeleteRange (store_delete ["a"; "b"]) (after ops_two)
    = Done (2, 2, after (ops_two ++ [ODeleteRange (store_delete ["a"; "b"])]))
  ∧ changes (store_delete ["a"; "b"] (store_ (after ops_two))).2
    = [tomb "a" 2; tomb "b" 2]
  ∧ member (synced (after ops_two)) "a" 1%nat
  ∧ filter (matches (deref (after ops_two) 1%nat))
      (spec_events DELETE
         (changes (store_delete ["a"; "b"] (store_ (after ops_two))).2))
    ≠ []
  ∧ ¬ matches (deref (after ops_two) 1%nat) {| Typ := DELETE; Kv := tomb "b" 2 |}
  ∧ (sent_to (after (ops_two ++ [ODeleteRange (store_delete ["a"; "b"])])) 1%nat
     = sent_to (after ops_two) 1%nat
     ∧ (1%nat ∉ unsynced
                  (after (ops_two ++ [ODeleteRange (store_delete ["a"; "b"])])))
     ∧ member
         (synced (after (ops_two ++ [ODeleteRange (store_delete ["a"; "b"])])))
         "a" 1%nat
     ∧ ¬ settled (after ops_two)
           (after (ops_two ++ [ODeleteRange (store_delete ["a"; "b"])]))
           "a" 1%nat 2
           (spec_events DELETE
              (changes (store_delete ["a"; "b"] (store_ (after ops_two))).2)))
  ∧ Put (store_put "a" "1") (after ops_two)
    = Done (2, after (ops_two ++ [OPut (store_put "a" "1")]))
  ∧ (∃ change,
       changes (store_put "a" "1" (store_ (after ops_two))).2 = [change]
       ∧ ∀ k w, member (synced (after ops_two)) k w →
           settled (after ops_two) (after (ops_two ++ [OPut (store_put "a" "1")]))
             k w 2 (spec_events PUT [change]))
  ∧ wf s_txn
  ∧ TxnEnd (store_txn_end chs_txn) 1 s_txn
    = Done (None,
            after (ops_watch ++ [OTxnBegin (λ st, (1, st));
                                 OTxnEnd (store_txn_end chs_txn) 1]))
  ∧ (∀ k w, member (synced s_txn) k w →
       settled s_txn
         (after (ops_watch ++ [OTxnBegin (λ st, (1, st));
                               OTxnEnd (store_txn_end chs_txn) 1]))
         k w (Rev (store_txn_end chs_txn 1 (store_ s_txn)).2)
         (txnEvents (changes (store_txn_end chs_txn 1 (store_ s_txn)).2))).
Proof.
  assert (wf (after ops_two)) as Hwf
    by (apply after_wf; vm_compute; reflexivity).
  assert (DeleteRange (store_delete ["a"; "b"]) (after ops_two)
          = Done (2, 2,
                  after (ops_two ++ [ODeleteRange (store_delete ["a"; "b"])])))
    as Hdel by (vm_compute; reflexivity).
  assert (changes (store_delete ["a"; "b"] (store_ (after ops_two))).2
          = [tomb "a" 2; tomb "b" 2]) as Hch by (vm_compute; reflexivity).
  assert (member (synced (after ops_two)) "a" 1%nat) as Hm
    by (apply member_decide; vm_compute; reflexivity).
  assert (filter (matches (deref (after ops_two) 1%nat))
            (spec_events DELETE
               (changes (store_delete ["a"; "b"] (store_ (after ops_two))).2))
          ≠ []) as Hspec by (vm_compute; discriminate).
  assert (¬ matches (deref (after ops_two) 1%nat)
              {| Typ := DELETE; Kv := tomb "b" 2 |}) as Hnm.
  { apply (bool_decide_eq_false_1 _). vm_compute. reflexivity. }
  assert (Put (store_put "a" "1") (after ops_two)
          = Done (2, after (ops_two ++ [OPut (store_put "a" "1")]))) as HPut
    by (vm_compute; reflexivity).
  assert (wf s_txn) as Hwft by (apply after_wf; vm_compute; reflexivity).
  assert (TxnEnd (store_txn_end chs_txn) 1 s_txn
          = Done (None,
                  after (ops_watch ++ [OTxnBegin (λ st, (1, st));
                                       OTxnEnd (store_txn_end chs_txn) 1])))
    as Hend by (vm_compute; reflexivity).
  destruct (mutation_serves_or_demotes (after ops_two) Hwf) as (HP & _ & HD).
  destruct (mutation_serves_or_demotes s_txn Hwft) as (_ & HT & _).
  destruct (HD (store_delete ["a"; "b"]) 2 2 _ Hdel) as (change & Hlast & Hall);
    [discriminate|vm_compute; reflexivity|].
  assert (change = tomb "b" 2) as ->.
  { rewrite Hch in Hlast. by injection Hlast as <-. }
  destruct (Hall "a" 1%nat Hm) as [_ Hfail].
  split; [exact Hwf|]. split; [exact Hdel|]. split; [exact Hch|].
  split; [exact Hm|]. split; [exact Hspec|]. split; [exact Hnm|].
  split; [exact (Hfail Hspec Hnm)|]. split; [exact HPut|].
  split; [apply (HP (store_put "a" "1") 2 _ HPut); vm_compute; reflexivity|].
  split; [exact Hwft|]. split; [exact Hend|].
  exact (HT (store_txn_end chs_txn) 1 _ Hend).
Defined.

Lemma fan_out_matches_witness :
  wf s_mix
  ∧ member (synced s_mix) "k" 1%nat
  ∧ member (synced s_mix) "" 2%nat
  ∧ deref s_mix 2%nat
    = {| key := ""; prefix := true; cur := 0; id := 2; ch := 1%nat |}
  ∧ unsynced s_mix = {[3%nat; 4%nat]}
  ∧ deref s_mix 3%nat
    = {| key := "k"; prefix := false; cur := 2; id := 3; ch := 1%nat |}
  ∧ deref s_mix 4%nat
    = {| key := ""; prefix := true; cur := 3; id := 4; ch := 1%nat |}
  ∧ (¬ compacted s_mix 3%nat) ∧ (¬ compacted s_mix 4%nat)
  ∧ syncFanOut s_mix
    = Done ({[3%nat := [ev_k2]; 4%nat := [ev_k2; ev_b3]]}, s_mix)
  ∧ ((∀ evs k w e, member (synced s_mix) k w →
        e ∈ evlist (newWatcherToEventMap (watchers s_mix) (synced s_mix) evs) w
        ↔ e ∈ evs ∧ matches (deref s_mix w) e)
     ∧ (∀ evs k w, member (synced s_mix) k w →
          is_Some (newWatcherToEventMap (watchers s_mix) (synced s_mix) evs !! w)
          ↔ ∃ e, e ∈ evs ∧ matches (deref s_mix w) e)
     ∧ (∀ evs k w e, member (synced s_mix) k w →
          key (deref s_mix w) = "" → prefix (deref s_mix w) = true → e ∈ evs →
          e ∈ evlist (newWatcherToEventMap (watchers s_mix) (synced s_mix) evs) w)
     ∧ (∀ we s1, syncFanOut s_mix = Done (we, s1) →
          ∃ minRev,
            (∀ w, w ∈ unsynced s_mix → ¬ compacted s_mix w →
                  minRev ≤ cur (deref s_mix w))
            ∧ (minRev = MaxInt64
               ∨ ∃ w, w ∈ unsynced s_mix ∧ ¬ compacted s_mix w
                      ∧ minRev = cur (deref s_mix w))
            ∧ (∀ w, is_Some (we !! w) →
                    w ∈ unsynced s_mix ∧ ¬ compacted s_mix w)
            ∧ (∀ w e, w ∈ unsynced s_mix → ¬ compacted s_mix w →
                 e ∈ evlist we w
                 ↔ e ∈ omap rowEvent
                         (UnsafeRange (b (store_ s_mix)) minRev
                            (int64 (main (currentRev (store_ s_mix)) + 1)))
                   ∧ matches (deref s_mix w) e)
            ∧ (∀ w, w ∈ unsynced s_mix → ¬ compacted s_mix w →
                 is_Some (we !! w)
                 ↔ ∃ e, e ∈ omap rowEvent
                              (UnsafeRange (b (store_ s_mix)) minRev
                                 (int64 (main (currentRev (store_ s_mix)) + 1)))
                        ∧ matches (deref s_mix w) e)
            ∧ (∀ w e, w ∈ unsynced s_mix → ¬ compacted s_mix w →
                 key (deref s_mix w) = "" → prefix (deref s_mix w) = true →
                 e ∈ omap rowEvent
                       (UnsafeRange (b (store_ s_mix)) minRev
                          (int64 (main (currentRev (store_ s_mix)) + 1))) →
                 e ∈ evlist we w))).
Proof.
  assert (wf s_mix) as Hwf by (apply after_wf; vm_compute; reflexivity).
  split; [exact Hwf|].
  split; [apply member_decide; vm_compute; reflexivity|].
  split; [apply member_decide; vm_compute; reflexivity|].
  split; [vm_compute; reflexivity|].
  split; [vm_compute; reflexivity|].
  split; [vm_compute; reflexivity|].
  split; [vm_compute; reflexivity|].
  split; [intros Hc; vm_compute in Hc; discriminate|].
  split; [intros Hc; vm_compute in Hc; discriminate|].
  split; [vm_compute; reflexivity|].
  exact (fan_out_matches s_mix Hwf).
Defined.

Lemma partition_disjoint_witness :
  reachable (after ops_catch_up)
  ∧ ¬ (1%nat ∈ unsynced (after ops_catch_up)
       ∧ member (synced (after ops_catch_up)) "k" 1%nat).
Proof.
  assert (reachable (after ops_catch_up)) as Hr
    by (apply after_reachable; vm_compute; reflexivity).
  split; [exact Hr|]. exact (partition_disjoint (after ops_catch_up) 1%nat "k" Hr).
Defined.

Lemma cancel_idempotent_witness :
  reachable (after ops_watch)
  ∧ watchers (after ops_watch) !! 1%nat
    = Some {| key := "k"; prefix := false; cur := 0; id := 7; ch := 1%nat |}
  ∧ cancel 1%nat "k" (after ops_watch) = Done (after (ops_watch ++ [OCancel 1%nat]))
  ∧ (cancel 1%nat "k" (after (ops_watch ++ [OCancel 1%nat]))
     = Done (after (ops_watch ++ [OCancel 1%nat]))
     ∧ (1%nat ∉ unsynced (after (ops_watch ++ [OCancel 1%nat])))
     ∧ ∀ k, ¬ member (synced (after (ops_watch ++ [OCancel 1%nat]))) k 1%nat).
Proof.
  assert (reachable (after ops_watch)) as Hr
    by (apply after_reachable; vm_compute; reflexivity).
  assert (watchers (after ops_watch) !! 1%nat
          = Some {| key := "k"; prefix := false; cur := 0; id := 7; ch := 1%nat |})
    as Hw by (vm_compute; reflexivity).
  assert (cancel 1%nat "k" (after ops_watch)
          = Done (after (ops_watch ++ [OCancel 1%nat]))) as Hc
    by (vm_compute; reflexivity).
  split; [exact Hr|]. split; [exact Hw|]. split; [exact Hc|].
  exact (cancel_idempotent (after ops_watch) 1%nat _ _ Hr Hw Hc).
Defined.

Lemma notify_frame_witness :
  wf s_mix_hot
  ∧ member (synced s_mix_hot) "k" 1%nat
  ∧ filter (matches (deref s_mix_hot 1%nat)) evs_b = []
  ∧ member (synced s_mix_hot) "" 2%nat
  ∧ filter (matches (deref s_mix_hot 2%nat)) evs_b = evs_b
  ∧ 3%nat ∈ unsynced s_mix_hot
  ∧ sent (notify 4 evs_b s_mix_hot)
    = sent s_mix_hot
      ++ [(2%nat, {| WatchID := 2; Events := evs_b; Revision := 4 |})]
  ∧ same_view s_mix_hot (notify 4 evs_b s_mix_hot) 1%nat
  ∧ (same_view s_mix_hot (notify 4 evs_b s_mix_hot) 3%nat
     ∧ 3%nat ∈ unsynced (notify 4 evs_b s_mix_hot))
  ∧ ((∀ k w, member (synced s_mix_hot) k w →
        filter (matches (deref s_mix_hot w)) evs_b = [] →
        same_view s_mix_hot (notify 4 evs_b s_mix_hot) w)
     ∧ (∀ w, w ∈ unsynced s_mix_hot →
          same_view s_mix_hot (notify 4 evs_b s_mix_hot) w
          ∧ w ∈ unsynced (notify 4 evs_b s_mix_hot))
     ∧ store_ (notify 4 evs_b s_mix_hot) = store_ s_mix_hot
     ∧ mu (notify 4 evs_b s_mix_hot) = mu s_mix_hot).
Proof.
  assert (wf s_mix_hot) as Hwf by (apply after_wf; vm_compute; reflexivity).
  assert (member (synced s_mix_hot) "k" 1%nat) as Hm
    by (apply member_decide; vm_compute; reflexivity).
  assert (filter (matches (deref s_mix_hot 1%nat)) evs_b = []) as Hnil
    by (vm_compute; reflexivity).
  assert (3%nat ∈ unsynced s_mix_hot) as Hu
    by (apply elem_of_decide; vm_compute; reflexivity).
  split; [exact Hwf|]. split; [exact Hm|]. split; [exact Hnil|].
  split; [apply member_decide; vm_compute; reflexivity|].
  split; [vm_compute; reflexivity|].
  split; [exact Hu|].
  split; [vm_compute; reflexivity|].
  split; [exact (proj1 (notify_frame 4 evs_b s_mix_hot Hwf) "k" 1%nat Hm Hnil)|].
  split; [exact (proj1 (proj2 (notify_frame 4 evs_b s_mix_hot Hwf)) 3%nat Hu)|].
  exact (notify_frame 4 evs_b s_mix_hot Hwf).
Defined.

(** The claim C4 fails on a watcher registered with [startRev == 0], whose
    [cur] is [0] at revision 1, and on a watcher that a sync pass promoted,
    whose [cur] is [2] at revision 3. *)
Lemma synced_cur_above_currentRev_fails :
  ¬ (∀ s k w, reachable s → member (synced s) k w →
       cur (deref s w) > Rev (store_ s))
  ∧ (reachable (after ops_watch)
     ∧ member (synced (after ops_watch)) "k" 1%nat
     ∧ cur (deref (after ops_watch) 1%nat) = 0
     ∧ Rev (store_ (after ops_watch)) = 1)
  ∧ (reachable (after ops_catch_up)
     ∧ member (synced (after ops_catch_up)) "k" 1%nat
     ∧ cur (deref (after ops_catch_up) 1%nat) = 2
     ∧ Rev (store_ (after ops_catch_up)) = 3).
Proof.
  assert (reachable (after ops_watch)) as Hr
    by (apply after_reachable; vm_compute; reflexivity).
  assert (member (synced (after ops_watch)) "k" 1%nat) as Hm
    by (apply member_decide; vm_compute; reflexivity).
  split_and!.
  - intros Hclaim. specialize (Hclaim (after ops_watch) "k" 1%nat Hr Hm).
    vm_compute in Hclaim. discriminate.
  - exact Hr.
  - exact Hm.
  - vm_compute. reflexivity.
  - vm_compute. reflexivity.
  - apply after_reachable. vm_compute. reflexivity.
  - apply member_decide. vm_compute. reflexivity.
  - vm_compute. reflexivity.
  - vm_compute. reflexivity.
Qed.

Lemma synced_entry_cur_witness :
  wf (after ops_behind)
  ∧ exec OSync (after ops_behind) = Done (after ops_catch_up)
  ∧ (∀ k', ¬ member (synced (after ops_behind)) k' 1%nat)
  ∧ member (synced (after ops_catch_up)) "k" 1%nat
  ∧ (((∃ key prefix id ch, OSync = OWatch key prefix 0 id ch)
      ∧ cur (deref (after ops_catch_up) 1%nat) = 0)
     ∨ (OSync = OSync ∧ 1%nat ∈ unsynced (after ops_behind)
        ∧ cur (deref (after ops_catch_up) 1%nat) = cur (deref (after ops_behind) 1%nat)
        ∧ cur (deref (after ops_catch_up) 1%nat) ≤ Rev (store_ (after ops_catch_up)))).
Proof.
  assert (wf (after ops_behind)) as Hwf
    by (apply after_wf; vm_compute; reflexivity).
  assert (exec OSync (after ops_behind) = Done (after ops_catch_up)) as Hexec
    by (vm_compute; reflexivity).
  assert (∀ k', ¬ member (synced (after ops_behind)) k' 1%nat) as Hno.
  { assert (synced (after ops_behind) = ∅) as -> by (vm_compute; reflexivity).
    intros k' (wm & Hwm & _). rewrite lookup_empty in Hwm. discriminate. }
  assert (member (synced (after ops_catch_up)) "k" 1%nat) as Hm
    by (apply member_decide; vm_compute; reflexivity).
  split; [exact Hwf|]. split; [exact Hexec|]. split; [exact Hno|]. split; [exact Hm|].
  exact (synced_entry_cur OSync (after ops_behind) (after ops_catch_up) "k" 1%nat
           Hwf Hexec Hno Hm).
Defined.

Lemma watch_next_revision_panics_witness :
  mu (after [OMakeChan 1]) = false ∧ 0 ≤ Rev (store_ (after [OMakeChan 1]))
  ∧ ((∀ wa c s',
        watch "k" false (Rev (store_ (after [OMakeChan 1])) + 1) 7 1%nat
          (after [OMakeChan 1]) = Done (wa, c, s') →
        wa ∈ unsynced s'
        ∧ syncWatchersLoop_turn s'
          = Panic "watcher current revision should not exceed current revision")
     ∧ (∀ wa c s', unsynced (after [OMakeChan 1]) = ∅ →
          watch "k" false 0 7 1%nat (after [OMakeChan 1]) = Done (wa, c, s') →
          member (synced s') "k" wa ∧ syncWatchersLoop_turn s' = Done s')).
Proof.
  assert (mu (after [OMakeChan 1]) = false) as Hmu by (vm_compute; reflexivity).
  assert (0 ≤ Rev (store_ (after [OMakeChan 1]))) as Hrev
    by (vm_compute; discriminate).
  split; [exact Hmu|]. split; [exact Hrev|].
  exact (watch_next_revision_panics "k" false 7 1%nat (after [OMakeChan 1]) Hmu Hrev).
Defined.

Lemma syncWatchers_drops_compacted_witness :
  syncWatchers (after ops_compacted) = Done (after (ops_compacted ++ [OSync]))
  ∧ 1%nat ∈ unsynced (after ops_compacted)
  ∧ ((compacted (after ops_compacted) 1%nat →
        (1%nat ∉ unsynced (after (ops_compacted ++ [OSync])))
        ∧ sent_to (after (ops_compacted ++ [OSync])) 1%nat
          = sent_to (after ops_compacted) 1%nat
        ∧ ∀ k, member (synced (after (ops_compacted ++ [OSync]))) k 1%nat
               ↔ member (synced (after ops_compacted)) k 1%nat)
     ∧ (¬ compacted (after ops_compacted) 1%nat →
        1%nat ∈ unsynced (after (ops_compacted ++ [OSync]))
        ∨ member (synced (after (ops_compacted ++ [OSync])))
            (key (deref (after ops_compacted) 1%nat)) 1%nat)).
Proof.
  assert (syncWatchers (after ops_compacted)
          = Done (after (ops_compacted ++ [OSync]))) as Hsync
    by (vm_compute; reflexivity).
  assert (1%nat ∈ unsynced (after ops_compacted)) as Hu
    by (apply elem_of_decide; vm_compute; reflexivity).
  split; [exact Hsync|]. split; [exact Hu|].
  exact (syncWatchers_drops_compacted (after ops_compacted)
           (after (ops_compacted ++ [OSync])) 1%nat Hsync Hu).
Defined.

(** On the sample store of C7 the watcher is behind the compaction revision,
    and the sync pass leaves it in neither partition with no response sent
    and an empty channel. *)
Lemma syncWatchers_drops_compacted_sample :
  compacted (after ops_compacted) 1%nat
  ∧ unsynced (after (ops_compacted ++ [OSync])) = ∅
  ∧ synced (after (ops_compacted ++ [OSync])) = ∅
  ∧ sent (after (ops_compacted ++ [OSync])) = []
  ∧ chans (after (ops_compacted ++ [OSync])) !! 1%nat
    = Some {| cap := 1; buf := [] |}.
Proof.
  split_and!; try (vm_compute; reflexivity).
Qed.

Lemma TxnEnd_notifies_once_witness :
  mu s_txn = true
  ∧ store_txn_end chs_txn 1 (store_ s_txn)
    = (None, (store_txn_end chs_txn 1 (store_ s_txn)).2)
  ∧ ((changes (store_txn_end chs_txn 1 (store_ s_txn)).2 = [] →
        TxnEnd (store_txn_end chs_txn) 1 s_txn
        = Done (None, set_mu false
                        (set_store
                           (getChanges (store_txn_end chs_txn 1 (store_ s_txn)).2).2
                           s_txn)))
     ∧ (changes (store_txn_end chs_txn 1 (store_ s_txn)).2 ≠ [] →
        TxnEnd (store_txn_end chs_txn) 1 s_txn
        = Done (None, set_mu false
                        (notify (Rev (store_txn_end chs_txn 1 (store_ s_txn)).2)
                           (txnEvents
                              (changes (store_txn_end chs_txn 1 (store_ s_txn)).2))
                           (set_store
                              (getChanges (store_txn_end chs_txn 1 (store_ s_txn)).2).2
                              s_txn)))
        ∧ Kv <$> txnEvents (changes (store_txn_end chs_txn 1 (store_ s_txn)).2)
          = changes (store_txn_end chs_txn 1 (store_ s_txn)).2
        ∧ ∃ new,
            sent (notify (Rev (store_txn_end chs_txn 1 (store_ s_txn)).2)
                    (txnEvents
                       (changes (store_txn_end chs_txn 1 (store_ s_txn)).2))
                    (set_store
                       (getChanges (store_txn_end chs_txn 1 (store_ s_txn)).2).2
                       s_txn))
            = sent s_txn ++ new
            ∧ ∀ w r, (w, r) ∈ new →
                Revision r = Rev (store_txn_end chs_txn 1 (store_ s_txn)).2
                ∧ (∀ e, e ∈ Events r →
                     Kv e ∈ changes (store_txn_end chs_txn 1 (store_ s_txn)).2)
                ∧ ((∀ c, c ∈ changes (store_txn_end chs_txn 1 (store_ s_txn)).2 →
                      ModRevision c
                      = Rev (store_txn_end chs_txn 1 (store_ s_txn)).2) →
                   ∀ e, e ∈ Events r →
                     ModRevision (Kv e)
                     = Rev (store_txn_end chs_txn 1 (store_ s_txn)).2))).
Proof.
  assert (mu s_txn = true) as Hmu by (vm_compute; reflexivity).
  assert (store_txn_end chs_txn 1 (store_ s_txn)
          = (None, (store_txn_end chs_txn 1 (store_ s_txn)).2)) as Hend
    by reflexivity.
  split; [exact Hmu|]. split; [exact Hend|].
  exact (TxnEnd_notifies_once (store_txn_end chs_txn) 1 s_txn _ Hmu Hend).
Defined.

(** On the sample transaction the watcher on ["k"] is sent one response,
    with the one event of the batch that it matches and the revision of the
    commit. *)
Lemma TxnEnd_notifies_once_sample :
  (r ← TxnEnd (store_txn_end chs_txn) 1 s_txn; Done (sent r.2, mu r.2))
  = Done ([(1%nat, {| WatchID := 7;
                      Events := [{| Typ := PUT; Kv := kv "k" "1" 2 |}];
                      Revision := 2 |})], false).
Proof. vm_compute. reflexivity. Qed.

(** ** The further properties on sample stores *)

Lemma newWatcherToEventMap_keys_witness :
  newWatcherToEventMap (watchers s_hot) (synced s_hot) evs_hot !! 1%nat
  = Some evs_hot
  ∧ (evs_hot ≠ [] ∧ (∃ k, member (synced s_hot) k 1%nat)
     ∧ (∀ e, e ∈ evs_hot → e ∈ evs_hot)
     ∧ (registered (watchers s_hot) (synced s_hot) 1%nat →
        evs_hot = filter (matches (watchers s_hot !!! 1%nat)) evs_hot)).
Proof.
  assert (newWatcherToEventMap (watchers s_hot) (synced s_hot) evs_hot !! 1%nat
          = Some evs_hot) as Hl by (vm_compute; reflexivity).
  split; [exact Hl|].
  exact (newWatcherToEventMap_keys (watchers s_hot) (synced s_hot) evs_hot
           evs_hot 1%nat Hl).
Defined.

Lemma watch_registers_witness :
  wf s_hot ∧ mu s_hot = false
  ∧ ∃ wa c s',
      watch "a" true 5 8 1%nat s_hot = Done (wa, c, s')
      ∧ wa ≠ nil ∧ watchers s_hot !! wa = None
      ∧ watchers s' !! wa
        = Some {| key := "a"; prefix := true; cur := 5; id := 8; ch := 1%nat |}
      ∧ (5 = 0 → member (synced s') "a" wa ∧ unsynced s' = unsynced s_hot)
      ∧ (5 ≠ 0 → wa ∈ unsynced s' ∧ synced s' = synced s_hot)
      ∧ ∀ w, w ≠ wa → same_view s_hot s' w.
Proof.
  assert (wf s_hot) as Hwf by (apply after_wf; vm_compute; reflexivity).
  assert (mu s_hot = false) as Hmu by (vm_compute; reflexivity).
  split; [exact Hwf|]. split; [exact Hmu|].
  exact (watch_registers "a" true 5 8 1%nat s_hot Hwf Hmu).
Defined.

Lemma watch_cancel_round_trip_witness :
  wf s_hot ∧ synced s_hot !! "a" ≠ Some ∅
  ∧ watch "a" false 0 8 1%nat s_hot
    = Done (2%nat, cancel 2%nat "a",
            after (ops_watch ++ [OStore (λ st, (store_put "k" "v" st).2);
                                 OWatch "a" false 0 8 1%nat]))
  ∧ ∃ s'',
      cancel 2%nat "a"
        (after (ops_watch ++ [OStore (λ st, (store_put "k" "v" st).2);
                              OWatch "a" false 0 8 1%nat])) = Done s''
      ∧ synced s'' = synced s_hot ∧ unsynced s'' = unsynced s_hot.
Proof.
  assert (wf s_hot) as Hwf by (apply after_wf; vm_compute; reflexivity).
  assert (synced s_hot !! "a" ≠ Some ∅) as Hb by (vm_compute; discriminate).
  assert (watch "a" false 0 8 1%nat s_hot
          = Done (2%nat, cancel 2%nat "a",
                  after (ops_watch ++ [OStore (λ st, (store_put "k" "v" st).2);
                                       OWatch "a" false 0 8 1%nat]))) as Hw
    by (vm_compute; reflexivity).
  split; [exact Hwf|]. split; [exact Hb|]. split; [exact Hw|].
  exact (watch_cancel_round_trip "a" false 0 8 1%nat s_hot 2%nat
           (cancel 2%nat "a") _ Hwf Hb Hw).
Defined.

Lemma cancel_frame_witness :
  cancel 1%nat "k" s_hot
  = Done (after (ops_watch ++ [OStore (λ st, (store_put "k" "v" st).2);
                               OCancel 1%nat]))
  ∧ (watchers (after (ops_watch ++ [OStore (λ st, (store_put "k" "v" st).2);
                                    OCancel 1%nat])) = watchers s_hot
     ∧ chans (after (ops_watch ++ [OStore (λ st, (store_put "k" "v" st).2);
                                   OCancel 1%nat])) = chans s_hot
     ∧ sent (after (ops_watch ++ [OStore (λ st, (store_put "k" "v" st).2);
                                  OCancel 1%nat])) = sent s_hot
     ∧ store_ (after (ops_watch ++ [OStore (λ st, (store_put "k" "v" st).2);
                                    OCancel 1%nat])) = store_ s_hot
     ∧ mu (after (ops_watch ++ [OStore (λ st, (store_put "k" "v" st).2);
                                OCancel 1%nat])) = mu s_hot
     ∧ ∀ w, w ≠ 1%nat →
         same_view s_hot
           (after (ops_watch ++ [OStore (λ st, (store_put "k" "v" st).2);
                                 OCancel 1%nat])) w).
Proof.
  assert (cancel 1%nat "k" s_hot
          = Done (after (ops_watch ++ [OStore (λ st, (store_put "k" "v" st).2);
                                       OCancel 1%nat]))) as Hc
    by (vm_compute; reflexivity).
  split; [exact Hc|].
  exact (cancel_frame 1%nat "k" s_hot _ Hc).
Defined.

Lemma notify_full_channel_witness :
  wf s_full ∧ member (synced s_full) "k" 1%nat
  ∧ filter (matches (deref s_full 1%nat)) evs_hot ≠ []
  ∧ full s_full (ch (deref s_full 1%nat))
  ∧ (1%nat ∈ unsynced (notify 3 evs_hot s_full)
     ∧ cur (deref (notify 3 evs_hot s_full) 1%nat) = 3
     ∧ (∀ k', ¬ member (synced (notify 3 evs_hot s_full)) k' 1%nat)
     ∧ sent_to (notify 3 evs_hot s_full) 1%nat = sent_to s_full 1%nat).
Proof.
  assert (wf s_full) as Hwf by (apply after_wf; vm_compute; reflexivity).
  assert (member (synced s_full) "k" 1%nat) as Hm
    by (apply member_decide; vm_compute; reflexivity).
  assert (filter (matches (deref s_full 1%nat)) evs_hot ≠ []) as Hf
    by (vm_compute; discriminate).
  assert (full s_full (ch (deref s_full 1%nat))) as Hfull
    by (vm_compute; constructor).
  split; [exact Hwf|]. split; [exact Hm|]. split; [exact Hf|].
  split; [exact Hfull|].
  exact (notify_full_channel 3 evs_hot s_full "k" 1%nat Hwf Hm Hf Hfull).
Defined.

Lemma notify_free_channel_witness :
  wf s_hot ∧ member (synced s_hot) "k" 1%nat
  ∧ filter (matches (deref s_hot 1%nat)) evs_hot ≠ []
  ∧ chans s_hot !! ch (deref s_hot 1%nat) = Some {| cap := 1; buf := [] |}
  ∧ (sent_to (notify 2 evs_hot s_hot) 1%nat
     = sent_to s_hot 1%nat
       ++ [{| WatchID := id (deref s_hot 1%nat);
              Events := filter (matches (deref s_hot 1%nat)) evs_hot;
              Revision := Rev (store_ s_hot) |}]
     ∧ member (synced (notify 2 evs_hot s_hot)) "k" 1%nat
     ∧ 1%nat ∉ unsynced (notify 2 evs_hot s_hot)).
Proof.
  assert (wf s_hot) as Hwf by (apply after_wf; vm_compute; reflexivity).
  assert (member (synced s_hot) "k" 1%nat) as Hm
    by (apply member_decide; vm_compute; reflexivity).
  assert (filter (matches (deref s_hot 1%nat)) evs_hot ≠ []) as Hf
    by (vm_compute; discriminate).
  assert (chans s_hot !! ch (deref s_hot 1%nat)
          = Some {| cap := 1; buf := [] |}) as Hq by (vm_compute; reflexivity).
  assert (length (buf {| cap := 1; buf := [] |})
          < cap {| cap := 1; buf := [] |})%nat as Hroom by (simpl; lia).
  assert (∀ k' w', member (synced s_hot) k' w' → w' ≠ 1%nat →
            ch (deref s_hot w') = ch (deref s_hot 1%nat) →
            filter (matches (deref s_hot w')) evs_hot = []) as Hothers.
  { assert (synced s_hot = {["k" := {[1%nat]}]}) as ->
      by (vm_compute; reflexivity).
    intros k' w' (wm & Hwm & Hin) Hne.
    apply lookup_singleton_Some in Hwm as [_ <-].
    apply elem_of_singleton in Hin. contradiction. }
  split; [exact Hwf|]. split; [exact Hm|]. split; [exact Hf|].
  split; [exact Hq|].
  exact (notify_free_channel 2 evs_hot s_hot "k" 1%nat _ Hwf Hm Hf Hq Hroom
           Hothers).
Defined.

Lemma notify_keeps_watchers_witness :
  wf s_full
  ∧ ((registered_in (notify 3 evs_hot s_full) 1%nat ↔ registered_in s_full 1%nat)
     ∧ dom (synced (notify 3 evs_hot s_full)) = dom (synced s_full)
     ∧ (∀ k, member (synced (notify 3 evs_hot s_full)) k 1%nat →
             member (synced s_full) k 1%nat)
     ∧ (1%nat ∈ unsynced s_full → 1%nat ∈ unsynced (notify 3 evs_hot s_full))).
Proof.
  assert (wf s_full) as Hwf by (apply after_wf; vm_compute; reflexivity).
  split; [exact Hwf|].
  exact (notify_keeps_watchers 3 evs_hot s_full 1%nat Hwf).
Defined.

Lemma syncWatchers_no_panic_witness :
  wf (after ops_behind)
  ∧ (∀ w, w ∈ unsynced (after ops_behind) →
          cur (deref (after ops_behind) w) ≤ Rev (store_ (after ops_behind)))
  ∧ Forall (λ r, is_Some (rval r)) (b (store_ (after ops_behind)))
  ∧ ∃ s', syncWatchers (after ops_behind) = Done s'.
Proof.
  assert (wf (after ops_behind)) as Hwf
    by (apply after_wf; vm_compute; reflexivity).
  assert (∀ w, w ∈ unsynced (after ops_behind) →
            cur (deref (after ops_behind) w) ≤ Rev (store_ (after ops_behind)))
    as Hcur.
  { assert (unsynced (after ops_behind) = {[1%nat]}) as ->
      by (vm_compute; reflexivity).
    intros w ->%elem_of_singleton. vm_compute. discriminate. }
  assert (Forall (λ r, is_Some (rval r)) (b (store_ (after ops_behind))))
    as Hrows.
  { assert (b (store_ (after ops_behind))
            = [{| rkey := {| main := 2; sub := 0 |}; tombstone := false;
                  rval := Some (kv "k" "a" 2) |};
               {| rkey := {| main := 3; sub := 0 |}; tombstone := false;
                  rval := Some (kv "k" "b" 3) |}]) as ->
      by (vm_compute; reflexivity).
    repeat constructor; by eexists. }
  split; [exact Hwf|]. split; [exact Hcur|]. split; [exact Hrows|].
  exact (syncWatchers_no_panic (after ops_behind) Hwf Hcur Hrows).
Defined.

Lemma sync_relevant_exact_witness :
  foldlM (collect (main (currentRev (store_ (after ops_behind))))
            (compactMainRev (store_ (after ops_behind))))
         (MaxInt64, ∅, ∅, after ops_behind)
         (range_set (unsynced (after ops_behind)))
  = Done (2, {["k" := {[1%nat]}]}, ∅, after ops_behind)
  ∧ (relevant {["k" := {[1%nat]}]} ∅ {| Typ := PUT; Kv := kv "k" "b" 3 |}
     ↔ ∃ w, w ∈ unsynced (after ops_behind)
            ∧ ¬ compacted (after ops_behind) w
            ∧ matches (deref (after ops_behind) w)
                {| Typ := PUT; Kv := kv "k" "b" 3 |}).
Proof.
  assert (foldlM (collect (main (currentRev (store_ (after ops_behind))))
                    (compactMainRev (store_ (after ops_behind))))
                 (MaxInt64, ∅, ∅, after ops_behind)
                 (range_set (unsynced (after ops_behind)))
          = Done (2, {["k" := {[1%nat]}]}, ∅, after ops_behind)) as Hc
    by (vm_compute; reflexivity).
  split; [exact Hc|].
  exact (sync_relevant_exact (after ops_behind) MaxInt64 2 _ _ _
           {| Typ := PUT; Kv := kv "k" "b" 3 |} Hc).
Defined.

Lemma syncWatchers_serves_witness :
  syncWatchers (after ops_behind) = Done (after ops_catch_up)
  ∧ ∃ minRev,
      (∀ w, w ∈ unsynced (after ops_behind) →
            ¬ compacted (after ops_behind) w →
            minRev ≤ cur (deref (after ops_behind) w))
      ∧ (minRev = MaxInt64
         ∨ ∃ w, w ∈ unsynced (after ops_behind)
                ∧ ¬ compacted (after ops_behind) w
                ∧ minRev = cur (deref (after ops_behind) w))
      ∧ ∀ w, w ∈ unsynced (after ops_behind) →
          ¬ compacted (after ops_behind) w →
          same_view (after ops_behind) (after ops_catch_up) w
          ∨ (filter (matches (deref (after ops_behind) w))
               (omap rowEvent
                  (UnsafeRange (b (store_ (after ops_behind))) minRev
                     (int64 (main (currentRev (store_ (after ops_behind))) + 1))))
             ≠ []
             ∧ raised (after ops_behind) (after ops_catch_up) w
                 (response (after ops_behind) w
                    (filter (matches (deref (after ops_behind) w))
                       (omap rowEvent
                          (UnsafeRange (b (store_ (after ops_behind))) minRev
                             (int64
                                (main (currentRev (store_ (after ops_behind)))
                                 + 1))))))).
Proof.
  assert (syncWatchers (after ops_behind) = Done (after ops_catch_up)) as Hsync
    by (vm_compute; reflexivity).
  split; [exact Hsync|].
  exact (syncWatchers_serves (after ops_behind) (after ops_catch_up) Hsync).
Defined.

Lemma syncWatchers_frame_witness :
  wf (after ops_compacted)
  ∧ syncWatchers (after ops_compacted) = Done (after (ops_compacted ++ [OSync]))
  ∧ (watchers (after (ops_compacted ++ [OSync])) = watchers (after ops_compacted)
     ∧ store_ (after (ops_compacted ++ [OSync])) = store_ (after ops_compacted)
     ∧ mu (after (ops_compacted ++ [OSync])) = mu (after ops_compacted)
     ∧ (∀ w, w ∉ unsynced (after ops_compacted) →
             same_view (after ops_compacted) (after (ops_compacted ++ [OSync])) w)
     ∧ (∀ w, registered_in (after (ops_compacted ++ [OSync])) w
             ↔ registered_in (after ops_compacted) w
               ∧ ¬ (w ∈ unsynced (after ops_compacted)
                    ∧ compacted (after ops_compacted) w))).
Proof.
  assert (wf (after ops_compacted)) as Hwf
    by (apply after_wf; vm_compute; reflexivity).
  assert (syncWatchers (after ops_compacted)
          = Done (after (ops_compacted ++ [OSync]))) as Hsync
    by (vm_compute; reflexivity).
  split; [exact Hwf|]. split; [exact Hsync|].
  exact (syncWatchers_frame (after ops_compacted)
           (after (ops_compacted ++ [OSync])) Hwf Hsync).
Defined.

Lemma reachable_registry_witness :
  reachable s_full
  ∧ ((∀ k w, member (synced s_full) k w →
        w ≠ nil ∧ ∃ wr, watchers s_full !! w = Some wr ∧ key wr = k)
     ∧ (∀ w, w ∈ unsynced s_full → w ≠ nil ∧ is_Some (watchers s_full !! w))).
Proof.
  assert (reachable s_full) as Hr
    by (apply after_reachable; vm_compute; reflexivity).
  split; [exact Hr|]. exact (reachable_registry s_full Hr).
Defined.

Lemma exec_keeps_fields_witness :
  exec (OPut (store_put "k" "2")) s_full
  = Done (after (ops_watch ++ [OPut (store_put "k" "1");
                               OPut (store_put "k" "2")]))
  ∧ watchers s_full !! 1%nat
    = Some {| key := "k"; prefix := false; cur := 0; id := 7; ch := 1%nat |}
  ∧ ∃ wr',
      watchers (after (ops_watch ++ [OPut (store_put "k" "1");
                                     OPut (store_put "k" "2")])) !! 1%nat
      = Some wr'
      ∧ key wr'
        = key {| key := "k"; prefix := false; cur := 0; id := 7; ch := 1%nat |}
      ∧ prefix wr'
        = prefix {| key := "k"; prefix := false; cur := 0; id := 7; ch := 1%nat |}
      ∧ id wr'
        = id {| key := "k"; prefix := false; cur := 0; id := 7; ch := 1%nat |}
      ∧ ch wr'
        = ch {| key := "k"; prefix := false; cur := 0; id := 7; ch := 1%nat |}
      ∧ (notifies (OPut (store_put "k" "2")) = false →
         wr' = {| key := "k"; prefix := false; cur := 0; id := 7; ch := 1%nat |}).
Proof.
  assert (exec (OPut (store_put "k" "2")) s_full
          = Done (after (ops_watch ++ [OPut (store_put "k" "1");
                                       OPut (store_put "k" "2")]))) as Hexec
    by (vm_compute; reflexivity).
  assert (watchers s_full !! 1%nat
          = Some {| key := "k"; prefix := false; cur := 0; id := 7; ch := 1%nat |})
    as Hw by (vm_compute; reflexivity).
  split; [exact Hexec|]. split; [exact Hw|].
  exact (exec_keeps_fields (OPut (store_put "k" "2")) s_full _ 1%nat _ Hexec Hw).
Defined.

Lemma exec_no_empty_bucket_witness :
  notifies (OCancel 1%nat) = false
  ∧ exec (OCancel 1%nat) (after ops_watch)
    = Done (after (ops_watch ++ [OCancel 1%nat]))
  ∧ no_empty_bucket (after ops_watch)
  ∧ no_empty_bucket (after (ops_watch ++ [OCancel 1%nat])).
Proof.
  assert (notifies (OCancel 1%nat) = false) as Hn by reflexivity.
  assert (exec (OCancel 1%nat) (after ops_watch)
          = Done (after (ops_watch ++ [OCancel 1%nat]))) as Hexec
    by (vm_compute; reflexivity).
  assert (no_empty_bucket (after ops_watch)) as Hne.
  { unfold no_empty_bucket.
    assert (synced (after ops_watch) = {["k" := {[1%nat]}]}) as ->
      by (vm_compute; reflexivity).
    intros k wm [_ <-]%lookup_singleton_Some Hempty.
    assert (1%nat ∈ ({[1%nat]} : gset ptr)) as Hin by (by apply elem_of_singleton).
    rewrite Hempty in Hin. by apply not_elem_of_empty in Hin. }
  split; [exact Hn|]. split; [exact Hexec|]. split; [exact Hne|].
  exact (exec_no_empty_bucket (OCancel 1%nat) (after ops_watch) _ Hn Hexec Hne).
Defined.

Lemma DeleteRange_last_change_witness :
  wf (after ops_two)
  ∧ DeleteRange (store_delete ["a"; "b"]) (after ops_two)
    = Done (2, 2, after (ops_two ++ [ODeleteRange (store_delete ["a"; "b"])]))
  ∧ ∃ change,
      last (changes (store_delete ["a"; "b"] (store_ (after ops_two))).2)
      = Some change
      ∧ ∀ k w, member (synced (after ops_two)) k w →
          if decide (matches (deref (after ops_two) w)
                       {| Typ := DELETE; Kv := change |})
          then (∃ r,
                  sent_to (after (ops_two
                                  ++ [ODeleteRange (store_delete ["a"; "b"])])) w
                  = sent_to (after ops_two) w ++ [r]
                  ∧ WatchID r = id (deref (after ops_two) w)
                  ∧ Events r = replicate (Z.to_nat 2)
                                 {| Typ := DELETE; Kv := change |}
                  ∧ ∀ k',
                      member (synced (after (ops_two
                                ++ [ODeleteRange (store_delete ["a"; "b"])]))) k' w
                      ↔ member (synced (after ops_two)) k' w)
               ∨ (sent_to (after (ops_two
                                  ++ [ODeleteRange (store_delete ["a"; "b"])])) w
                  = sent_to (after ops_two) w
                  ∧ w ∈ unsynced (after (ops_two
                                  ++ [ODeleteRange (store_delete ["a"; "b"])]))
                  ∧ cur (deref (after (ops_two
                                  ++ [ODeleteRange (store_delete ["a"; "b"])])) w)
                    = 2
                  ∧ ∀ k',
                      ¬ member (synced (after (ops_two
                                  ++ [ODeleteRange (store_delete ["a"; "b"])])))
                          k' w)
          else same_view (after ops_two)
                 (after (ops_two ++ [ODeleteRange (store_delete ["a"; "b"])])) w.
Proof.
  assert (wf (after ops_two)) as Hwf
    by (apply after_wf; vm_compute; reflexivity).
  assert (DeleteRange (store_delete ["a"; "b"]) (after ops_two)
          = Done (2, 2,
                  after (ops_two ++ [ODeleteRange (store_delete ["a"; "b"])])))
    as Hdel by (vm_compute; reflexivity).
  assert (2 ≠ 0) as Hn by discriminate.
  split; [exact Hwf|]. split; [exact Hdel|].
  exact (DeleteRange_last_change (store_delete ["a"; "b"]) (after ops_two) _ 2 2
           Hwf Hdel Hn).
Defined.

Lemma TxnBegin_holds_mutex_witness :
  TxnBegin (λ st, (1, st)) (after ops_watch) = Done (1, s_txn)
  ∧ (mu (after ops_watch) = false ∧ mu s_txn = true
     ∧ (∀ o, locks o = true → exec o s_txn = Blocked)
     ∧ (∀ wa k, cancel wa k s_txn = Blocked)
     ∧ ∀ store_TxnEnd id,
         ∃ s2, TxnEnd store_TxnEnd id s_txn
               = Done ((store_TxnEnd id (store_ s_txn)).1, s2)
               ∧ (mu s2 = true ↔ is_Some (store_TxnEnd id (store_ s_txn)).1)).
Proof.
  assert (TxnBegin (λ st, (1, st)) (after ops_watch) = Done (1, s_txn)) as Hb
    by (vm_compute; reflexivity).
  split; [exact Hb|].
  exact (TxnBegin_holds_mutex (λ st, (1, st)) (after ops_watch) s_txn 1 Hb).
Defined.
